(** * Space Striker (src/main.cpp): the simulation core, embedded and verified

    The development follows the layout of [main.cpp]:
    - machine numbers ([int], [unsigned long], [float], [double]);
    - the utility structures [Vec2] and [Rect];
    - the sound system and the part of the Arduino platform the game calls
      ([millis], [random], the tone generator);
    - [Entity] and the [Game] class with its spawners, per-tick updaters and
      the collision resolver;
    - the properties of the specification, proved about these definitions. *)

From Stdlib Require Import ZArith Bool List Lia.
From Stdlib Require Import Floats.SpecFloat.
From stdpp Require Import base option list.

Local Open Scope Z_scope.

(* ===================================================================== *)
(** * Machine numbers *)
(* ===================================================================== *)

(** [int] is 32 bits wide on the ESP32-S3; arithmetic results are brought
    back into range by two's-complement wrap-around. *)
Definition INT_MIN : Z := - 2 ^ 31.
Definition INT_MAX : Z := 2 ^ 31 - 1.
Definition wrap_int (z : Z) : Z := (z + 2 ^ 31) mod 2 ^ 32 - 2 ^ 31.

(** [unsigned long] is 32 bits wide as well; subtraction is modulo 2^32. *)
Definition wrap_ulong (z : Z) : Z := z mod 2 ^ 32.

(** [uint16_t] holds 16 bits. *)
Definition wrap_u16 (z : Z) : Z := z mod 2 ^ 16.

(** [float] is IEEE-754 binary32, [double] is binary64.  Both are carried
    by [spec_float]; the operations are the correctly rounded ones of
    [SpecFloat] at the corresponding precision. *)
Definition float := spec_float.
Definition double := spec_float.

Module F32.
Definition prec : Z := 24.
Definition emax : Z := 128.
Definition add : float -> float -> float := SFadd prec emax.
Definition sub : float -> float -> float := SFsub prec emax.
Definition mul : float -> float -> float := SFmul prec emax.
Definition div : float -> float -> float := SFdiv prec emax.
Definition sqrt : float -> float := SFsqrt prec emax.
Definition ltb : float -> float -> bool := SFltb.
Definition eqb : float -> float -> bool := SFeqb.
(** [a > b] *)
Definition gtb (a b : float) : bool :=
  match SFcompare a b with Some Gt => true | _ => false end.
(** conversion of an integer value ([int], [long] or an integer literal) *)
Definition of_Z (z : Z) : float := binary_normalize prec emax z 0 false.
End F32.

Module F64.
Definition prec : Z := 53.
Definition emax : Z := 1024.
Definition add : double -> double -> double := SFadd prec emax.
Definition mul : double -> double -> double := SFmul prec emax.
Definition div : double -> double -> double := SFdiv prec emax.
Definition of_Z (z : Z) : double := binary_normalize prec emax z 0 false.
(** a decimal literal [n/d] with [n] and [d] exactly representable, such
    as [1.5 = 15/10]: the nearest double is the rounded quotient *)
Definition lit (n d : Z) : double := div (of_Z n) (of_Z d).
(** widening a [float]: exact, the mantissa is only re-aligned *)
Definition of_float (x : float) : double :=
  match x with
  | S754_finite s m e => binary_round prec emax s m e
  | _ => x
  end.
(** narrowing to [float]: round to nearest even *)
Definition to_float (x : double) : float :=
  match x with
  | S754_finite s m e => binary_round F32.prec F32.emax s m e
  | _ => x
  end.
End F64.

#[global] Arguments F32.add : simpl never.
#[global] Arguments F32.sub : simpl never.
#[global] Arguments F32.mul : simpl never.
#[global] Arguments F32.div : simpl never.
#[global] Arguments F32.ltb : simpl never.
#[global] Arguments F32.gtb : simpl never.
#[global] Arguments F32.eqb : simpl never.
#[global] Arguments F32.sqrt : simpl never.
#[global] Arguments F32.of_Z : simpl never.
#[global] Arguments F64.add : simpl never.
#[global] Arguments F64.mul : simpl never.
#[global] Arguments F64.div : simpl never.
#[global] Arguments F64.of_Z : simpl never.
#[global] Arguments F64.lit : simpl never.
#[global] Arguments F64.of_float : simpl never.
#[global] Arguments F64.to_float : simpl never.

Declare Scope f32_scope.
Delimit Scope f32_scope with f32.
Infix "+" := F32.add : f32_scope.
Infix "-" := F32.sub : f32_scope.
Infix "*" := F32.mul : f32_scope.
Infix "/" := F32.div : f32_scope.
Infix "<?" := F32.ltb : f32_scope.
Infix ">?" := F32.gtb : f32_scope.
Infix "=?" := F32.eqb : f32_scope.

(** A [float] variable initialised from a [double] literal [n/d]. *)
Definition flit (n d : Z) : float := F64.to_float (F64.lit n d).
#[global] Arguments flit : simpl never.

(** Arduino's [PI] macro, 3.1415926535897932384626433832795, as the nearest
    double (bit pattern 0x400921FB54442D18). *)
Definition PI : double := S754_finite false 7074237752028440 (-51).

(* ===================================================================== *)
(** * Configuration *)
(* ===================================================================== *)

Definition SCREEN_WIDTH : Z := 480.
Definition SCREEN_HEIGHT : Z := 320.

Definition MAX_ENEMIES : nat := 20.
Definition MAX_PLAYER_BULLETS : nat := 30.
Definition MAX_ENEMY_BULLETS : nat := 40.
Definition MAX_POWERUPS : nat := 5.
Definition MAX_EXPLOSIONS : nat := 10.
Definition MAX_PARTICLES : nat := 50.

(* ===================================================================== *)
(** * Utility structures *)
(* ===================================================================== *)

Module Vec2.
Record t : Type := mk { x : float; y : float }.
Definition add (a v : t) : t := mk (x a + x v)%f32 (y a + y v)%f32.
Definition sub (a v : t) : t := mk (x a - x v)%f32 (y a - y v)%f32.
Definition scale (a : t) (s : float) : t := mk (x a * s)%f32 (y a * s)%f32.
End Vec2.
Abbreviation Vec2 := Vec2.t.

Module Rect.
Record t : Type := mk { x : float; y : float; w : float; h : float }.

(** [bool intersects(const Rect &r) const] *)
Definition intersects (a r : t) : bool :=
  (x a <? x r + w r)%f32 && (x a + w a >? x r)%f32 &&
  (y a <? y r + h r)%f32 && (y a + h a >? y r)%f32.

(** The edges of a box, and the spec's reading of the test: the
    x-intervals and the y-intervals overlap, strictly. *)
Definition left (a : t) : float := x a.
Definition right (a : t) : float := (x a + w a)%f32.
Definition top (a : t) : float := y a.
Definition bottom (a : t) : float := (y a + h a)%f32.
Definition strictly_overlap (lo1 hi1 lo2 hi2 : float) : Prop :=
  (lo1 <? hi2)%f32 = true /\ (lo2 <? hi1)%f32 = true.
Definition x_overlap (a b : t) : Prop :=
  strictly_overlap (left a) (right a) (left b) (right b).
Definition y_overlap (a b : t) : Prop :=
  strictly_overlap (top a) (bottom a) (top b) (bottom b).
(** two boxes touch when an edge of one lies on the facing edge of the
    other *)
Definition touch (a b : t) : Prop :=
  (right a =? left b)%f32 = true \/ (right b =? left a)%f32 = true \/
  (bottom a =? top b)%f32 = true \/ (bottom b =? top a)%f32 = true.
End Rect.
Abbreviation Rect := Rect.t.

(* ===================================================================== *)
(** * Entity system *)
(* ===================================================================== *)

Inductive EntityType : Type :=
| PLAYER | ENEMY_BASIC | ENEMY_FAST | ENEMY_TANK
| BULLET_PLAYER | BULLET_ENEMY
| POWERUP_WEAPON | POWERUP_HEALTH
| EXPLOSION | PARTICLE.

Definition EntityType_eqb (a b : EntityType) : bool :=
  match a, b with
  | PLAYER, PLAYER | ENEMY_BASIC, ENEMY_BASIC | ENEMY_FAST, ENEMY_FAST
  | ENEMY_TANK, ENEMY_TANK | BULLET_PLAYER, BULLET_PLAYER
  | BULLET_ENEMY, BULLET_ENEMY | POWERUP_WEAPON, POWERUP_WEAPON
  | POWERUP_HEALTH, POWERUP_HEALTH | EXPLOSION, EXPLOSION
  | PARTICLE, PARTICLE => true
  | _, _ => false
  end.

(** The display library's colour constants that entities carry; the game
    core never inspects them. *)
Inductive Color : Type :=
| TFT_BLACK | TFT_CYAN | TFT_RED | TFT_YELLOW | TFT_PURPLE | TFT_WHITE
| TFT_ORANGE | TFT_GREEN | TFT_MAGENTA.

Record Entity : Type := mkEntity {
  active : bool;
  type : EntityType;
  pos : Vec2;
  vel : Vec2;
  width : float;
  height : float;
  health : Z;
  color : Color;
  animFrame : Z;
  lastAnimTime : Z
}.

Definition set_active (b : bool) (e : Entity) : Entity :=
  mkEntity b (type e) (pos e) (vel e) (width e) (height e) (health e)
           (color e) (animFrame e) (lastAnimTime e).
Definition set_pos (p : Vec2) (e : Entity) : Entity :=
  mkEntity (active e) (type e) p (vel e) (width e) (height e) (health e)
           (color e) (animFrame e) (lastAnimTime e).
Definition set_vel (v : Vec2) (e : Entity) : Entity :=
  mkEntity (active e) (type e) (pos e) v (width e) (height e) (health e)
           (color e) (animFrame e) (lastAnimTime e).
Definition set_health (hp : Z) (e : Entity) : Entity :=
  mkEntity (active e) (type e) (pos e) (vel e) (width e) (height e) hp
           (color e) (animFrame e) (lastAnimTime e).
Definition set_animFrame (n : Z) (e : Entity) : Entity :=
  mkEntity (active e) (type e) (pos e) (vel e) (width e) (height e) (health e)
           (color e) n (lastAnimTime e).
Definition set_lastAnimTime (t : Z) (e : Entity) : Entity :=
  mkEntity (active e) (type e) (pos e) (vel e) (width e) (height e) (health e)
           (color e) (animFrame e) t.

(** [Rect getRect() const] *)
Definition getRect (e : Entity) : Rect :=
  Rect.mk (Vec2.x (pos e) - width e / F32.of_Z 2)%f32
          (Vec2.y (pos e) - height e / F32.of_Z 2)%f32
          (width e) (height e).

(** [void deactivate()] *)
Definition deactivate (e : Entity) : Entity := set_active false e.

(** An object of static storage before any code has run: all members zero. *)
Definition fzero : float := S754_zero false.
Definition Entity0 : Entity :=
  mkEntity false PLAYER (Vec2.mk fzero fzero) (Vec2.mk fzero fzero)
           fzero fzero 0 TFT_BLACK 0 0.

#[global] Instance Entity_inhabited : Inhabited Entity := populate Entity0.

(* ===================================================================== *)
(** * Game state *)
(* ===================================================================== *)

Inductive GameState : Type := TITLE | PLAYING | GAME_OVER.

Record Game : Type := mkGame {
  player : Entity;
  enemies : list Entity;
  playerBullets : list Entity;
  enemyBullets : list Entity;
  powerups : list Entity;
  explosions : list Entity;
  particles : list Entity;
  score : Z;
  lives : Z;
  wave : Z;
  scrollY : float;
  lastEnemySpawn : Z;
  lastPlayerShot : Z;
  playerWeaponLevel : Z;
  state : GameState
}.

Definition set_player (x : Entity) (g : Game) : Game :=
  mkGame x (enemies g) (playerBullets g) (enemyBullets g) (powerups g)
         (explosions g) (particles g) (score g) (lives g) (wave g) (scrollY g)
         (lastEnemySpawn g) (lastPlayerShot g) (playerWeaponLevel g) (state g).
Definition set_score (x : Z) (g : Game) : Game :=
  mkGame (player g) (enemies g) (playerBullets g) (enemyBullets g) (powerups g)
         (explosions g) (particles g) x (lives g) (wave g) (scrollY g)
         (lastEnemySpawn g) (lastPlayerShot g) (playerWeaponLevel g) (state g).
Definition set_lives (x : Z) (g : Game) : Game :=
  mkGame (player g) (enemies g) (playerBullets g) (enemyBullets g) (powerups g)
         (explosions g) (particles g) (score g) x (wave g) (scrollY g)
         (lastEnemySpawn g) (lastPlayerShot g) (playerWeaponLevel g) (state g).
Definition set_wave (x : Z) (g : Game) : Game :=
  mkGame (player g) (enemies g) (playerBullets g) (enemyBullets g) (powerups g)
         (explosions g) (particles g) (score g) (lives g) x (scrollY g)
         (lastEnemySpawn g) (lastPlayerShot g) (playerWeaponLevel g) (state g).
Definition set_scrollY (x : float) (g : Game) : Game :=
  mkGame (player g) (enemies g) (playerBullets g) (enemyBullets g) (powerups g)
         (explosions g) (particles g) (score g) (lives g) (wave g) x
         (lastEnemySpawn g) (lastPlayerShot g) (playerWeaponLevel g) (state g).
Definition set_lastEnemySpawn (x : Z) (g : Game) : Game :=
  mkGame (player g) (enemies g) (playerBullets g) (enemyBullets g) (powerups g)
         (explosions g) (particles g) (score g) (lives g) (wave g) (scrollY g)
         x (lastPlayerShot g) (playerWeaponLevel g) (state g).
Definition set_lastPlayerShot (x : Z) (g : Game) : Game :=
  mkGame (player g) (enemies g) (playerBullets g) (enemyBullets g) (powerups g)
         (explosions g) (particles g) (score g) (lives g) (wave g) (scrollY g)
         (lastEnemySpawn g) x (playerWeaponLevel g) (state g).
Definition set_playerWeaponLevel (x : Z) (g : Game) : Game :=
  mkGame (player g) (enemies g) (playerBullets g) (enemyBullets g) (powerups g)
         (explosions g) (particles g) (score g) (lives g) (wave g) (scrollY g)
         (lastEnemySpawn g) (lastPlayerShot g) x (state g).
Definition set_state (x : GameState) (g : Game) : Game :=
  mkGame (player g) (enemies g) (playerBullets g) (enemyBullets g) (powerups g)
         (explosions g) (particles g) (score g) (lives g) (wave g) (scrollY g)
         (lastEnemySpawn g) (lastPlayerShot g) (playerWeaponLevel g) x.

(** The six entity arrays of [Game], named so that the array accesses
    [enemies[i]], [particles[i]], ... share one reader and one writer. *)
Inductive Pool : Type :=
| Enemies | PlayerBullets | EnemyBullets | Powerups | Explosions | Particles.

Definition all_pools : list Pool :=
  [Enemies; PlayerBullets; EnemyBullets; Powerups; Explosions; Particles].

Definition capacity (p : Pool) : nat :=
  match p with
  | Enemies => MAX_ENEMIES
  | PlayerBullets => MAX_PLAYER_BULLETS
  | EnemyBullets => MAX_ENEMY_BULLETS
  | Powerups => MAX_POWERUPS
  | Explosions => MAX_EXPLOSIONS
  | Particles => MAX_PARTICLES
  end.

Definition pool_of (p : Pool) (g : Game) : list Entity :=
  match p with
  | Enemies => enemies g
  | PlayerBullets => playerBullets g
  | EnemyBullets => enemyBullets g
  | Powerups => powerups g
  | Explosions => explosions g
  | Particles => particles g
  end.

Definition set_pool (p : Pool) (l : list Entity) (g : Game) : Game :=
  match p with
  | Enemies =>
      mkGame (player g) l (playerBullets g) (enemyBullets g) (powerups g)
        (explosions g) (particles g) (score g) (lives g) (wave g) (scrollY g)
        (lastEnemySpawn g) (lastPlayerShot g) (playerWeaponLevel g) (state g)
  | PlayerBullets =>
      mkGame (player g) (enemies g) l (enemyBullets g) (powerups g)
        (explosions g) (particles g) (score g) (lives g) (wave g) (scrollY g)
        (lastEnemySpawn g) (lastPlayerShot g) (playerWeaponLevel g) (state g)
  | EnemyBullets =>
      mkGame (player g) (enemies g) (playerBullets g) l (powerups g)
        (explosions g) (particles g) (score g) (lives g) (wave g) (scrollY g)
        (lastEnemySpawn g) (lastPlayerShot g) (playerWeaponLevel g) (state g)
  | Powerups =>
      mkGame (player g) (enemies g) (playerBullets g) (enemyBullets g) l
        (explosions g) (particles g) (score g) (lives g) (wave g) (scrollY g)
        (lastEnemySpawn g) (lastPlayerShot g) (playerWeaponLevel g) (state g)
  | Explosions =>
      mkGame (player g) (enemies g) (playerBullets g) (enemyBullets g)
        (powerups g) l (particles g) (score g) (lives g) (wave g) (scrollY g)
        (lastEnemySpawn g) (lastPlayerShot g) (playerWeaponLevel g) (state g)
  | Particles =>
      mkGame (player g) (enemies g) (playerBullets g) (enemyBullets g)
        (powerups g) (explosions g) l (score g) (lives g) (wave g) (scrollY g)
        (lastEnemySpawn g) (lastPlayerShot g) (playerWeaponLevel g) (state g)
  end.

(** [a[i]] for an array held as a list: the element at index [i] (inside
    the array for every access of the program, whose loops are bounded by
    the array's size). *)
Definition slot (p : Pool) (i : nat) (g : Game) : Entity := pool_of p g !!! i.

(* ===================================================================== *)
(** * Sound and input systems, and the program's global state *)
(* ===================================================================== *)

Module SoundSystem.
Inductive SoundEffect : Type := SHOOT | EXPLOSION | HIT | POWERUP | ENEMY_SHOOT.
Record t : Type := mk {
  currentSound : Z * Z;          (* freq, duration *)
  soundStartTime : Z;
  isPlaying : bool
}.
End SoundSystem.

Module InputSystem.
Record t : Type := mk {
  joystickPos : Vec2;
  firePressed : bool;
  touchPos : Vec2;
  isTouching : bool
}.
Definition JOYSTICK_RADIUS : Z := 60.
Definition JOYSTICK_CENTER_X : Z := 70.
Definition JOYSTICK_CENTER_Y : Z := SCREEN_HEIGHT - 70.
End InputSystem.

(** The globals [game], [input], [sound], the static [lastFrame] of
    [loop], and the platform underneath: the frequency on tone channel 0,
    the clock behind [millis()] and the generator behind [random()].  The
    clock and the generator are sequences fixed in advance, the next call
    reading the next element. *)
Record World : Type := mkWorld {
  game : Game;
  input : InputSystem.t;
  sound : SoundSystem.t;
  lastFrame : Z;
  ledc_tone : Z;
  millis_src : nat -> Z;
  millis_calls : nat;
  random_src : nat -> Z;
  random_calls : nat
}.

Definition with_game (f : Game -> Game) (w : World) : World :=
  mkWorld (f (game w)) (input w) (sound w) (lastFrame w) (ledc_tone w)
          (millis_src w) (millis_calls w) (random_src w) (random_calls w).
Definition with_input (f : InputSystem.t -> InputSystem.t) (w : World) : World :=
  mkWorld (game w) (f (input w)) (sound w) (lastFrame w) (ledc_tone w)
          (millis_src w) (millis_calls w) (random_src w) (random_calls w).
Definition with_sound (f : SoundSystem.t -> SoundSystem.t) (w : World) : World :=
  mkWorld (game w) (input w) (f (sound w)) (lastFrame w) (ledc_tone w)
          (millis_src w) (millis_calls w) (random_src w) (random_calls w).
Definition with_lastFrame (t : Z) (w : World) : World :=
  mkWorld (game w) (input w) (sound w) t (ledc_tone w)
          (millis_src w) (millis_calls w) (random_src w) (random_calls w).
Definition with_ledc_tone (f : Z) (w : World) : World :=
  mkWorld (game w) (input w) (sound w) (lastFrame w) f
          (millis_src w) (millis_calls w) (random_src w) (random_calls w).

(* ===================================================================== *)
(** * Statements: a state monad over [World] *)
(* ===================================================================== *)

Definition M (A : Type) : Type := World -> A * World.

Definition ret {A} (a : A) : M A := fun w => (a, w).
Definition bind {A B} (m : M A) (k : A -> M B) : M B :=
  fun w => let r := m w in k (fst r) (snd r).

Declare Scope prog_scope.
Delimit Scope prog_scope with prog.
Notation "x <- m ;; k" := (bind m (fun x => k))
  (at level 100, m at next level, k at level 200, right associativity) : prog_scope.
Notation "m ;; k" := (bind m (fun _ => k))
  (at level 100, k at level 200, right associativity) : prog_scope.
Local Open Scope prog_scope.

(** the world after running [m] *)
Definition exec {A} (m : M A) (w : World) : World := snd (m w).

Definition get_game : M Game := fun w => (game w, w).
Definition modify_game (f : Game -> Game) : M unit := fun w => (tt, with_game f w).
Definition get_input : M InputSystem.t := fun w => (input w, w).
Definition when (b : bool) (m : M unit) : M unit := if b then m else ret tt.

(** [for (int i = from; i < from + n; i++) body], where the body says
    whether it left through [break]. *)
Inductive Flow : Type := Continue | Break.

Fixpoint for_range (from n : nat) (body : nat -> M Flow) : M unit :=
  match n with
  | O => ret tt
  | S n' =>
      fun w =>
        let r := body from w in
        match fst r with
        | Break => (tt, snd r)
        | Continue => for_range (S from) n' body (snd r)
        end
  end.

(** array element access *)
Definition read (p : Pool) (i : nat) : M Entity :=
  fun w => (slot p i (game w), w).
Definition write (p : Pool) (i : nat) (e : Entity) : M unit :=
  modify_game (fun g => set_pool p (<[i := e]> (pool_of p g)) g).
(** [a[i].field = ...], [a[i].field++], [a[i].deactivate()] *)
Definition modify_slot (p : Pool) (i : nat) (f : Entity -> Entity) : M unit :=
  e <- read p i ;; write p i (f e).

(* ===================================================================== *)
(** * The platform calls *)
(* ===================================================================== *)

(** [millis()]: the next reading of the clock, as an [unsigned long]. *)
Definition millis : M Z :=
  fun w =>
    (wrap_ulong (millis_src w (millis_calls w)),
     mkWorld (game w) (input w) (sound w) (lastFrame w) (ledc_tone w)
             (millis_src w) (S (millis_calls w)) (random_src w) (random_calls w)).

(** [random(howsmall, howbig)]: Arduino's contract is a value in
    [howsmall, howbig), and [howsmall] itself when the range is empty.  The
    value is obtained here by reducing the generator's next output. *)
Definition random (howsmall howbig : Z) : M Z :=
  if howsmall >=? howbig then ret howsmall
  else
    fun w =>
      (howsmall + random_src w (random_calls w) mod (howbig - howsmall),
       mkWorld (game w) (input w) (sound w) (lastFrame w) (ledc_tone w)
               (millis_src w) (millis_calls w) (random_src w) (S (random_calls w))).

(** [ledcWriteTone(0, freq)] *)
Definition ledcWriteTone (freq : Z) : M unit := fun w => (tt, with_ledc_tone freq w).

(** Arduino's macros [min] and [constrain]. *)
Definition min_int (a b : Z) : Z := if a <? b then a else b.
Definition constrain (amt low high : float) : float :=
  if (amt <? low)%f32 then low else if (amt >? high)%f32 then high else amt.

(* ===================================================================== *)
(** * Sound system *)
(* ===================================================================== *)

(** [void playTone(int freq, int duration)] *)
Definition playTone (freq duration : Z) : M unit :=
  t <- millis ;;
  (fun w => (tt, with_sound (fun _ => SoundSystem.mk (freq, duration) t true) w)) ;;
  ledcWriteTone freq.

(** [sound.play(effect)] *)
Definition sound_play (effect : SoundSystem.SoundEffect) : M unit :=
  match effect with
  | SoundSystem.SHOOT => playTone 1500 50
  | SoundSystem.EXPLOSION => playTone 300 200
  | SoundSystem.HIT => playTone 200 100
  | SoundSystem.POWERUP => playTone 2000 150
  | SoundSystem.ENEMY_SHOOT => playTone 800 40
  end.

(** [sound.init()]; the channel set-up calls have no state of their own. *)
Definition sound_init : M unit :=
  fun w => (tt, with_sound (fun s => SoundSystem.mk (SoundSystem.currentSound s)
                                       (SoundSystem.soundStartTime s) false) w).

(** [sound.update()]; [millis()] is only called while a sound plays.  The
    comparison is between [unsigned long] values: the elapsed time wraps,
    and the [int] duration is converted to [unsigned long]. *)
Definition sound_update : M unit :=
  fun w =>
    let s := sound w in
    if SoundSystem.isPlaying s then
      (t <- millis ;;
       when (wrap_ulong (t - SoundSystem.soundStartTime s)
             >? wrap_ulong (snd (SoundSystem.currentSound s)))
         (ledcWriteTone 0 ;;
          fun w' => (tt, with_sound (fun s' => SoundSystem.mk (SoundSystem.currentSound s')
                                               (SoundSystem.soundStartTime s') false) w'))) w
    else (tt, w).

(* ===================================================================== *)
(** * Input system *)
(* ===================================================================== *)

(** [float length() const] and [Vec2 normalize() const] *)
Definition Vec2_length (v : Vec2) : float :=
  F32.sqrt (Vec2.x v * Vec2.x v + Vec2.y v * Vec2.y v)%f32.
Definition Vec2_normalize (v : Vec2) : Vec2 :=
  let len := Vec2_length v in
  if (len >? F32.of_Z 0)%f32 then Vec2.mk (Vec2.x v / len)%f32 (Vec2.y v / len)%f32
  else Vec2.mk (F32.of_Z 0) (F32.of_Z 0).

Definition TOUCH_THRESHOLD : Z := 10.

(** [input.update()], given what [display.getTouch(&tx, &ty)] reports this
    frame: [None] for no touch, [Some (x, y)] for a touch, of which the
    [uint16_t] variables [tx] and [ty] receive the low 16 bits. *)
Definition input_update (touch : option (Z * Z)) : M unit :=
  fun w =>
    let i := input w in
    let i' :=
      match touch with
      | Some (x, y) =>
          let tx := wrap_u16 x in
          let ty := wrap_u16 y in
          let touchPos := Vec2.mk (F32.of_Z tx) (F32.of_Z ty) in
          let joystickPos :=
            if tx <? SCREEN_WIDTH / 2 then
              let dx := F32.of_Z (tx - InputSystem.JOYSTICK_CENTER_X) in
              let dy := F32.of_Z (ty - InputSystem.JOYSTICK_CENTER_Y) in
              let dist := F32.sqrt (dx * dx + dy * dy)%f32 in
              if (dist >? F32.of_Z TOUCH_THRESHOLD)%f32 then
                let maxDist := F32.of_Z InputSystem.JOYSTICK_RADIUS in
                let dx' := if (dist >? maxDist)%f32 then ((dx / dist) * maxDist)%f32 else dx in
                let dy' := if (dist >? maxDist)%f32 then ((dy / dist) * maxDist)%f32 else dy in
                Vec2.mk (dx' / maxDist)%f32 (dy' / maxDist)%f32
              else Vec2.mk (F32.of_Z 0) (F32.of_Z 0)
            else InputSystem.joystickPos i in
          let firePressed :=
            if tx >? SCREEN_WIDTH / 2 then true else InputSystem.firePressed i in
          InputSystem.mk joystickPos firePressed touchPos true
      | None =>
          InputSystem.mk (Vec2.mk (F32.of_Z 0) (F32.of_Z 0)) false
                         (InputSystem.touchPos i) false
      end in
    (tt, with_input (fun _ => i') w).

(* ===================================================================== *)
(** * class Game *)
(* ===================================================================== *)

(** [void Entity::init(t, p, v, w, h, hp, col)]: the value the receiver
    holds afterwards; [lastAnimTime] is read from the clock. *)
Definition Entity_init (t : EntityType) (p v : Vec2) (w h : float) (hp : Z)
    (col : Color) : M Entity :=
  now <- millis ;;
  ret (mkEntity true t p v w h hp col 0 now).

Section GameCode.

(** [cos] and [sin] of libm, applied to a [float] angle, as [float]
    values.  Only particle velocities depend on them; the product with 2
    that follows is exact, so it makes no difference whether the library
    works in [float] or works in [double] and the result is narrowed when
    the [Vec2] is built. *)
Variable cos sin : float -> float.

(** every slot of one array: [for (i...) a[i].active = false;] *)
Definition deactivate_all (p : Pool) : M unit :=
  for_range 0 (capacity p) (fun i =>
    modify_slot p i (set_active false) ;; ret Continue).

(** [void init()] *)
Definition init : M unit :=
  modify_game (set_state TITLE) ;;
  modify_game (set_score 0) ;;
  modify_game (set_lives 3) ;;
  modify_game (set_wave 1) ;;
  modify_game (set_scrollY (F32.of_Z 0)) ;;
  modify_game (set_playerWeaponLevel 1) ;;
  modify_game (set_lastEnemySpawn 0) ;;
  modify_game (set_lastPlayerShot 0) ;;
  p <- Entity_init PLAYER
         (Vec2.mk (F32.of_Z (SCREEN_WIDTH / 2)) (F32.of_Z (SCREEN_HEIGHT - 60)))
         (Vec2.mk (F32.of_Z 0) (F32.of_Z 0))
         (F32.of_Z 24) (F32.of_Z 24) 100 TFT_CYAN ;;
  modify_game (set_player p) ;;
  deactivate_all Enemies ;;
  deactivate_all PlayerBullets ;;
  deactivate_all EnemyBullets ;;
  deactivate_all Powerups ;;
  deactivate_all Explosions ;;
  deactivate_all Particles.

(** [void startGame()] *)
Definition startGame : M unit :=
  init ;; modify_game (set_state PLAYING).

(** ** Entity spawning *)

(** [void spawnEnemy(EntityType type, Vec2 pos, Vec2 vel)] *)
Definition spawnEnemy (type : EntityType) (pos vel : Vec2) : M unit :=
  for_range 0 MAX_ENEMIES (fun i =>
    e <- read Enemies i ;;
    if negb (active e) then
      (let '(hp, col, wh) :=
         match type with
         | ENEMY_FAST => (5, TFT_YELLOW, F32.of_Z 16)
         | ENEMY_TANK => (30, TFT_PURPLE, F32.of_Z 28)
         | _ => (10, TFT_RED, F32.of_Z 20)
         end in
       n <- Entity_init type pos vel wh wh hp col ;;
       write Enemies i n) ;;
      ret Break
    else ret Continue).

(** [void spawnPlayerBullet(Vec2 pos, Vec2 vel)] *)
Definition spawnPlayerBullet (pos vel : Vec2) : M unit :=
  for_range 0 MAX_PLAYER_BULLETS (fun i =>
    e <- read PlayerBullets i ;;
    if negb (active e) then
      (n <- Entity_init BULLET_PLAYER pos vel (F32.of_Z 4) (F32.of_Z 8) 1 TFT_WHITE ;;
       write PlayerBullets i n) ;;
      ret Break
    else ret Continue).

(** [void spawnEnemyBullet(Vec2 pos, Vec2 vel)] *)
Definition spawnEnemyBullet (pos vel : Vec2) : M unit :=
  for_range 0 MAX_ENEMY_BULLETS (fun i =>
    e <- read EnemyBullets i ;;
    if negb (active e) then
      (n <- Entity_init BULLET_ENEMY pos vel (F32.of_Z 4) (F32.of_Z 8) 1 TFT_ORANGE ;;
       write EnemyBullets i n) ;;
      ret Break
    else ret Continue).

(** [void spawnParticle(Vec2 pos, Vec2 vel)] *)
Definition spawnParticle (pos vel : Vec2) : M unit :=
  for_range 0 MAX_PARTICLES (fun i =>
    e <- read Particles i ;;
    if negb (active e) then
      (n <- Entity_init PARTICLE pos vel (F32.of_Z 2) (F32.of_Z 2) 10 TFT_YELLOW ;;
       write Particles i n) ;;
      ret Break
    else ret Continue).

(** the velocity of the [j]-th particle of an explosion:
    [float angle = (j / 8.0) * 2 * PI; Vec2 vel(cos(angle) * 2, sin(angle) * 2);] *)
Definition particle_angle (j : nat) : float :=
  F64.to_float
    (F64.mul (F64.mul (F64.div (F64.of_Z (Z.of_nat j)) (F64.lit 80 10)) (F64.of_Z 2)) PI).
Definition particle_vel (j : nat) : Vec2 :=
  Vec2.mk (cos (particle_angle j) * F32.of_Z 2)%f32
          (sin (particle_angle j) * F32.of_Z 2)%f32.

(** [void spawnExplosion(Vec2 pos, float size)] *)
Definition spawnExplosion (pos : Vec2) (size : float) : M unit :=
  for_range 0 MAX_EXPLOSIONS (fun i =>
    e <- read Explosions i ;;
    if negb (active e) then
      (n <- Entity_init EXPLOSION pos (Vec2.mk (F32.of_Z 0) (F32.of_Z 0))
                        size size 6 TFT_ORANGE ;;
       write Explosions i n) ;;
      ret Break
    else ret Continue) ;;
  (* Spawn particles *)
  for_range 0 8 (fun j =>
    spawnParticle pos (particle_vel j) ;; ret Continue).

(** [void spawnPowerup(Vec2 pos, EntityType type)] *)
Definition spawnPowerup (pos : Vec2) (type : EntityType) : M unit :=
  for_range 0 MAX_POWERUPS (fun i =>
    e <- read Powerups i ;;
    if negb (active e) then
      (let col := if EntityType_eqb type POWERUP_WEAPON then TFT_GREEN else TFT_MAGENTA in
       n <- Entity_init type pos (Vec2.mk (F32.of_Z 0) (F32.of_Z 1))
                        (F32.of_Z 16) (F32.of_Z 16) 1 col ;;
       write Powerups i n) ;;
      ret Break
    else ret Continue).

(** ** Update functions *)

(** [void updatePlayer()] *)
Definition updatePlayer : M unit :=
  inp <- get_input ;;
  let movement := InputSystem.joystickPos inp in
  modify_game (fun g => set_player (set_vel (Vec2.scale movement (flit 50 10)) (player g)) g) ;;
  modify_game (fun g => set_player (set_pos (Vec2.add (pos (player g)) (vel (player g))) (player g)) g) ;;
  (* Clamp to screen *)
  modify_game (fun g =>
    let p := player g in
    set_player (set_pos (Vec2.mk
      (constrain (Vec2.x (pos p)) (width p / F32.of_Z 2)%f32
                 (F32.of_Z SCREEN_WIDTH - width p / F32.of_Z 2)%f32)
      (Vec2.y (pos p))) p) g) ;;
  modify_game (fun g =>
    let p := player g in
    set_player (set_pos (Vec2.mk
      (Vec2.x (pos p))
      (constrain (Vec2.y (pos p)) (height p / F32.of_Z 2)%f32
                 (F32.of_Z SCREEN_HEIGHT - height p / F32.of_Z 2 - F32.of_Z 20)%f32)) p) g) ;;
  (* Shooting *)
  if InputSystem.firePressed inp then
    now <- millis ;;
    g <- get_game ;;
    when (wrap_ulong (now - lastPlayerShot g) >? 150)
      (sound_play SoundSystem.SHOOT ;;
       g <- get_game ;;
       let ppos := pos (player g) in
       (if playerWeaponLevel g =? 1 then
          spawnPlayerBullet ppos (Vec2.mk (F32.of_Z 0) (F32.of_Z (-8)))
        else if playerWeaponLevel g =? 2 then
          spawnPlayerBullet (Vec2.add ppos (Vec2.mk (F32.of_Z (-8)) (F32.of_Z 0)))
                            (Vec2.mk (F32.of_Z 0) (F32.of_Z (-8))) ;;
          spawnPlayerBullet (Vec2.add ppos (Vec2.mk (F32.of_Z 8) (F32.of_Z 0)))
                            (Vec2.mk (F32.of_Z 0) (F32.of_Z (-8)))
        else
          spawnPlayerBullet ppos (Vec2.mk (F32.of_Z 0) (F32.of_Z (-8))) ;;
          spawnPlayerBullet (Vec2.add ppos (Vec2.mk (F32.of_Z (-8)) (F32.of_Z 0)))
                            (Vec2.mk (F32.of_Z (-1)) (F32.of_Z (-8))) ;;
          spawnPlayerBullet (Vec2.add ppos (Vec2.mk (F32.of_Z 8) (F32.of_Z 0)))
                            (Vec2.mk (F32.of_Z 1) (F32.of_Z (-8)))) ;;
       t <- millis ;;
       modify_game (set_lastPlayerShot t))
  else ret tt.

(** [void updateEnemies()] *)
Definition updateEnemies : M unit :=
  for_range 0 MAX_ENEMIES (fun i =>
    e <- read Enemies i ;;
    if negb (active e) then ret Continue
    else
      g <- get_game ;;
      let dir := Vec2_normalize (Vec2.sub (pos (player g)) (pos e)) in
      modify_slot Enemies i (fun e =>
        set_pos (Vec2.mk
          (F64.to_float
             (F64.add (F64.of_float (Vec2.x (pos e)))
                      (F64.mul (F64.of_float (Vec2.x dir * Vec2.y (vel e))%f32)
                               (F64.lit 15 10))))
          (Vec2.y (pos e))) e) ;;
      modify_slot Enemies i (fun e =>
        set_pos (Vec2.mk (Vec2.x (pos e)) (Vec2.y (pos e) + Vec2.y (vel e))%f32) e) ;;
      e <- read Enemies i ;;
      (* Remove if off screen *)
      if (Vec2.y (pos e) >? F32.of_Z (SCREEN_HEIGHT + 20))%f32 then
        modify_slot Enemies i deactivate ;; ret Continue
      else
        (* Enemy shooting *)
        r <- random 0 100 ;;
        when (r <? 2)
          (e <- read Enemies i ;;
           spawnEnemyBullet (pos e) (Vec2.mk (F32.of_Z 0) (F32.of_Z 3)) ;;
           sound_play SoundSystem.ENEMY_SHOOT) ;;
        ret Continue).

(** [void updateBullets()] *)
Definition updateBullets : M unit :=
  (* Player bullets *)
  for_range 0 MAX_PLAYER_BULLETS (fun i =>
    e <- read PlayerBullets i ;;
    if negb (active e) then ret Continue
    else
      modify_slot PlayerBullets i (fun e => set_pos (Vec2.add (pos e) (vel e)) e) ;;
      e <- read PlayerBullets i ;;
      when (Vec2.y (pos e) <? F32.of_Z (-10))%f32
        (modify_slot PlayerBullets i deactivate) ;;
      ret Continue) ;;
  (* Enemy bullets *)
  for_range 0 MAX_ENEMY_BULLETS (fun i =>
    e <- read EnemyBullets i ;;
    if negb (active e) then ret Continue
    else
      modify_slot EnemyBullets i (fun e => set_pos (Vec2.add (pos e) (vel e)) e) ;;
      e <- read EnemyBullets i ;;
      when (Vec2.y (pos e) >? F32.of_Z (SCREEN_HEIGHT + 10))%f32
        (modify_slot EnemyBullets i deactivate) ;;
      ret Continue).

(** [void updatePowerups()] *)
Definition updatePowerups : M unit :=
  for_range 0 MAX_POWERUPS (fun i =>
    e <- read Powerups i ;;
    if negb (active e) then ret Continue
    else
      modify_slot Powerups i (fun e => set_pos (Vec2.add (pos e) (vel e)) e) ;;
      e <- read Powerups i ;;
      when (Vec2.y (pos e) >? F32.of_Z (SCREEN_HEIGHT + 20))%f32
        (modify_slot Powerups i deactivate) ;;
      ret Continue).

(** [void updateExplosions()] *)
Definition updateExplosions : M unit :=
  for_range 0 MAX_EXPLOSIONS (fun i =>
    e <- read Explosions i ;;
    if negb (active e) then ret Continue
    else
      now <- millis ;;
      when (wrap_ulong (now - lastAnimTime e) >? 50)
        (modify_slot Explosions i (fun e => set_animFrame (wrap_int (animFrame e + 1)) e) ;;
         t <- millis ;;
         modify_slot Explosions i (set_lastAnimTime t) ;;
         e <- read Explosions i ;;
         when (animFrame e >=? health e)
           (modify_slot Explosions i deactivate)) ;;
      ret Continue).

(** [void updateParticles()] *)
Definition updateParticles : M unit :=
  for_range 0 MAX_PARTICLES (fun i =>
    e <- read Particles i ;;
    if negb (active e) then ret Continue
    else
      modify_slot Particles i (fun e => set_pos (Vec2.add (pos e) (vel e)) e) ;;
      modify_slot Particles i (fun e => set_health (wrap_int (health e - 1)) e) ;;
      e <- read Particles i ;;
      when (health e <=? 0) (modify_slot Particles i deactivate) ;;
      ret Continue).

(** ** Collisions *)

(** the [if (enemies[j].health <= 0)] block: enemy [j] is destroyed *)
Definition enemyDestroyed (j : nat) : M unit :=
  modify_game (fun g => set_score (wrap_int (score g + 100)) g) ;;
  e <- read Enemies j ;;
  spawnExplosion (pos e) (width e) ;;
  sound_play SoundSystem.EXPLOSION ;;
  (* Chance to drop powerup *)
  r <- random 0 100 ;;
  when (r <? 20)
    (k <- random 0 2 ;;
     let pType := if k =? 0 then POWERUP_WEAPON else POWERUP_HEALTH in
     e <- read Enemies j ;;
     spawnPowerup (pos e) pType) ;;
  modify_slot Enemies j deactivate.

(** the [if (... intersects ...)] block of the bullet-versus-enemy scan,
    for bullet [i] and enemy [j] *)
Definition bulletHitsEnemy (i j : nat) : M unit :=
  modify_slot PlayerBullets i deactivate ;;
  modify_slot Enemies j (fun e => set_health (wrap_int (health e - 10)) e) ;;
  e <- read Enemies j ;;
  if health e <=? 0 then enemyDestroyed j
  else sound_play SoundSystem.HIT.

(** the inner [for (int j = 0; j < MAX_ENEMIES; j++)] for bullet [i] *)
Definition bulletVsEnemies (i : nat) : M unit :=
  for_range 0 MAX_ENEMIES (fun j =>
    e <- read Enemies j ;;
    if negb (active e) then ret Continue
    else
      b <- read PlayerBullets i ;;
      if Rect.intersects (getRect b) (getRect e) then
        bulletHitsEnemy i j ;; ret Break
      else ret Continue).

(** Player bullets vs enemies *)
Definition collideBulletsEnemies : M unit :=
  for_range 0 MAX_PLAYER_BULLETS (fun i =>
    b <- read PlayerBullets i ;;
    if negb (active b) then ret Continue
    else bulletVsEnemies i ;; ret Continue).

(** Enemy bullets vs player *)
Definition collideEnemyBulletsPlayer : M unit :=
  for_range 0 MAX_ENEMY_BULLETS (fun i =>
    b <- read EnemyBullets i ;;
    if negb (active b) then ret Continue
    else
      g <- get_game ;;
      when (Rect.intersects (getRect b) (getRect (player g)))
        (modify_slot EnemyBullets i deactivate ;;
         modify_game (fun g => set_lives (wrap_int (lives g - 1)) g) ;;
         g <- get_game ;;
         spawnExplosion (pos (player g)) (width (player g)) ;;
         sound_play SoundSystem.HIT) ;;
      ret Continue).

(** Enemies vs player *)
Definition collideEnemiesPlayer : M unit :=
  for_range 0 MAX_ENEMIES (fun i =>
    e <- read Enemies i ;;
    if negb (active e) then ret Continue
    else
      g <- get_game ;;
      when (Rect.intersects (getRect e) (getRect (player g)))
        (modify_game (fun g => set_lives (wrap_int (lives g - 1)) g) ;;
         e <- read Enemies i ;;
         spawnExplosion (pos e) (width e) ;;
         g <- get_game ;;
         spawnExplosion (pos (player g)) (width (player g)) ;;
         sound_play SoundSystem.EXPLOSION ;;
         modify_slot Enemies i deactivate) ;;
      ret Continue).

(** Powerups vs player *)
Definition collidePowerupsPlayer : M unit :=
  for_range 0 MAX_POWERUPS (fun i =>
    p <- read Powerups i ;;
    if negb (active p) then ret Continue
    else
      g <- get_game ;;
      when (Rect.intersects (getRect p) (getRect (player g)))
        ((if EntityType_eqb (type p) POWERUP_WEAPON then
            modify_game (fun g =>
              set_playerWeaponLevel (min_int (wrap_int (playerWeaponLevel g + 1)) 3) g)
          else if EntityType_eqb (type p) POWERUP_HEALTH then
            modify_game (fun g => set_lives (min_int (wrap_int (lives g + 1)) 5) g)
          else ret tt) ;;
         sound_play SoundSystem.POWERUP ;;
         modify_slot Powerups i deactivate) ;;
      ret Continue).

(** [void checkCollisions()] *)
Definition checkCollisions : M unit :=
  collideBulletsEnemies ;;
  collideEnemyBulletsPlayer ;;
  collideEnemiesPlayer ;;
  collidePowerupsPlayer.

(** ** The per-frame update *)

(** the choice of the enemy kind from the draw [enemyType], with the
    downward speed that goes with it *)
Definition chooseEnemy (enemyType : Z) : EntityType * float :=
  if enemyType >? 70 then (ENEMY_FAST, flit 30 10)
  else if enemyType >? 90 then (ENEMY_TANK, flit 8 10)
  else (ENEMY_BASIC, flit 15 10).

(** the [// Spawn enemies] block of [update] *)
Definition spawnWave : M unit :=
  now <- millis ;;
  g <- get_game ;;
  when (wrap_ulong (now - lastEnemySpawn g) >? 2000)
    (enemyType <- random 0 100 ;;
     let '(type, speed) := chooseEnemy enemyType in
     x <- random 30 (SCREEN_WIDTH - 30) ;;
     spawnEnemy type (Vec2.mk (F32.of_Z x) (F32.of_Z (-20)))
                     (Vec2.mk (F32.of_Z 0) speed) ;;
     t <- millis ;;
     modify_game (set_lastEnemySpawn t)).

(** the part of [update] that runs in the PLAYING state *)
Definition updatePlaying : M unit :=
  (* Update scroll *)
  modify_game (fun g =>
    set_scrollY (F64.to_float (F64.add (F64.of_float (scrollY g)) (F64.lit 10 10))) g) ;;
  modify_game (fun g =>
    if (scrollY g >? F32.of_Z 32)%f32 then set_scrollY (F32.of_Z 0) g else g) ;;
  updatePlayer ;;
  spawnWave ;;
  updateEnemies ;;
  updateBullets ;;
  updatePowerups ;;
  updateExplosions ;;
  updateParticles ;;
  checkCollisions ;;
  (* Check game over *)
  modify_game (fun g => if lives g <=? 0 then set_state GAME_OVER g else g).

(** [void update()] *)
Definition update : M unit :=
  g <- get_game ;;
  inp <- get_input ;;
  match state g with
  | TITLE => when (InputSystem.isTouching inp) startGame
  | GAME_OVER => when (InputSystem.isTouching inp) startGame
  | PLAYING => updatePlaying
  end.

(** ** Arduino setup and loop *)

Definition FRAME_TIME : Z := 1000 / 30.

(** [void setup()]: the statements that touch the program's state *)
Definition setup : M unit :=
  sound_init ;; init.

(** [void loop()], given the touch panel's report for this call.  The
    rendering and the FPS print-out write to the display and the serial
    port only. *)
Definition loop (touch : option (Z * Z)) : M unit :=
  currentTime <- millis ;;
  fun w =>
    when (wrap_ulong (currentTime - lastFrame w) >=? FRAME_TIME)
      (input_update touch ;;
       update ;;
       sound_update ;;
       fun w' => (tt, with_lastFrame currentTime w')) w.

End GameCode.

(** The program's state when [setup] is entered: every global zero, over a
    given clock and a given random generator. *)
Definition Game0 : Game :=
  mkGame Entity0
         (replicate MAX_ENEMIES Entity0) (replicate MAX_PLAYER_BULLETS Entity0)
         (replicate MAX_ENEMY_BULLETS Entity0) (replicate MAX_POWERUPS Entity0)
         (replicate MAX_EXPLOSIONS Entity0) (replicate MAX_PARTICLES Entity0)
         0 0 0 fzero 0 0 0 TITLE.

Definition power_on (clock rng : nat -> Z) : World :=
  mkWorld Game0
          (InputSystem.mk (Vec2.mk fzero fzero) false (Vec2.mk fzero fzero) false)
          (SoundSystem.mk (0, 0) 0 false)
          0 0 clock 0%nat rng 0%nat.

(** The states the program can be in: after [setup], and after any number
    of calls of [loop], whatever the touch panel reports. *)
Inductive reachable (cos sin : float -> float) : World -> Prop :=
| reach_setup clock rng :
    reachable cos sin (exec setup (power_on clock rng))
| reach_loop w touch :
    reachable cos sin w ->
    reachable cos sin (exec (loop cos sin touch) w).

(* ===================================================================== *)
(** * Notions used in the statements *)
(* ===================================================================== *)

(** [rel R m]: the game before and after [m] are related by [R]. *)
Definition rel {A} (R : Game -> Game -> Prop) (m : M A) : Prop :=
  forall w, R (game w) (game (exec m w)).

(** [keeps proj]: the observation [proj] of the game is the same. *)
Definition keeps {A} (proj : Game -> A) : Game -> Game -> Prop :=
  fun g g' => proj g' = proj g.

(** An observation that does not see writes into the slots of pool [p],
    and one that does not see a field set through [set]. *)
Definition blind_to_pool {A} (proj : Game -> A) (p : Pool) : Prop :=
  forall g i e, proj (set_pool p (<[i := e]> (pool_of p g)) g) = proj g.
Definition blind_to {A X} (proj : Game -> A) (set : X -> Game -> Game) : Prop :=
  forall x g, proj (set x g) = proj g.

(** The index the spawners' scan stops at: the first inactive slot of
    pool [p] among the indices [from, from + n), if there is one. *)
Fixpoint first_inactive (p : Pool) (g : Game) (from n : nat) : option nat :=
  match n with
  | O => None
  | S n' => if active (slot p from g) then first_inactive p g (S from) n' else Some from
  end.
Definition free_slot (p : Pool) (g : Game) : option nat :=
  first_inactive p g 0 (capacity p).

(** Every slot of the array is in use. *)
Definition pool_full (p : Pool) (g : Game) : bool :=
  forallb (fun i => active (slot p i g)) (seq 0 (capacity p)).

(** The arrays have their declared sizes. *)
Definition well_sized (g : Game) : Prop :=
  forall p, length (pool_of p g) = capacity p.

(** The number of active entities in an array. *)
Fixpoint count_active (l : list Entity) : nat :=
  match l with
  | [] => 0
  | e :: l' => ((if active e then 1 else 0) + count_active l')%nat
  end.

(** The spec's reading of the box test for C4: intervals that overlap or
    merely touch. *)
Definition overlap_or_touch (lo1 hi1 lo2 hi2 : float) : Prop :=
  SFleb lo1 hi2 = true /\ SFleb lo2 hi1 = true.

(** What a successful spawn does to the game: entity [e] is stored in the
    first inactive slot of pool [p]. *)
Definition place (p : Pool) (e : Entity) (g : Game) : Game :=
  match free_slot p g with
  | Some k => set_pool p (<[k := e]> (pool_of p g)) g
  | None => g
  end.

(** the particle loop of [spawnExplosion] *)
Definition burst (cos sin : float -> float) (ps : Vec2) : M unit :=
  for_range 0 8 (fun j => spawnParticle ps (particle_vel cos sin j) ;; ret Continue).

(** the clock value the next [millis()] returns *)
Definition now (w : World) : Z := wrap_ulong (millis_src w (millis_calls w)).

(** ** Concrete states and runs *)

(** [cos] and [sin] at the eight angles [particle_angle 0 .. 7], to the
    nearest [float]; the program passes no other argument. *)
Definition libm_table : list (float * (float * float)) :=
  [ (S754_zero false,
      (S754_finite false 8388608 (-23), S754_zero false));
    (S754_finite false 13176795 (-24),
      (S754_finite false 11863283 (-24), S754_finite false 11863283 (-24)));
    (S754_finite false 13176795 (-23),
      (S754_finite true 12303662 (-48), S754_finite false 8388608 (-23)));
    (S754_finite false 9882596 (-22),
      (S754_finite true 11863283 (-24), S754_finite false 11863283 (-24)));
    (S754_finite false 13176795 (-22),
      (S754_finite true 8388608 (-23), S754_finite true 12303662 (-47)));
    (S754_finite false 16470993 (-22),
      (S754_finite true 11863284 (-24), S754_finite true 11863282 (-24)));
    (S754_finite false 9882596 (-21),
      (S754_finite false 13426222 (-50), S754_finite true 8388608 (-23)));
    (S754_finite false 11529695 (-21),
      (S754_finite false 11863281 (-24), S754_finite true 11863285 (-24))) ].
Definition libm_lookup (x : float) : float * float :=
  match find (fun r => F32.eqb (fst r) x) libm_table with
  | Some r => snd r
  | None => (fzero, fzero)
  end.
Definition libm_cos (x : float) : float := fst (libm_lookup x).
Definition libm_sin (x : float) : float := snd (libm_lookup x).

(** an entity in use, and a game all of whose arrays are in use *)
Definition busy : Entity := set_active true Entity0.
Definition crowded_game : Game :=
  mkGame Entity0
         (replicate MAX_ENEMIES busy) (replicate MAX_PLAYER_BULLETS busy)
         (replicate MAX_ENEMY_BULLETS busy) (replicate MAX_POWERUPS busy)
         (replicate MAX_EXPLOSIONS busy) (replicate MAX_PARTICLES busy)
         0 3 1 fzero 0 0 1 PLAYING.
Definition steady_clock (n : nat) : Z := 3000 + 40 * Z.of_nat n.
Definition world_of (g : Game) (rng : nat -> Z) : World :=
  with_game (fun _ => g) (power_on steady_clock rng).
Definition crowded_world : World := world_of crowded_game (fun _ => 50).
(** explosions all in use, every other array empty *)
Definition explosions_full_world : World :=
  world_of (set_pool Explosions (replicate MAX_EXPLOSIONS busy) Game0) (fun _ => 50).

(** several spawns into the same pool, one after the other *)
Definition place_all (p : Pool) (es : list Entity) (g : Game) : Game :=
  fold_left (fun g e => place p e g) es g.

(** what a spawner stores: an active entity of the given kind, position
    and velocity *)
Definition fresh (t : EntityType) (ps v : Vec2) (e : Entity) : Prop :=
  active e = true /\ type e = t /\ pos e = ps /\ vel e = v.

(** a lost game with every array still in use, and a finger on the panel *)
Definition game_over_world : World :=
  with_input (fun i => InputSystem.mk (InputSystem.joystickPos i) (InputSystem.firePressed i)
                         (Vec2.mk (F32.of_Z 70) (F32.of_Z 250)) true)
    (world_of (set_state GAME_OVER
                 (set_playerWeaponLevel 3 (set_score 4200 (set_lives (-2) crowded_game))))
              (fun _ => 50)).

(** How collision resolution moves the lives counter: down by at most [n]
    (in one step each, while the counter cannot wrap), or up towards 5. *)
Definition drops (n : Z) : Game -> Game -> Prop :=
  fun g g' =>
    INT_MIN + n <= lives g <= INT_MAX -> lives g - n <= lives g' <= lives g.
Definition gains : Game -> Game -> Prop :=
  fun g g' => INT_MIN <= lives g <= 5 -> lives g <= lives g' <= 5.

(** The bounds the lives counter does obey. *)
Definition lives_ok (g : Game) : Prop :=
  lives g <= 5 /\ -59 <= lives g /\ (state g = PLAYING -> 1 <= lives g).

(** A run in which the first enemy is a fast one, spawned straight above
    the player, that fires on each of its first four frames; the player
    never moves.  The generator's outputs, in the order they are drawn:
    the enemy kind (71), its column (30 + 210), four shots, then nothing
    of note. *)
Definition duel_rng (n : nat) : Z :=
  match n with
  | 0%nat => 71
  | 1%nat => 210
  | 2%nat | 3%nat | 4%nat | 5%nat => 0
  | _ => 50
  end.
(** the state after the touch that starts the game and [n] more frames *)
Definition duel (n : nat) : World :=
  Nat.iter n (exec (loop libm_cos libm_sin None))
    (exec (loop libm_cos libm_sin (Some (70, 250)))
       (exec setup (power_on steady_clock duel_rng))).
(** The hunt: the game is started by a touch on the fire side, and the
    finger then holds the joystick up for [n] frames (the fire flag stays
    set while the panel is touched).  The generator always gives 210: a
    basic enemy arrives at x = 240, straight above the ship, no enemy
    ever shoots, and every destroyed enemy drops a weapon powerup. *)
Definition hunt (n : nat) : World :=
  Nat.iter n (exec (loop libm_cos libm_sin (Some (70, 190))))
    (exec (loop libm_cos libm_sin (Some (400, 250)))
       (exec setup (power_on steady_clock (fun _ => 210)))).
(** the number of active entities in each of the six arrays, in the
    order of [all_pools] *)
Definition census (w : World) : list nat :=
  map (fun p => count_active (pool_of p (game w))) all_pools.

(** What [updateBullets] does to one slot of [playerBullets]: an active
    bullet moves by its velocity and is deactivated if it is then above
    the line y = -10. *)
Definition fly (b : Entity) : Entity := set_pos (Vec2.add (pos b) (vel b)) b.
Definition tick_player_bullet (b : Entity) : Entity :=
  if active b then
    if (Vec2.y (pos (fly b)) <? F32.of_Z (-10))%f32 then deactivate (fly b) else fly b
  else b.

(** the position of bullet [b] after [k] moves *)
Definition flight (b : Entity) (k : nat) : Vec2 :=
  Nat.iter k (fun p => Vec2.add p (vel b)) (pos b).

(** a player bullet at height 5 climbing 8 per frame, in slot 0 of an
    otherwise empty game *)
Definition climbing_bullet : Entity :=
  mkEntity true BULLET_PLAYER (Vec2.mk (F32.of_Z 240) (F32.of_Z 5))
           (Vec2.mk (F32.of_Z 0) (F32.of_Z (-8))) (F32.of_Z 4) (F32.of_Z 8) 1 TFT_WHITE 0 0.
Definition bullet_world : World :=
  world_of (set_state PLAYING
              (set_pool PlayerBullets (<[0%nat := climbing_bullet]> (playerBullets Game0)) Game0))
           (fun _ => 50).

(** Player bullet [i] meets enemy [j]: the enemy is active and the two
    boxes intersect, as the inner loop of the collision scan tests it. *)
Definition hits (i j : nat) (g : Game) : bool :=
  active (slot Enemies j g) &&
  Rect.intersects (getRect (slot PlayerBullets i g)) (getRect (slot Enemies j g)).

(** a player bullet inside two enemies at once: a basic enemy with 10 hit
    points in slot 2 and a tank with 30 in slot 5, all three at (100, 100) *)
Definition at_100 : Vec2 := Vec2.mk (F32.of_Z 100) (F32.of_Z 100).
Definition crossfire_game : Game :=
  set_state PLAYING
    (set_lives 3
      (set_pool Enemies
         (<[2%nat := mkEntity true ENEMY_BASIC at_100 (Vec2.mk (F32.of_Z 0) (flit 15 10))
                       (F32.of_Z 20) (F32.of_Z 20) 10 TFT_RED 0 0]>
          (<[5%nat := mkEntity true ENEMY_TANK at_100 (Vec2.mk (F32.of_Z 0) (flit 8 10))
                       (F32.of_Z 28) (F32.of_Z 28) 30 TFT_PURPLE 0 0]> (enemies Game0)))
         (set_pool PlayerBullets
            (<[0%nat := mkEntity true BULLET_PLAYER at_100 (Vec2.mk (F32.of_Z 0) (F32.of_Z (-8)))
                          (F32.of_Z 4) (F32.of_Z 8) 1 TFT_WHITE 0 0]> (playerBullets Game0))
            Game0))).
Definition crossfire_world : World := world_of crossfire_game (fun _ => 50).



(** [carries I]: if the game satisfies [I] before, it does after. *)
Definition carries (I : Game -> Prop) : Game -> Game -> Prop :=
  fun g g' => I g -> I g'.

(** The weapon level is 1, 2 or 3. *)
Definition weapon_ok (g : Game) : Prop := 1 <= playerWeaponLevel g <= 3.


(** The kinds of entity each array is meant for; the enemy array never
    receives a tank, since [chooseEnemy] never selects one. *)
Definition kind_ok (p : Pool) (t : EntityType) : bool :=
  match p, t with
  | Enemies, (ENEMY_BASIC | ENEMY_FAST)
  | PlayerBullets, BULLET_PLAYER
  | EnemyBullets, BULLET_ENEMY
  | Powerups, (POWERUP_WEAPON | POWERUP_HEALTH)
  | Explosions, EXPLOSION
  | Particles, PARTICLE => true
  | _, _ => false
  end.
Definition kinds_ok (g : Game) : Prop :=
  forall p i, (i < capacity p)%nat -> active (slot p i g) = true ->
    kind_ok p (type (slot p i g)) = true.

(** the run that starts the game and then holds the joystick hard left
    for [n] frames *)
Definition drift (n : nat) : World :=
  Nat.iter n (exec (loop libm_cos libm_sin (Some (10, 250))))
    (exec setup (power_on steady_clock (fun _ => 50))).

(** The bullets one shot consists of, as (position, velocity) pairs in
    the order [updatePlayer] spawns them, for a weapon level and the
    player's position. *)
Definition shots (level : Z) (p : Vec2) : list (Vec2 * Vec2) :=
  let up := Vec2.mk (F32.of_Z 0) (F32.of_Z (-8)) in
  let left := Vec2.add p (Vec2.mk (F32.of_Z (-8)) (F32.of_Z 0)) in
  let right := Vec2.add p (Vec2.mk (F32.of_Z 8) (F32.of_Z 0)) in
  if level =? 1 then [(p, up)]
  else if level =? 2 then [(left, up); (right, up)]
  else [(p, up);
        (left, Vec2.mk (F32.of_Z (-1)) (F32.of_Z (-8)));
        (right, Vec2.mk (F32.of_Z 1) (F32.of_Z (-8)))].

(** [updatePlayer] fires: the button is down and more than 150 ms have
    passed on the clock since the last shot. *)
Definition fire_due (w : World) : bool :=
  InputSystem.firePressed (input w) &&
  (wrap_ulong (now w - lastPlayerShot (game w)) >? 150).

(** a game in play with the fire button held, at weapon level 3 *)
Definition firing_world : World :=
  with_input (fun i => InputSystem.mk (InputSystem.joystickPos i) true
                         (InputSystem.touchPos i) true)
    (with_game (set_playerWeaponLevel 3)
       (exec startGame (world_of Game0 (fun _ => 50)))).

(** ** Loops that visit every slot of one array *)

(** What [updateBullets], [updatePowerups] and [updateParticles] do to
    the entity of one slot: an active entity is changed by [f] and then
    deactivated if [c] holds of the result; an inactive one is skipped. *)
Definition tick (f : Entity -> Entity) (c : Entity -> bool) (e : Entity) : Entity :=
  if active e then (if c (f e) then deactivate (f e) else f e) else e.

(** the body these loops share: skip an inactive slot, else write, test
    and perhaps deactivate *)
Definition sweep_body (p : Pool) (f : Entity -> Entity) (c : Entity -> bool)
    (i : nat) : M Flow :=
  e <- read p i ;;
  if negb (active e) then ret Continue
  else
    modify_slot p i f ;;
    e <- read p i ;;
    when (c e) (modify_slot p i deactivate) ;;
    ret Continue.

(** a particle moves and loses one point of health *)
Definition age (e : Entity) : Entity := set_health (wrap_int (health (fly e) - 1)) (fly e).

(** a particle of health 3 drifting right, in slot 0 of an otherwise
    empty game *)
Definition spark : Entity :=
  mkEntity true PARTICLE (Vec2.mk (F32.of_Z 100) (F32.of_Z 100))
           (Vec2.mk (F32.of_Z 2) (F32.of_Z 0)) (F32.of_Z 2) (F32.of_Z 2) 3 TFT_YELLOW 0 0.
Definition spark_world : World :=
  world_of (set_pool Particles (<[0%nat := spark]> (pool_of Particles Game0)) Game0)
           (fun _ => 50).

(** an enemy bullet at height 328 falling 3 per frame and a powerup at
    height 339 falling 1 per frame, each in slot 0 *)
Definition falling_world : World :=
  world_of
    (set_pool Powerups
       (<[0%nat := mkEntity true POWERUP_HEALTH (Vec2.mk (F32.of_Z 100) (F32.of_Z 339))
                     (Vec2.mk (F32.of_Z 0) (F32.of_Z 1)) (F32.of_Z 16) (F32.of_Z 16)
                     1 TFT_MAGENTA 0 0]> (pool_of Powerups Game0))
       (set_pool EnemyBullets
          (<[0%nat := mkEntity true BULLET_ENEMY (Vec2.mk (F32.of_Z 100) (F32.of_Z 328))
                        (Vec2.mk (F32.of_Z 0) (F32.of_Z 3)) (F32.of_Z 4) (F32.of_Z 8)
                        1 TFT_ORANGE 0 0]> (pool_of EnemyBullets Game0))
          Game0))
    (fun _ => 50).

(** ** The shape of the entities in play *)

(** What an entity of each array looks like while it is active: the
    values its spawner gave it, as far as no later write changes them. *)
Definition shape_ok (p : Pool) (e : Entity) : Prop :=
  match p with
  | Enemies =>
      (type e = ENEMY_BASIC /\ health e = 10 /\
       width e = F32.of_Z 20 /\ height e = F32.of_Z 20 /\
       vel e = Vec2.mk (F32.of_Z 0) (flit 15 10)) \/
      (type e = ENEMY_FAST /\ health e = 5 /\
       width e = F32.of_Z 16 /\ height e = F32.of_Z 16 /\
       vel e = Vec2.mk (F32.of_Z 0) (flit 30 10))
  | PlayerBullets =>
      width e = F32.of_Z 4 /\ height e = F32.of_Z 8 /\
      Vec2.y (vel e) = F32.of_Z (-8) /\
      (Vec2.x (vel e) = F32.of_Z (-1) \/ Vec2.x (vel e) = F32.of_Z 0 \/
       Vec2.x (vel e) = F32.of_Z 1)
  | EnemyBullets =>
      width e = F32.of_Z 4 /\ height e = F32.of_Z 8 /\
      vel e = Vec2.mk (F32.of_Z 0) (F32.of_Z 3)
  | Powerups =>
      width e = F32.of_Z 16 /\ height e = F32.of_Z 16 /\
      vel e = Vec2.mk (F32.of_Z 0) (F32.of_Z 1)
  | Explosions =>
      health e = 6 /\ 0 <= animFrame e < 6 /\ width e = height e /\
      vel e = Vec2.mk (F32.of_Z 0) (F32.of_Z 0)
  | Particles =>
      1 <= health e <= 10 /\ width e = F32.of_Z 2 /\ height e = F32.of_Z 2
  end.

(** every active entity in a slot that [S] selects has its shape *)
Definition shapes_on (S : Pool -> nat -> Prop) (g : Game) : Prop :=
  forall p i, S p i -> active (slot p i g) = true -> shape_ok p (slot p i g).
Definition in_array (p : Pool) (i : nat) : Prop := (i < capacity p)%nat.
Definition shapes_ok : Game -> Prop := shapes_on in_array.
(** every slot of the arrays but slot [j] of [q] *)
Definition all_but (q : Pool) (j : nat) (p : Pool) (i : nat) : Prop :=
  in_array p i /\ ~ (p = q /\ i = j).

(** The background offset is a whole number of pixels from 0 to 32. *)
Definition scroll_ok (g : Game) : Prop :=
  exists k, 0 <= k <= 32 /\ scrollY g = F32.of_Z k.
(** the whole number a finite [float] without fractional part stands for *)
Definition whole (f : float) : Z :=
  match f with
  | S754_finite s m e =>
      (if s then -1 else 1)
      * (if 0 <=? e then Z.pos m * 2 ^ e else Z.pos m / 2 ^ (- e))
  | _ => 0
  end.

(** ** Contact with the player *)

(** The entity in slot [i] of array [p] is active and its box meets the
    player's. *)
Definition struck (p : Pool) (g : Game) (i : nat) : bool :=
  active (slot p i g) &&
  Rect.intersects (getRect (slot p i g)) (getRect (player g)).
(** how many of the first [n] slots are struck *)
Fixpoint count_struck (p : Pool) (g : Game) (n : nat) : nat :=
  match n with
  | O => 0
  | S n' => (count_struck p g n' + (if struck p g n' then 1 else 0))%nat
  end.

(** the body the two loops against the player share; [act i] is what
    happens on contact *)
Definition contact_body (p : Pool) (act : nat -> M unit) (i : nat) : M Flow :=
  e <- read p i ;;
  if negb (active e) then ret Continue
  else
    g <- get_game ;;
    when (Rect.intersects (getRect e) (getRect (player g))) (act i) ;;
    ret Continue.

(** a game in play: two enemy bullets on the player (slots 0 and 3) and
    one far away (slot 7); one enemy on the player (slot 1) and one far
    away (slot 2) *)
Definition ambush_world : World :=
  let w := with_game (set_score 700) (exec startGame (world_of Game0 (fun _ => 50))) in
  let on_player := pos (player (game w)) in
  let bullet ps := mkEntity true BULLET_ENEMY ps (Vec2.mk (F32.of_Z 0) (F32.of_Z 3))
                     (F32.of_Z 4) (F32.of_Z 8) 1 TFT_ORANGE 0 0 in
  let enemy ps := mkEntity true ENEMY_BASIC ps (Vec2.mk (F32.of_Z 0) (flit 15 10))
                    (F32.of_Z 20) (F32.of_Z 20) 10 TFT_RED 0 0 in
  with_game (fun g =>
    set_pool Enemies
      (<[1%nat := enemy on_player]> (<[2%nat := enemy at_100]> (pool_of Enemies g)))
      (set_pool EnemyBullets
         (<[0%nat := bullet on_player]>
            (<[3%nat := bullet on_player]>
               (<[7%nat := bullet at_100]> (pool_of EnemyBullets g)))) g)) w.

(** ** Points for destroyed enemies *)

(** the number of positions at which the first list has an active
    entity and the second an inactive one *)
Fixpoint count_gone (l l' : list Entity) : nat :=
  match l, l' with
  | e :: t, e' :: t' =>
      ((if active e && negb (active e') then 1 else 0) + count_gone t t')%nat
  | _, _ => 0%nat
  end.

(** Between [g] and [g'] no slot of [enemies] has become active, and the
    score has gone up by 100 for every enemy that has gone (in [int]
    arithmetic). *)
Definition paid (g g' : Game) : Prop :=
  length (enemies g') = length (enemies g) /\
  (forall j, active (slot Enemies j g') = true -> active (slot Enemies j g) = true) /\
  (INT_MIN <= score g <= INT_MAX ->
   INT_MIN <= score g' <= INT_MAX /\
   (count_active (enemies g') <= count_active (enemies g))%nat /\
   score g' = wrap_int (score g + 100 * (Z.of_nat (count_active (enemies g))
                                         - Z.of_nat (count_active (enemies g'))))).

(** ** The buzzer *)

(** the five tones of [SoundSystem::play]: frequency and duration *)
Definition tones : list (Z * Z) :=
  [(1500, 50); (300, 200); (200, 100); (2000, 150); (800, 40)].

(** The tone channel agrees with the sound system: silent when nothing
    is marked as playing, else at the frequency of the current sound,
    which is one of the five. *)
Definition buzzer_ok (w : World) : Prop :=
  if SoundSystem.isPlaying (sound w)
  then In (SoundSystem.currentSound (sound w)) tones /\
       ledc_tone w = fst (SoundSystem.currentSound (sound w))
  else ledc_tone w = 0.

(** [wrel R m]: running [m] takes every world to one that [R] relates
    to it. *)
Definition wrel {A} (R : World -> World -> Prop) (m : M A) : Prop :=
  forall w, R w (exec m w).
Definition sounding (w w' : World) : Prop := buzzer_ok w -> buzzer_ok w'.

(** the time since the current sound started, as the [k]-th coming call
    of [millis()] will show it *)
Definition sound_elapsed (w : World) (k : nat) : Z :=
  wrap_ulong (wrap_ulong (millis_src w (millis_calls w + k)%nat)
              - SoundSystem.soundStartTime (sound w)).
(** the duration of the current sound as [sound.update()] compares it:
    the [int] converted to [unsigned long] *)
Definition sound_length (w : World) : Z :=
  wrap_ulong (snd (SoundSystem.currentSound (sound w))).
(** the hit sound (100 ms), started at power-on on the steady clock: it
    starts at 3000, and the updates that follow read 3040, 3080, 3120 *)
Definition beep_world : World :=
  exec (sound_play SoundSystem.HIT) (power_on steady_clock (fun _ => 50)).
(** a tone of 440 Hz with the duration -1, started the same way *)
Definition drone_world : World :=
  exec (playTone 440 (-1)) (power_on steady_clock (fun _ => 50)).

(** ** The march of the enemies *)

(** One step of an enemy towards [target]: sideways by the x component
    of the unit vector to the target times its falling speed times 1.5
    (computed in [double]), then down by its falling speed. *)
Definition steer (target : Vec2) (e : Entity) : Entity :=
  let dir := Vec2_normalize (Vec2.sub target (pos e)) in
  let e1 :=
    set_pos (Vec2.mk
      (F64.to_float
         (F64.add (F64.of_float (Vec2.x (pos e)))
                  (F64.mul (F64.of_float (Vec2.x dir * Vec2.y (vel e))%f32)
                           (F64.lit 15 10))))
      (Vec2.y (pos e))) e in
  set_pos (Vec2.mk (Vec2.x (pos e1)) (Vec2.y (pos e1) + Vec2.y (vel e1))%f32) e1.

(** ** The virtual joystick *)



(** ** Powerups *)

(** what the loops against the player do to an observation [obs] of the
    game, slot by slot: [upd] for every entity struck among the first
    [n] *)
Fixpoint contact_fold {X : Type} (p : Pool) (obs : Game -> X)
    (upd : Entity -> X -> X) (g : Game) (n : nat) : X :=
  match n with
  | O => obs g
  | S n' =>
      if struck p g n' then upd (slot p n' g) (contact_fold p obs upd g n')
      else contact_fold p obs upd g n'
  end.

(** the weapon level and the lives, and what collecting powerup [e] does
    to them *)
Definition armament (g : Game) : Z * Z := (playerWeaponLevel g, lives g).
Definition collect (e : Entity) (s : Z * Z) : Z * Z :=
  if EntityType_eqb (type e) POWERUP_WEAPON then
    (min_int (wrap_int (fst s + 1)) 3, snd s)
  else if EntityType_eqb (type e) POWERUP_HEALTH then
    (fst s, min_int (wrap_int (snd s + 1)) 5)
  else s.
(** how many of the first [n] powerups are struck and of type [t] *)
Fixpoint count_taken (t : EntityType) (g : Game) (n : nat) : nat :=
  match n with
  | O => 0
  | S n' =>
      (count_taken t g n'
       + (if struck Powerups g n' && EntityType_eqb (type (slot Powerups n' g)) t
          then 1 else 0))%nat
  end.

(** what happens on contact with powerup [i] *)
Definition takePowerup (i : nat) : M unit :=
  p <- read Powerups i ;;
  (if EntityType_eqb (type p) POWERUP_WEAPON then
     modify_game (fun g =>
       set_playerWeaponLevel (min_int (wrap_int (playerWeaponLevel g + 1)) 3) g)
   else if EntityType_eqb (type p) POWERUP_HEALTH then
     modify_game (fun g => set_lives (min_int (wrap_int (lives g + 1)) 5) g)
   else ret tt) ;;
  sound_play SoundSystem.POWERUP ;;
  modify_slot Powerups i deactivate.

(** a game in play with two lives and weapon level 2; on the player lie
    two weapon powerups (slots 0 and 2) and one health powerup (slot 4),
    and one more health powerup lies far away (slot 1) *)
Definition bounty_world : World :=
  let w := with_game (fun g => set_lives 2 (set_playerWeaponLevel 2 g))
             (exec startGame (world_of Game0 (fun _ => 50))) in
  let on_player := pos (player (game w)) in
  let powerup t ps := mkEntity true t ps (Vec2.mk (F32.of_Z 0) (F32.of_Z 1))
                        (F32.of_Z 16) (F32.of_Z 16) 1 TFT_GREEN 0 0 in
  with_game (fun g =>
    set_pool Powerups
      (<[0%nat := powerup POWERUP_WEAPON on_player]>
         (<[1%nat := powerup POWERUP_HEALTH at_100]>
            (<[2%nat := powerup POWERUP_WEAPON on_player]>
               (<[4%nat := powerup POWERUP_HEALTH on_player]> (pool_of Powerups g)))))
      g) w.

(** ** The animation of the explosions *)

(** the [k]-th reading of the clock *)
Definition reading (w : World) (k : nat) : Z := wrap_ulong (millis_src w k).
(** one step of the animation, stamped [t]: the frame counter goes up,
    and the explosion is over when the counter has reached its health *)
Definition animate (t : Z) (e : Entity) : Entity :=
  let e2 := set_lastAnimTime t (set_animFrame (wrap_int (animFrame e + 1)) e) in
  if animFrame e2 >=? health e2 then deactivate e2 else e2.
(** what [updateExplosions] does to an explosion when the clock stands at
    reading [c] as its turn comes *)
Definition animated (w : World) (c : nat) (e : Entity) : Entity :=
  if active e then
    if wrap_ulong (reading w c - lastAnimTime e) >? 50
    then animate (reading w (S c)) e else e
  else e.

(** an explosion at frame 4 of 6, last advanced at 2900, in slot 0 *)
Definition blast_world : World :=
  world_of
    (set_pool Explosions
       (<[0%nat := mkEntity true EXPLOSION at_100 (Vec2.mk (F32.of_Z 0) (F32.of_Z 0))
                     (F32.of_Z 20) (F32.of_Z 20) 6 TFT_ORANGE 4 2900]>
          (pool_of Explosions Game0)) Game0)
    (fun _ => 50).

(** ** The turn of one bullet *)

(** The body of the outer [for (int i = 0; i < MAX_PLAYER_BULLETS; i++)]
    of the bullet-versus-enemy phase: the turn of bullet [i]. *)
Definition bulletTurn (cos sin : float -> float) (i : nat) : M Flow :=
  (b <- read PlayerBullets i ;;
   if negb (active b) then ret Continue
   else bulletVsEnemies cos sin i ;; ret Continue)%prog.

(* ===================================================================== *)
(** * Facts about float comparison *)
(* ===================================================================== *)

Lemma SFcompare_antisym (a b : float) :
  SFcompare a b = option_map CompOpp (SFcompare b a).
Proof.
  destruct a as [sa|sa| |sa ma ea], b as [sb|sb| |sb mb eb]; simpl;
    try reflexivity;
    try (destruct sa; reflexivity); try (destruct sb; reflexivity);
    try (destruct sa, sb; reflexivity).
  destruct sa, sb; simpl; try reflexivity;
    rewrite (Z.compare_antisym ea eb);
    destruct (ea ?= eb) eqn:E; simpl; try reflexivity;
    rewrite (Pos.compare_cont_antisym mb ma Eq); simpl;
    try reflexivity; rewrite CompOpp_involutive; reflexivity.
Qed.

Lemma gtb_ltb (a b : float) : (a >? b)%f32 = (b <? a)%f32.
Proof.
  unfold F32.gtb, F32.ltb, SFltb. rewrite (SFcompare_antisym a b).
  destruct (SFcompare b a) as [[]|]; reflexivity.
Qed.

(** Equal floats are not ordered, in either direction. *)
Lemma eqb_not_ltb (a b : float) :
  (a =? b)%f32 = true -> (a <? b)%f32 = false /\ (b <? a)%f32 = false.
Proof.
  unfold F32.eqb, F32.ltb, SFeqb, SFltb. rewrite (SFcompare_antisym b a).
  destruct (SFcompare a b) as [[]|]; simpl; intros H;
    try discriminate H; split; reflexivity.
Qed.


(* ===================================================================== *)
(** * Reasoning about statements *)
(* ===================================================================== *)

Lemma exec_bind {A B} (m : M A) (k : A -> M B) w :
  exec (bind m k) w = exec (k (fst (m w))) (exec m w).
Proof. reflexivity. Qed.

Lemma exec_ret {A} (a : A) w : exec (ret a) w = w.
Proof. reflexivity. Qed.

Lemma unit_result (r : unit * World) : r = (tt, snd r).
Proof. destruct r as [[] ?]; reflexivity. Qed.

Section Loops.
Variable body : nat -> M Flow.

(** A loop whose iterations all pass without effect has no effect. *)
Lemma for_range_idle n : forall from w,
  (forall k, (from <= k < from + n)%nat -> body k w = (Continue, w)) ->
  for_range from n body w = (tt, w).
Proof.
  induction n as [|n IH]; intros from w H; simpl; [reflexivity|].
  rewrite (H from) by lia. simpl. apply IH. intros k Hk. apply H. lia.
Qed.

(** A loop that idles up to iteration [k0] and leaves through [break]
    there does what iteration [k0] does. *)
Lemma for_range_first n : forall from k0 w,
  (from <= k0 < from + n)%nat ->
  (forall k, (from <= k < k0)%nat -> body k w = (Continue, w)) ->
  fst (body k0 w) = Break ->
  for_range from n body w = (tt, snd (body k0 w)).
Proof.
  induction n as [|n IH]; intros from k0 w Hk Hidle Hbrk; [lia|].
  simpl. destruct (decide (from = k0)) as [->|Hne].
  - rewrite Hbrk. reflexivity.
  - rewrite (Hidle from) by lia. simpl. apply IH; [lia| |assumption].
    intros k Hk'. apply Hidle. lia.
Qed.

(** Loop invariant [P], indexed by the next iteration, with the
    condition [Q] established on leaving. *)
Lemma for_range_ind (P : nat -> World -> Prop) (Q : World -> Prop) n :
  forall from,
  (forall i w, (from <= i < from + n)%nat -> P i w ->
     match fst (body i w) with
     | Continue => P (S i) (snd (body i w))
     | Break => Q (snd (body i w))
     end) ->
  (forall w, P (from + n)%nat w -> Q w) ->
  forall w, P from w -> Q (exec (for_range from n body) w).
Proof.
  induction n as [|n IH]; intros from Hstep Hend w HP.
  - apply Hend. rewrite Nat.add_0_r. exact HP.
  - unfold exec. simpl. specialize (Hstep from w ltac:(lia) HP) as Hs.
    destruct (fst (body from w)); [|exact Hs].
    apply (IH (S from)); [| |exact Hs].
    + intros i w' Hi. apply Hstep. lia.
    + intros w' HP'. apply Hend. replace (from + S n)%nat with (S from + n)%nat by lia.
      exact HP'.
Qed.

(** A loop that is never left through [break] can be cut in two. *)
Lemma for_range_split a :
  (forall k w, fst (body k w) = Continue) ->
  forall b from w,
  exec (for_range from (a + b) body) w
  = exec (for_range (from + a) b body) (exec (for_range from a body) w).
Proof.
  intros Hc.
  assert (Hcons : forall n from w,
            exec (for_range from (S n) body) w
            = exec (for_range (S from) n body) (exec (body from) w)).
  { intros n from w. unfold exec. cbn [for_range]. rewrite Hc. reflexivity. }
  induction a as [|a IH]; intros b from w.
  - rewrite Nat.add_0_r. reflexivity.
  - replace (from + S a)%nat with (S from + a)%nat by lia.
    cbn [Nat.add]. rewrite !Hcons. apply IH.
Qed.

(** its last turn *)
Lemma for_range_last n w :
  (forall k w, fst (body k w) = Continue) ->
  exec (for_range 0 (S n) body) w = exec (body n) (exec (for_range 0 n body) w).
Proof.
  intros Hc. replace (S n) with (n + 1)%nat by lia.
  rewrite (for_range_split n Hc 1 0). cbn [Nat.add].
  unfold exec at 1. cbn [for_range]. rewrite Hc. reflexivity.
Qed.
End Loops.

(** ** What a statement leaves unchanged *)

#[global] Instance keeps_refl {A} (proj : Game -> A) : Reflexive (keeps proj).
Proof. intros g. reflexivity. Qed.
#[global] Instance keeps_trans {A} (proj : Game -> A) : Transitive (keeps proj).
Proof. unfold keeps. intros g1 g2 g3 H1 H2. congruence. Qed.

Section Rel.
Context {R : Game -> Game -> Prop} `{!Reflexive R} `{!Transitive R}.

Lemma rel_ret {A} (a : A) : rel R (ret a).
Proof. intros w. reflexivity. Qed.

Lemma rel_bind {A B} (m : M A) (k : A -> M B) :
  rel R m -> (forall a, rel R (k a)) -> rel R (bind m k).
Proof.
  intros Hm Hk w. rewrite exec_bind. etransitivity; [apply Hm|apply Hk].
Qed.

Lemma rel_when (b : bool) (m : M unit) : rel R m -> rel R (when b m).
Proof. destruct b; [trivial|intros _; apply rel_ret]. Qed.

Lemma rel_for_range body from n :
  (forall i, rel R (body i)) -> rel R (for_range from n body).
Proof.
  intros Hb w.
  apply (for_range_ind body (fun _ w' => R (game w) (game w'))
                       (fun w' => R (game w) (game w'))).
  - intros i w' _ HR. specialize (Hb i w'). unfold exec in Hb.
    destruct (fst (body i w')); etransitivity; eauto.
  - trivial.
  - reflexivity.
Qed.

(** statements that do not write to the game at all *)
Lemma rel_get_game : rel R get_game.
Proof. intros w. reflexivity. Qed.
Lemma rel_get_input : rel R get_input.
Proof. intros w. reflexivity. Qed.
Lemma rel_read p i : rel R (read p i).
Proof. intros w. reflexivity. Qed.
Lemma rel_millis : rel R millis.
Proof. intros w. reflexivity. Qed.
Lemma rel_random a b : rel R (random a b).
Proof. intros w. unfold random. destruct (a >=? b); reflexivity. Qed.
Lemma rel_Entity_init t p v wd h hp col : rel R (Entity_init t p v wd h hp col).
Proof. intros w. reflexivity. Qed.
Lemma rel_sound_play effect : rel R (sound_play effect).
Proof. intros w. destruct effect; reflexivity. Qed.
Lemma rel_sound_update : rel R sound_update.
Proof.
  intros w. unfold sound_update, exec.
  destruct (SoundSystem.isPlaying (sound w)); [|reflexivity].
  unfold bind, when; simpl.
  destruct (_ >? _); reflexivity.
Qed.
Lemma rel_input_update touch : rel R (input_update touch).
Proof. intros w. reflexivity. Qed.

(** statements that write *)
Lemma rel_modify_game f : (forall g, R g (f g)) -> rel R (modify_game f).
Proof. intros H w. apply H. Qed.
Lemma rel_write p i e :
  (forall g, R g (set_pool p (<[i := e]> (pool_of p g)) g)) -> rel R (write p i e).
Proof. intros H w. apply H. Qed.
Lemma rel_modify_slot p i f :
  (forall g e, R g (set_pool p (<[i := e]> (pool_of p g)) g)) ->
  rel R (modify_slot p i f).
Proof. intros H w. apply H. Qed.
Lemma rel_modify_slot_f p i f :
  (forall g, R g (set_pool p (<[i := f (slot p i g)]> (pool_of p g)) g)) ->
  rel R (modify_slot p i f).
Proof. intros H w. apply H. Qed.
End Rel.

(** Composition of two different relations. *)
Lemma rel_seq {A B} (R1 R2 R : Game -> Game -> Prop) (m : M A) (k : A -> M B) :
  rel R1 m -> (forall a, rel R2 (k a)) ->
  (forall x y z, R1 x y -> R2 y z -> R x z) ->
  rel R (bind m k).
Proof. intros Hm Hk Hc w. rewrite exec_bind. eapply Hc; [apply Hm|apply Hk]. Qed.

Lemma rel_weaken {A} (R1 R2 : Game -> Game -> Prop) (m : M A) :
  rel R1 m -> (forall x y, R1 x y -> R2 x y) -> rel R2 m.
Proof. intros H Hw w. apply Hw, H. Qed.

Create HintDb frame discriminated.

Ltac frame_leaf :=
  unfold keeps; intros;
  repeat match goal with
         | |- context [if ?b then _ else _] => destruct b
         end;
  first [ reflexivity
        | match goal with H : blind_to_pool _ _ |- _ => apply H end
        | match goal with H : forall p, blind_to_pool _ p |- _ => apply H end
        | match goal with H : blind_to _ _ |- _ => apply H end
        | match goal with H : forall g : Game, _ = _ |- _ => apply H end
        | solve [auto with frame] ].

Ltac frame_step :=
  lazymatch goal with
  | |- rel _ (bind _ _) => apply rel_bind; [|intros ?]
  | |- rel _ (ret _) => apply rel_ret
  | |- rel _ (when _ _) => apply rel_when
  | |- rel _ (for_range _ _ _) => apply rel_for_range; intros ?
  | |- rel _ (if ?b then _ else _) => destruct b
  | |- rel _ (match ?x with _ => _ end) => destruct x
  | |- rel _ get_game => apply rel_get_game
  | |- rel _ get_input => apply rel_get_input
  | |- rel _ (read _ _) => apply rel_read
  | |- rel _ millis => apply rel_millis
  | |- rel _ (random _ _) => apply rel_random
  | |- rel _ (Entity_init _ _ _ _ _ _ _) => apply rel_Entity_init
  | |- rel _ (sound_play _) => apply rel_sound_play
  | |- rel _ sound_update => apply rel_sound_update
  | |- rel _ (input_update _) => apply rel_input_update
  | |- rel _ (modify_game _) => apply rel_modify_game; frame_leaf
  | |- rel _ (write _ _ _) => apply rel_write; frame_leaf
  | |- rel _ (modify_slot _ _ _) =>
      first [ apply rel_modify_slot; frame_leaf | apply rel_modify_slot_f; frame_leaf ]
  | |- rel _ _ => solve [eauto with frame]
  end.
Ltac frame := repeat frame_step.

Section Frames.
Context {A : Type} (proj : Game -> A).
Variable cos sin : float -> float.

Lemma deactivate_all_keeps p :
  blind_to_pool proj p -> rel (keeps proj) (deactivate_all p).
Proof. intros H. unfold deactivate_all. frame. Qed.

Lemma spawnEnemy_keeps t ps v :
  blind_to_pool proj Enemies -> rel (keeps proj) (spawnEnemy t ps v).
Proof. intros H. unfold spawnEnemy. frame. Qed.

Lemma spawnPlayerBullet_keeps ps v :
  blind_to_pool proj PlayerBullets -> rel (keeps proj) (spawnPlayerBullet ps v).
Proof. intros H. unfold spawnPlayerBullet. frame. Qed.

Lemma spawnEnemyBullet_keeps ps v :
  blind_to_pool proj EnemyBullets -> rel (keeps proj) (spawnEnemyBullet ps v).
Proof. intros H. unfold spawnEnemyBullet. frame. Qed.

Lemma spawnParticle_keeps ps v :
  blind_to_pool proj Particles -> rel (keeps proj) (spawnParticle ps v).
Proof. intros H. unfold spawnParticle. frame. Qed.

Lemma spawnPowerup_keeps ps t :
  blind_to_pool proj Powerups -> rel (keeps proj) (spawnPowerup ps t).
Proof. intros H. unfold spawnPowerup. frame. Qed.

Lemma spawnExplosion_keeps ps size :
  blind_to_pool proj Explosions -> blind_to_pool proj Particles ->
  rel (keeps proj) (spawnExplosion cos sin ps size).
Proof.
  intros H1 H2. pose proof spawnParticle_keeps.
  unfold spawnExplosion. frame.
Qed.
End Frames.

(** ** The spawners' scan for a free slot *)

Lemma first_inactive_Some p g n : forall from k,
  first_inactive p g from n = Some k ->
  (from <= k < from + n)%nat /\ active (slot p k g) = false /\
  forall j, (from <= j < k)%nat -> active (slot p j g) = true.
Proof.
  induction n as [|n IH]; intros from k H; simpl in H; [discriminate|].
  destruct (active (slot p from g)) eqn:E.
  - apply IH in H as (Hk & Hin & Hbefore). split; [lia|]. split; [exact Hin|].
    intros j Hj. destruct (decide (j = from)) as [->|]; [exact E|]. apply Hbefore. lia.
  - injection H as <-. split; [lia|]. split; [exact E|]. intros j Hj. lia.
Qed.

Lemma first_inactive_None p g n : forall from,
  first_inactive p g from n = None <->
  forall j, (from <= j < from + n)%nat -> active (slot p j g) = true.
Proof.
  induction n as [|n IH]; intros from; simpl.
  - split; [intros _ j Hj; lia|reflexivity].
  - destruct (active (slot p from g)) eqn:E.
    + rewrite IH. split; intros H j Hj.
      * destruct (decide (j = from)) as [->|]; [exact E|]. apply H. lia.
      * apply H. lia.
    + split; [discriminate|]. intros H. rewrite (H from) in E by lia. discriminate.
Qed.

Lemma pool_full_spec p g :
  pool_full p g = true <-> forall j, (j < capacity p)%nat -> active (slot p j g) = true.
Proof.
  unfold pool_full. rewrite forallb_forall. split; intros H j Hj.
  - apply H. apply in_seq. lia.
  - apply H. apply in_seq in Hj. lia.
Qed.

Lemma pool_full_free_slot p g : pool_full p g = true <-> free_slot p g = None.
Proof.
  rewrite pool_full_spec. unfold free_slot. rewrite first_inactive_None.
  split; intros H j Hj; apply H; lia.
Qed.

(** The scan loop of every spawner: run [act] at the first inactive slot
    and stop; do nothing when there is none. *)
Lemma scan_spec p (act : nat -> M unit) n : forall from w,
  for_range from n (fun i =>
    e <- read p i ;;
    if negb (active e) then act i ;; ret Break else ret Continue) w =
  match first_inactive p (game w) from n with
  | Some k => (tt, exec (act k) w)
  | None => (tt, w)
  end.
Proof.
  induction n as [|n IH]; intros from w; [reflexivity|].
  set (body := fun i : nat => _) in *.
  cbn [for_range first_inactive].
  destruct (active (slot p from (game w))) eqn:E.
  - assert (Hb : body from w = (Continue, w)).
    { unfold body, bind, read, ret. cbn [fst snd]. rewrite E. reflexivity. }
    rewrite Hb. cbn [fst snd]. apply IH.
  - assert (Hb : body from w = (Break, exec (act from) w)).
    { unfold body, bind, read, ret, exec. cbn [fst snd]. rewrite E. reflexivity. }
    rewrite Hb. reflexivity.
Qed.

Lemma particle_angles_in_table :
  map (fun j => fst (libm_lookup (particle_angle j))) (seq 0 8)
  = map (fun r => fst (snd r)) libm_table.
Proof. vm_compute. reflexivity. Qed.

(** ** What each spawner does *)

Lemma place_full p e g : pool_full p g = true -> place p e g = g.
Proof. intros H. apply pool_full_free_slot in H. unfold place. rewrite H. reflexivity. Qed.

Section SpawnSpecs.
Variable cos sin : float -> float.

Lemma spawnEnemy_spec t ps v w :
  spawnEnemy t ps v w =
  match free_slot Enemies (game w) with
  | Some k =>
      (tt, exec (let '(hp, col, wh) :=
                   match t with
                   | ENEMY_FAST => (5, TFT_YELLOW, F32.of_Z 16)
                   | ENEMY_TANK => (30, TFT_PURPLE, F32.of_Z 28)
                   | _ => (10, TFT_RED, F32.of_Z 20)
                   end in
                 n <- Entity_init t ps v wh wh hp col ;; write Enemies k n) w)
  | None => (tt, w)
  end.
Proof. unfold spawnEnemy. rewrite scan_spec. reflexivity. Qed.

Lemma spawnPlayerBullet_spec ps v w :
  spawnPlayerBullet ps v w =
  match free_slot PlayerBullets (game w) with
  | Some k =>
      (tt, exec (n <- Entity_init BULLET_PLAYER ps v (F32.of_Z 4) (F32.of_Z 8) 1 TFT_WHITE ;;
                 write PlayerBullets k n) w)
  | None => (tt, w)
  end.
Proof. unfold spawnPlayerBullet. rewrite scan_spec. reflexivity. Qed.

Lemma spawnEnemyBullet_spec ps v w :
  spawnEnemyBullet ps v w =
  match free_slot EnemyBullets (game w) with
  | Some k =>
      (tt, exec (n <- Entity_init BULLET_ENEMY ps v (F32.of_Z 4) (F32.of_Z 8) 1 TFT_ORANGE ;;
                 write EnemyBullets k n) w)
  | None => (tt, w)
  end.
Proof. unfold spawnEnemyBullet. rewrite scan_spec. reflexivity. Qed.

Lemma spawnParticle_spec ps v w :
  spawnParticle ps v w =
  match free_slot Particles (game w) with
  | Some k =>
      (tt, exec (n <- Entity_init PARTICLE ps v (F32.of_Z 2) (F32.of_Z 2) 10 TFT_YELLOW ;;
                 write Particles k n) w)
  | None => (tt, w)
  end.
Proof. unfold spawnParticle. rewrite scan_spec. reflexivity. Qed.

Lemma spawnPowerup_spec ps t w :
  spawnPowerup ps t w =
  match free_slot Powerups (game w) with
  | Some k =>
      (tt, exec (let col := if EntityType_eqb t POWERUP_WEAPON then TFT_GREEN else TFT_MAGENTA in
                 n <- Entity_init t ps (Vec2.mk (F32.of_Z 0) (F32.of_Z 1))
                                  (F32.of_Z 16) (F32.of_Z 16) 1 col ;;
                 write Powerups k n) w)
  | None => (tt, w)
  end.
Proof. unfold spawnPowerup. rewrite scan_spec. reflexivity. Qed.

Lemma spawnExplosion_spec ps size w :
  spawnExplosion cos sin ps size w =
  match free_slot Explosions (game w) with
  | Some k =>
      burst cos sin ps
        (exec (n <- Entity_init EXPLOSION ps (Vec2.mk (F32.of_Z 0) (F32.of_Z 0))
                                size size 6 TFT_ORANGE ;;
               write Explosions k n) w)
  | None => burst cos sin ps w
  end.
Proof.
  unfold spawnExplosion, bind at 1. rewrite scan_spec.
  destruct (free_slot Explosions (game w)) eqn:E; unfold free_slot in E;
    cbn [capacity] in E; rewrite E; reflexivity.
Qed.

Lemma burst_full ps w :
  pool_full Particles (game w) = true -> burst cos sin ps w = (tt, w).
Proof.
  intros H. unfold burst. apply for_range_idle. intros k _.
  unfold bind. rewrite spawnParticle_spec.
  apply pool_full_free_slot in H. rewrite H. reflexivity.
Qed.
End SpawnSpecs.

(* ===================================================================== *)
(** * The rectangle test (C4, C10) *)
(* ===================================================================== *)

(** C10.  The rectangle intersection test is commutative: for all boxes
    [a] and [b], [a.intersects(b)] and [b.intersects(a)] are the same
    boolean. *)
Theorem intersects_comm (a b : Rect) :
  Rect.intersects a b = Rect.intersects b a.
Proof.
  unfold Rect.intersects. rewrite !gtb_ltb.
  destruct (Rect.x a <? Rect.x b + Rect.w b)%f32,
           (Rect.x b <? Rect.x a + Rect.w a)%f32,
           (Rect.y a <? Rect.y b + Rect.h b)%f32,
           (Rect.y b <? Rect.y a + Rect.h a)%f32; reflexivity.
Qed.

(** C4, as the code has it.  The test returns true iff the x-intervals
    and the y-intervals both overlap strictly; two boxes that merely touch
    along an edge do not intersect. *)
Theorem intersects_strict (a b : Rect) :
  (Rect.intersects a b = true <-> Rect.x_overlap a b /\ Rect.y_overlap a b) /\
  (Rect.touch a b -> Rect.intersects a b = false).
Proof.
  unfold Rect.x_overlap, Rect.y_overlap, Rect.strictly_overlap, Rect.touch,
    Rect.left, Rect.right, Rect.top, Rect.bottom, Rect.intersects.
  rewrite !gtb_ltb. split.
  - rewrite !andb_true_iff. tauto.
  - intros [H|[H|[H|H]]]; apply eqb_not_ltb in H as [H1 H2];
      rewrite ?H1, ?H2, ?andb_false_r; reflexivity.
Qed.

(** Two 10x10 boxes side by side, sharing the edge x = 10. *)
Lemma intersects_strict_witness :
  Rect.intersects (Rect.mk (F32.of_Z 0) (F32.of_Z 0) (F32.of_Z 10) (F32.of_Z 10))
                  (Rect.mk (F32.of_Z 10) (F32.of_Z 0) (F32.of_Z 10) (F32.of_Z 10)) = false.
Proof.
  apply (proj2 (intersects_strict
           (Rect.mk (F32.of_Z 0) (F32.of_Z 0) (F32.of_Z 10) (F32.of_Z 10))
           (Rect.mk (F32.of_Z 10) (F32.of_Z 0) (F32.of_Z 10) (F32.of_Z 10)))).
  left. vm_compute. reflexivity.
Defined.

(** C4 as stated fails: the two boxes above touch on the x-axis and
    overlap on the y-axis, yet the test answers false. *)
Lemma intersects_touching_counterexample :
  let a := Rect.mk (F32.of_Z 0) (F32.of_Z 0) (F32.of_Z 10) (F32.of_Z 10) in
  let b := Rect.mk (F32.of_Z 10) (F32.of_Z 0) (F32.of_Z 10) (F32.of_Z 10) in
  overlap_or_touch (Rect.left a) (Rect.right a) (Rect.left b) (Rect.right b) /\
  overlap_or_touch (Rect.top a) (Rect.bottom a) (Rect.top b) (Rect.bottom b) /\
  (Rect.right a =? Rect.left b)%f32 = true /\
  Rect.intersects a b = false.
Proof. vm_compute. repeat split; reflexivity. Qed.

(* ===================================================================== *)
(** * Enemy kind selection (C1) *)
(* ===================================================================== *)


Lemma slot_insert p i k e g :
  slot p i (set_pool p (<[k := e]> (pool_of p g)) g) =
  if decide (i = k /\ (k < length (pool_of p g))%nat) then e else slot p i g.
Proof.
  unfold slot.
  assert (Hp : forall l, pool_of p (set_pool p l g) = l) by (intros; destruct p; reflexivity).
  rewrite Hp. destruct (decide _) as [[-> Hlt]|Hn].
  - apply list_lookup_total_insert_eq. exact Hlt.
  - destruct (decide (i = k)) as [->|Hik].
    + rewrite list_insert_ge by lia. reflexivity.
    + apply list_lookup_total_insert_ne. congruence.
Qed.


Lemma chooseEnemy_cases (enemyType : Z) :
  (70 < enemyType -> fst (chooseEnemy enemyType) = ENEMY_FAST) /\
  (enemyType <= 70 -> fst (chooseEnemy enemyType) = ENEMY_BASIC) /\
  fst (chooseEnemy enemyType) <> ENEMY_TANK.
Proof.
  unfold chooseEnemy.
  destruct (enemyType >? 70) eqn:E1; [|destruct (enemyType >? 90) eqn:E2]; simpl;
    repeat split; try discriminate; try reflexivity; intros; lia.
Qed.



(* ===================================================================== *)
(** * Spawning into a full pool (C2) *)
(* ===================================================================== *)

Lemma blind_other_pool p q : p <> q -> blind_to_pool (pool_of p) q.
Proof. intros Hne g i e. destruct p, q; try reflexivity; congruence. Qed.

(** C2, as the code has it.  A spawn of an enemy, a player bullet, an
    enemy bullet, a powerup or a particle into a pool without an inactive
    slot leaves the whole program state as it was.  [spawnExplosion] with
    the explosion pool full stores no explosion but still runs its eight
    particle spawns: nothing but the particle pool can change, and the
    call is without effect only when the particle pool is full too. *)
Theorem spawn_on_full_pool (cos sin : float -> float) (w : World) :
  (pool_full Enemies (game w) = true ->
     forall t ps v, spawnEnemy t ps v w = (tt, w)) /\
  (pool_full PlayerBullets (game w) = true ->
     forall ps v, spawnPlayerBullet ps v w = (tt, w)) /\
  (pool_full EnemyBullets (game w) = true ->
     forall ps v, spawnEnemyBullet ps v w = (tt, w)) /\
  (pool_full Powerups (game w) = true ->
     forall ps t, spawnPowerup ps t w = (tt, w)) /\
  (pool_full Particles (game w) = true ->
     forall ps v, spawnParticle ps v w = (tt, w)) /\
  (pool_full Explosions (game w) = true ->
     forall ps size,
       spawnExplosion cos sin ps size w = burst cos sin ps w /\
       (forall p, p <> Particles ->
          pool_of p (game (exec (spawnExplosion cos sin ps size) w)) = pool_of p (game w)) /\
       (pool_full Particles (game w) = true ->
          spawnExplosion cos sin ps size w = (tt, w))).
Proof.
  split; [|split; [|split; [|split; [|split]]]]; intros H;
    [| | | | |intros ps size; split; [|split]].
  - intros t ps v. rewrite spawnEnemy_spec.
    apply pool_full_free_slot in H. rewrite H. reflexivity.
  - intros ps v. rewrite spawnPlayerBullet_spec.
    apply pool_full_free_slot in H. rewrite H. reflexivity.
  - intros ps v. rewrite spawnEnemyBullet_spec.
    apply pool_full_free_slot in H. rewrite H. reflexivity.
  - intros ps t. rewrite spawnPowerup_spec.
    apply pool_full_free_slot in H. rewrite H. reflexivity.
  - intros ps v. rewrite spawnParticle_spec.
    apply pool_full_free_slot in H. rewrite H. reflexivity.
  - rewrite spawnExplosion_spec.
    apply pool_full_free_slot in H. rewrite H. reflexivity.
  - intros p Hp.
    assert (E : exec (spawnExplosion cos sin ps size) w = exec (burst cos sin ps) w).
    { unfold exec. rewrite spawnExplosion_spec.
      apply pool_full_free_slot in H. rewrite H. reflexivity. }
    rewrite E.
    assert (Hk : rel (keeps (pool_of p)) (burst cos sin ps)).
    { pose proof (spawnParticle_keeps (pool_of p)) as Hs.
      pose proof (blind_other_pool p Particles Hp).
      unfold burst. frame. }
    unfold rel, keeps in Hk. apply Hk.
  - intros Hp. rewrite spawnExplosion_spec.
    apply pool_full_free_slot in H. rewrite H. apply burst_full. exact Hp.
Qed.

(** In a game whose six arrays are all in use, every spawner is without
    effect. *)
Lemma spawn_on_full_pool_witness :
  let z := Vec2.mk (F32.of_Z 100) (F32.of_Z 100) in
  spawnEnemy ENEMY_TANK z z crowded_world = (tt, crowded_world) /\
  spawnPlayerBullet z z crowded_world = (tt, crowded_world) /\
  spawnEnemyBullet z z crowded_world = (tt, crowded_world) /\
  spawnPowerup z POWERUP_HEALTH crowded_world = (tt, crowded_world) /\
  spawnParticle z z crowded_world = (tt, crowded_world) /\
  spawnExplosion libm_cos libm_sin z (F32.of_Z 20) crowded_world = (tt, crowded_world).
Proof.
  intros z.
  destruct (spawn_on_full_pool libm_cos libm_sin crowded_world)
    as (H1 & H2 & H3 & H4 & H5 & H6).
  split; [|split; [|split; [|split; [|split]]]].
  - apply H1. reflexivity.
  - apply H2. reflexivity.
  - apply H3. reflexivity.
  - apply H4. reflexivity.
  - apply H5. reflexivity.
  - apply (H6 eq_refl z (F32.of_Z 20)). reflexivity.
Defined.

(** C2 as stated fails for [spawnExplosion]: with every explosion slot in
    use and the particle pool empty, the call activates eight particles. *)
Lemma spawnExplosion_full_counterexample :
  let w := explosions_full_world in
  let w' := exec (spawnExplosion libm_cos libm_sin
                    (Vec2.mk (F32.of_Z 100) (F32.of_Z 100)) (F32.of_Z 20)) w in
  pool_full Explosions (game w) = true /\
  count_active (particles (game w)) = 0%nat /\
  count_active (particles (game w')) = 8%nat /\
  w' <> w.
Proof.
  split; [vm_compute; reflexivity|].
  split; [vm_compute; reflexivity|].
  split; [vm_compute; reflexivity|].
  intros H. apply (f_equal (fun x => count_active (particles (game x)))) in H.
  vm_compute in H. discriminate H.
Qed.

(* ===================================================================== *)
(** * What the per-frame functions leave unchanged *)
(* ===================================================================== *)

#[global] Hint Resolve deactivate_all_keeps spawnEnemy_keeps spawnPlayerBullet_keeps
  spawnEnemyBullet_keeps spawnParticle_keeps spawnPowerup_keeps
  spawnExplosion_keeps : frame.

Section RunFrames.
Context {A : Type} (proj : Game -> A).
Variable cos sin : float -> float.
Hypothesis Hpool : forall p, blind_to_pool proj p.
Hypothesis Hplayer : blind_to proj set_player.
Hypothesis Hscore : blind_to proj set_score.
Hypothesis HscrollY : blind_to proj set_scrollY.
Hypothesis HlastEnemySpawn : blind_to proj set_lastEnemySpawn.
Hypothesis HlastPlayerShot : blind_to proj set_lastPlayerShot.
Hypothesis Hweapon : blind_to proj set_playerWeaponLevel.

Lemma updatePlayer_keeps : rel (keeps proj) updatePlayer.
Proof. unfold updatePlayer. frame. Qed.

Lemma spawnWave_keeps : rel (keeps proj) spawnWave.
Proof. unfold spawnWave. frame. Qed.

Lemma updateEnemies_keeps : rel (keeps proj) updateEnemies.
Proof. unfold updateEnemies. frame. Qed.

Lemma updateBullets_keeps : rel (keeps proj) updateBullets.
Proof. unfold updateBullets. frame. Qed.

Lemma updatePowerups_keeps : rel (keeps proj) updatePowerups.
Proof. unfold updatePowerups. frame. Qed.

Lemma updateExplosions_keeps : rel (keeps proj) updateExplosions.
Proof. unfold updateExplosions. frame. Qed.

Lemma updateParticles_keeps : rel (keeps proj) updateParticles.
Proof. unfold updateParticles. frame. Qed.

Lemma bulletHitsEnemy_keeps i j : rel (keeps proj) (bulletHitsEnemy cos sin i j).
Proof. unfold bulletHitsEnemy, enemyDestroyed. frame. Qed.

Lemma bulletVsEnemies_keeps i : rel (keeps proj) (bulletVsEnemies cos sin i).
Proof. pose proof bulletHitsEnemy_keeps. unfold bulletVsEnemies. frame. Qed.

Lemma collideBulletsEnemies_keeps : rel (keeps proj) (collideBulletsEnemies cos sin).
Proof. pose proof bulletVsEnemies_keeps. unfold collideBulletsEnemies. frame. Qed.

(** with the lives and the state out of sight as well *)
Hypothesis Hlives : blind_to proj set_lives.
Hypothesis Hstate : blind_to proj set_state.
Hypothesis Hwave : blind_to proj set_wave.

Lemma checkCollisions_keeps : rel (keeps proj) (checkCollisions cos sin).
Proof.
  pose proof collideBulletsEnemies_keeps.
  unfold checkCollisions, collideEnemyBulletsPlayer, collideEnemiesPlayer,
    collidePowerupsPlayer.
  frame.
Qed.

Lemma init_keeps : rel (keeps proj) init.
Proof. unfold init. frame. Qed.

Lemma update_keeps : rel (keeps proj) (update cos sin).
Proof.
  pose proof init_keeps. pose proof checkCollisions_keeps.
  pose proof updatePlayer_keeps. pose proof spawnWave_keeps.
  pose proof updateEnemies_keeps. pose proof updateBullets_keeps.
  pose proof updatePowerups_keeps. pose proof updateExplosions_keeps.
  pose proof updateParticles_keeps.
  unfold update, updatePlaying, startGame. frame.
Qed.

Lemma loop_keeps touch : rel (keeps proj) (loop cos sin touch).
Proof.
  pose proof update_keeps.
  assert (Hb : forall b t, rel (keeps proj) (when b
    (input_update touch ;; update cos sin ;; sound_update ;;
     fun w' => (tt, with_lastFrame t w')))).
  { intros b t. frame. intros w. reflexivity. }
  intros w. unfold loop. rewrite exec_bind.
  set (w1 := exec millis w). set (t := fst (millis w)).
  change (game w) with (game w1).
  unfold exec at 1. cbv beta.
  exact (Hb (wrap_ulong (t - lastFrame w1) >=? FRAME_TIME) t w1).
Qed.

Lemma setup_keeps : rel (keeps proj) setup.
Proof.
  pose proof init_keeps. unfold setup.
  apply rel_bind; [intros w; reflexivity|]. intros _. assumption.
Qed.
End RunFrames.

(* ===================================================================== *)
(** * Pool capacities (C9) *)
(* ===================================================================== *)

Lemma count_active_le_length l : (count_active l <= length l)%nat.
Proof. induction l as [|e l IH]; simpl; [lia|]. destruct (active e); lia. Qed.

Lemma length_blind_pool p q : blind_to_pool (fun g => length (pool_of p g)) q.
Proof. intros g i e. destruct p, q; simpl; rewrite ?length_insert; reflexivity. Qed.

Lemma sizes_kept_by_loop cos sin touch p :
  rel (keeps (fun g => length (pool_of p g))) (loop cos sin touch).
Proof.
  apply loop_keeps; try (intros x g; destruct p; reflexivity).
  intros q. apply length_blind_pool.
Qed.

Lemma sizes_kept_by_setup p :
  rel (keeps (fun g => length (pool_of p g))) setup.
Proof.
  apply setup_keeps; try (intros x g; destruct p; reflexivity).
  intros q. apply length_blind_pool.
Qed.

Lemma reachable_well_sized cos sin w :
  reachable cos sin w -> well_sized (game w).
Proof.
  induction 1 as [clock rng|w touch Hr IH]; intros p.
  - rewrite (sizes_kept_by_setup p (power_on clock rng)). destruct p; reflexivity.
  - rewrite (sizes_kept_by_loop cos sin touch p w). apply IH.
Qed.

Section SpawnPlaces.
Variable cos sin : float -> float.

Lemma spawnEnemy_place t ps v w :
  exists e, fresh t ps v e /\
    game (exec (spawnEnemy t ps v) w) = place Enemies e (game w).
Proof.
  unfold exec. rewrite spawnEnemy_spec. unfold place.
  destruct t; eexists; (split; [|destruct (free_slot Enemies (game w)); reflexivity]);
    repeat split.
Qed.

Lemma spawnPlayerBullet_place ps v w :
  exists e, fresh BULLET_PLAYER ps v e /\
    game (exec (spawnPlayerBullet ps v) w) = place PlayerBullets e (game w).
Proof.
  unfold exec. rewrite spawnPlayerBullet_spec. unfold place.
  eexists; (split; [|destruct (free_slot PlayerBullets (game w)); reflexivity]);
    repeat split.
Qed.

Lemma spawnEnemyBullet_place ps v w :
  exists e, fresh BULLET_ENEMY ps v e /\
    game (exec (spawnEnemyBullet ps v) w) = place EnemyBullets e (game w).
Proof.
  unfold exec. rewrite spawnEnemyBullet_spec. unfold place.
  eexists; (split; [|destruct (free_slot EnemyBullets (game w)); reflexivity]);
    repeat split.
Qed.

Lemma spawnPowerup_place ps t w :
  exists e, fresh t ps (Vec2.mk (F32.of_Z 0) (F32.of_Z 1)) e /\
    game (exec (spawnPowerup ps t) w) = place Powerups e (game w).
Proof.
  unfold exec. rewrite spawnPowerup_spec. unfold place.
  eexists; (split; [|destruct (free_slot Powerups (game w)); reflexivity]);
    repeat split.
Qed.

Lemma spawnParticle_place ps v w :
  exists e, fresh PARTICLE ps v e /\
    game (exec (spawnParticle ps v) w) = place Particles e (game w).
Proof.
  unfold exec. rewrite spawnParticle_spec. unfold place.
  eexists; (split; [|destruct (free_slot Particles (game w)); reflexivity]);
    repeat split.
Qed.

(** the particle loop: one spawn for each of [n] directions *)
Lemma particles_place ps n : forall from w,
  exists es,
    length es = n /\
    Forall (fun e => active e = true /\ type e = PARTICLE /\ pos e = ps) es /\
    game (exec (for_range from n (fun j =>
            spawnParticle ps (particle_vel cos sin j) ;; ret Continue)) w)
    = place_all Particles es (game w).
Proof.
  induction n as [|n IH]; intros from w.
  - exists []. repeat split. constructor.
  - destruct (spawnParticle_place ps (particle_vel cos sin from) w) as (e & He & Hg).
    destruct (IH (S from) (exec (spawnParticle ps (particle_vel cos sin from)) w))
      as (es & Hlen & Hall & Hgs).
    exists (e :: es). split; [simpl; lia|]. split.
    + constructor; [|exact Hall]. destruct He as (? & ? & ? & _). auto.
    + change (place_all Particles (e :: es) (game w))
        with (place_all Particles es (place Particles e (game w))).
      rewrite <- Hg, <- Hgs. reflexivity.
Qed.

Lemma spawnExplosion_place ps size w :
  exists e es,
    fresh EXPLOSION ps (Vec2.mk (F32.of_Z 0) (F32.of_Z 0)) e /\
    width e = size /\ height e = size /\ health e = 6 /\
    length es = 8%nat /\
    Forall (fun e => active e = true /\ type e = PARTICLE /\ pos e = ps) es /\
    game (exec (spawnExplosion cos sin ps size) w)
    = place_all Particles es (place Explosions e (game w)).
Proof.
  set (e := mkEntity true EXPLOSION ps (Vec2.mk (F32.of_Z 0) (F32.of_Z 0))
              size size 6 TFT_ORANGE 0 (now w)).
  set (w1 := match free_slot Explosions (game w) with
             | Some k => exec (n <- Entity_init EXPLOSION ps
                                 (Vec2.mk (F32.of_Z 0) (F32.of_Z 0)) size size 6 TFT_ORANGE ;;
                               write Explosions k n) w
             | None => w
             end).
  assert (H1 : game w1 = place Explosions e (game w)).
  { unfold w1, place. destruct (free_slot Explosions (game w)); reflexivity. }
  assert (H2 : exec (spawnExplosion cos sin ps size) w = exec (burst cos sin ps) w1).
  { unfold exec. rewrite spawnExplosion_spec. unfold w1.
    destruct (free_slot Explosions (game w)); reflexivity. }
  destruct (particles_place ps 8 0 w1) as (es & Hlen & Hall & Hg).
  exists e, es. split; [repeat split|]. do 5 (split; [trivial|]).
  rewrite H2, <- H1. exact Hg.
Qed.
End SpawnPlaces.

(** C9.  In every state the program can reach, each array still has its
    declared size, so the number of active entities of a category never
    exceeds its capacity (20, 30, 40, 5, 10, 50).  Every spawner stores at
    most one entity per request, in the first inactive slot of its array in
    index order, or nowhere; [spawnExplosion] does so once for the
    explosion and once for each of its eight particles. *)
Theorem pool_capacity_invariant (cos sin : float -> float) :
  (forall w, reachable cos sin w ->
     forall p, length (pool_of p (game w)) = capacity p /\
               (count_active (pool_of p (game w)) <= capacity p)%nat) /\
  map capacity all_pools = [20; 30; 40; 5; 10; 50]%nat /\
  (forall w t ps v, exists e, fresh t ps v e /\
     game (exec (spawnEnemy t ps v) w) = place Enemies e (game w)) /\
  (forall w ps v, exists e, fresh BULLET_PLAYER ps v e /\
     game (exec (spawnPlayerBullet ps v) w) = place PlayerBullets e (game w)) /\
  (forall w ps v, exists e, fresh BULLET_ENEMY ps v e /\
     game (exec (spawnEnemyBullet ps v) w) = place EnemyBullets e (game w)) /\
  (forall w ps t, exists e, fresh t ps (Vec2.mk (F32.of_Z 0) (F32.of_Z 1)) e /\
     game (exec (spawnPowerup ps t) w) = place Powerups e (game w)) /\
  (forall w ps v, exists e, fresh PARTICLE ps v e /\
     game (exec (spawnParticle ps v) w) = place Particles e (game w)) /\
  (forall w ps size, exists e es,
     fresh EXPLOSION ps (Vec2.mk (F32.of_Z 0) (F32.of_Z 0)) e /\
     length es = 8%nat /\
     game (exec (spawnExplosion cos sin ps size) w)
     = place_all Particles es (place Explosions e (game w))).
Proof.
  split; [|split; [reflexivity|]].
  - intros w Hr p. pose proof (reachable_well_sized cos sin w Hr p) as Hlen.
    split; [exact Hlen|]. rewrite <- Hlen. apply count_active_le_length.
  - split; [intros; apply spawnEnemy_place|].
    split; [intros; apply spawnPlayerBullet_place|].
    split; [intros; apply spawnEnemyBullet_place|].
    split; [intros; apply spawnPowerup_place|].
    split; [intros; apply spawnParticle_place|].
    intros w ps size.
    destruct (spawnExplosion_place cos sin ps size w)
      as (e & es & He & _ & _ & _ & Hlen & _ & Hg).
    exists e, es. auto.
Qed.

Lemma duel_reachable n : reachable libm_cos libm_sin (duel n).
Proof.
  induction n as [|n IH].
  - apply reach_loop. apply reach_setup.
  - apply (reach_loop libm_cos libm_sin (duel n) None IH).
Qed.

Lemma hunt_reachable n : reachable libm_cos libm_sin (hunt n).
Proof.
  induction n as [|n IH].
  - apply reach_loop. apply reach_setup.
  - apply (reach_loop libm_cos libm_sin (hunt n) (Some (70, 190)) IH).
Qed.

(** Two states of play.  Thirty-nine frames into the hunt, 22 player
    bullets, 4 explosions, all 5 powerups and all 50 particles are in
    use: two arrays are full.  Eighty-seven frames into the duel there
    are 3 enemies, 4 enemy bullets, 2 explosions and 16 particles. *)
Lemma pool_capacity_invariant_witness :
  (census (hunt 39) = [0; 22; 0; 5; 4; 50]%nat /\
   Forall (fun p => length (pool_of p (game (hunt 39))) = capacity p /\
                    (count_active (pool_of p (game (hunt 39))) <= capacity p)%nat)
          all_pools) /\
  (census (duel 87) = [3; 0; 4; 0; 2; 16]%nat /\
   Forall (fun p => length (pool_of p (game (duel 87))) = capacity p /\
                    (count_active (pool_of p (game (duel 87))) <= capacity p)%nat)
          all_pools).
Proof.
  split; (split; [vm_compute; reflexivity|]); apply Forall_forall; intros p _.
  - apply (proj1 (pool_capacity_invariant libm_cos libm_sin)). apply hunt_reachable.
  - apply (proj1 (pool_capacity_invariant libm_cos libm_sin)). apply duel_reachable.
Defined.

(* ===================================================================== *)
(** * Restart (C8) *)
(* ===================================================================== *)

Lemma slot_out_of_range p i g :
  (length (pool_of p g) <= i)%nat -> slot p i g = Entity0.
Proof.
  intros H. unfold slot. rewrite list_lookup_total_alt.
  rewrite (lookup_ge_None_2 _ _ H). reflexivity.
Qed.

Lemma slot_lookup p i g e : pool_of p g !! i = Some e -> slot p i g = e.
Proof. intros H. unfold slot. apply list_lookup_total_correct. exact H. Qed.

(** [deactivate_all p] leaves no active slot in the array. *)
Lemma deactivate_all_spec p w i :
  (i < capacity p)%nat ->
  active (slot p i (game (exec (deactivate_all p) w))) = false.
Proof.
  intros Hi. revert i Hi. unfold deactivate_all.
  apply (for_range_ind _
           (fun n w' => forall k, (k < n)%nat -> active (slot p k (game w')) = false)
           (fun w' => forall k, (k < capacity p)%nat -> active (slot p k (game w')) = false)).
  - intros i w' _ HP. cbn [fst bind ret].
    intros k Hk.
    change (game (snd ((modify_slot p i (set_active false);; ret Continue) w')))
      with (set_pool p (<[i := set_active false (slot p i (game w'))]> (pool_of p (game w')))
                     (game w')).
    rewrite slot_insert. destruct (decide _) as [_|Hn]; [reflexivity|].
    destruct (decide (k = i)) as [->|Hki]; [|apply HP; lia].
    rewrite slot_out_of_range; [reflexivity|]. lia.
  - intros w' HP. exact HP.
  - intros k Hk. lia.
Qed.

Lemma deactivate_all_proj {A} (proj : Game -> A) p w :
  blind_to_pool proj p ->
  proj (game (exec (deactivate_all p) w)) = proj (game w).
Proof. intros H. exact (deactivate_all_keeps proj p H w). Qed.

Lemma slot_blind_other_pool p q i : p <> q -> blind_to_pool (slot p i) q.
Proof. intros Hne g k e. destruct p, q; try reflexivity; congruence. Qed.

Lemma init_scalars w :
  let g := game (exec init w) in
  state g = TITLE /\ score g = 0 /\ lives g = 3 /\ wave g = 1 /\
  playerWeaponLevel g = 1.
Proof.
  unfold init. rewrite !exec_bind.
  repeat split;
    (rewrite !deactivate_all_proj by (intros g i e; reflexivity); reflexivity).
Qed.

Lemma init_pools w p i :
  (i < capacity p)%nat -> active (slot p i (game (exec init w))) = false.
Proof.
  intros Hi. unfold init. rewrite !exec_bind.
  destruct p;
    rewrite ?(deactivate_all_proj (fun g => active (slot _ i g)))
      by (intros g k e; apply (f_equal active); apply slot_blind_other_pool; discriminate);
    apply deactivate_all_spec; exact Hi.
Qed.

Lemma init_well_sized w : well_sized (game w) -> well_sized (game (exec init w)).
Proof.
  intros H p. rewrite <- (H p).
  apply (init_keeps (fun g => length (pool_of p g)));
    try (intros x g; destruct p; reflexivity).
  intros q. apply length_blind_pool.
Qed.

Lemma all_slots_inactive g p :
  length (pool_of p g) = capacity p ->
  (forall i, (i < capacity p)%nat -> active (slot p i g) = false) ->
  Forall (fun e => active e = false) (pool_of p g).
Proof.
  intros Hlen H. apply Forall_lookup. intros i e Hie.
  rewrite <- (slot_lookup p i g e Hie). apply H.
  rewrite <- Hlen. eapply lookup_lt_Some. exact Hie.
Qed.

Lemma pool_of_set_state p s g : pool_of p (set_state s g) = pool_of p g.
Proof. destruct p; reflexivity. Qed.

Lemma playing_after_init g :
  score g = 0 -> lives g = 3 -> playerWeaponLevel g = 1 ->
  well_sized g ->
  (forall p i, (i < capacity p)%nat -> active (slot p i g) = false) ->
  let g' := set_state PLAYING g in
  state g' = PLAYING /\ score g' = 0 /\ lives g' = 3 /\ playerWeaponLevel g' = 1 /\
  forall p, length (pool_of p g') = capacity p /\
            Forall (fun e => active e = false) (pool_of p g').
Proof.
  intros Hscore Hlives Hweapon Hsz Hin g'.
  split; [reflexivity|]. split; [exact Hscore|]. split; [exact Hlives|].
  split; [exact Hweapon|].
  intros p. unfold g'. rewrite (pool_of_set_state p PLAYING g).
  split; [apply Hsz|]. apply all_slots_inactive; [apply Hsz|apply Hin].
Qed.

Lemma game_modify_game f w : game (exec (modify_game f) w) = f (game w).
Proof. reflexivity. Qed.

Lemma update_game_over cos sin w :
  state (game w) = GAME_OVER ->
  InputSystem.isTouching (input w) = true ->
  exec (update cos sin) w = exec startGame w.
Proof.
  intros Hst Htouch. unfold update. rewrite !exec_bind.
  change (fst (get_game w)) with (game w).
  change (exec get_game w) with w.
  change (fst (get_input w)) with (input w).
  change (exec get_input w) with w.
  rewrite Hst, Htouch. reflexivity.
Qed.

(** C8.  In the Game-Over state, with arrays of the declared sizes and
    whatever they and the counters hold, an [update] that sees a touch
    does exactly [startGame]: the state is Playing, every slot of every
    pool is inactive, score = 0, lives = 3 and weapon level = 1, and no
    part of the Playing update has run. *)
Theorem restart_resets (cos sin : float -> float) (w : World) :
  state (game w) = GAME_OVER ->
  InputSystem.isTouching (input w) = true ->
  well_sized (game w) ->
  let w' := exec (update cos sin) w in
  w' = exec startGame w /\
  state (game w') = PLAYING /\
  score (game w') = 0 /\ lives (game w') = 3 /\ playerWeaponLevel (game w') = 1 /\
  forall p, length (pool_of p (game w')) = capacity p /\
            Forall (fun e => active e = false) (pool_of p (game w')).
Proof.
  intros Hst Htouch Hsz w'.
  pose proof (update_game_over cos sin w Hst Htouch) as E. fold w' in E.
  split; [exact E|]. rewrite E. unfold startGame. rewrite exec_bind.
  rewrite game_modify_game.
  destruct (init_scalars w) as (_ & Hscore & Hlives & _ & Hweapon).
  apply (playing_after_init (game (exec init w)) Hscore Hlives Hweapon).
  - apply init_well_sized. exact Hsz.
  - intros p i. apply init_pools.
Qed.

(** Restart from a lost game with 155 live entities, score 4200, lives -2
    and weapon level 3. *)
Lemma restart_resets_witness :
  let w' := exec (update libm_cos libm_sin) game_over_world in
  w' = exec startGame game_over_world /\
  state (game w') = PLAYING /\
  score (game w') = 0 /\ lives (game w') = 3 /\ playerWeaponLevel (game w') = 1 /\
  forall p, length (pool_of p (game w')) = capacity p /\
            Forall (fun e => active e = false) (pool_of p (game w')).
Proof.
  apply (restart_resets libm_cos libm_sin game_over_world).
  - reflexivity.
  - reflexivity.
  - intros p. destruct p; reflexivity.
Defined.

(* ===================================================================== *)
(** * The lives counter (C3) *)
(* ===================================================================== *)

Lemma wrap_int_id z : INT_MIN <= z <= INT_MAX -> wrap_int z = z.
Proof.
  unfold INT_MIN, INT_MAX, wrap_int.
  change (2 ^ 31) with 2147483648. change (2 ^ 32) with 4294967296.
  intros H. rewrite Z.mod_small; lia.
Qed.

Lemma INT_bounds : INT_MIN = -2147483648 /\ INT_MAX = 2147483647.
Proof. split; reflexivity. Qed.

Lemma lives_blind_pool p : blind_to_pool lives p.
Proof. intros g i e. destruct p; reflexivity. Qed.
#[global] Hint Resolve lives_blind_pool : frame.

Lemma drops_refl n g : 0 <= n -> drops n g g.
Proof. unfold drops. lia. Qed.

Lemma drops_comp a b x y z :
  0 <= a -> 0 <= b -> drops a x y -> drops b y z -> drops (a + b) x z.
Proof. unfold drops. intros Ha Hb H1 H2 H. lia. Qed.

Lemma drops_weaken a b x y : a <= b -> drops a x y -> drops b x y.
Proof. unfold drops. intros Hab H1 H. lia. Qed.

Lemma keeps_drops x y : keeps lives x y -> drops 0 x y.
Proof. unfold keeps, drops. lia. Qed.

(** A loop that costs at most one life per iteration costs at most as
    many lives as it has iterations. *)
Lemma drops_for_range body from n :
  (forall i, rel (drops 1) (body i)) ->
  rel (drops (Z.of_nat n)) (for_range from n body).
Proof.
  intros Hb w.
  apply (for_range_ind body
           (fun i w' => drops (Z.of_nat (i - from)) (game w) (game w'))
           (fun w' => drops (Z.of_nat n) (game w) (game w'))).
  - intros i w' Hi HP. specialize (Hb i w'). unfold exec in Hb.
    pose proof (drops_comp (Z.of_nat (i - from)) 1 _ _ _ ltac:(lia) ltac:(lia) HP Hb) as Hc.
    destruct (fst (body i w')).
    + replace (Z.of_nat (S i - from)) with (Z.of_nat (i - from) + 1) by lia. exact Hc.
    + eapply drops_weaken; [|exact Hc]. lia.
  - intros w' HP. replace (from + n - from)%nat with n in HP by lia. exact HP.
  - replace (from - from)%nat with 0%nat by lia. apply drops_refl. lia.
Qed.

(** a block that takes one life, between statements that take none *)
Lemma life_lost_block (post : M unit) :
  rel (keeps lives) post ->
  rel (drops 1) (modify_game (fun g => set_lives (wrap_int (lives g - 1)) g) ;; post).
Proof.
  intros Hpost.
  eapply (rel_seq (fun g g' => lives g' = wrap_int (lives g - 1)) (keeps lives)).
  - intros w. reflexivity.
  - intros _. exact Hpost.
  - unfold keeps, drops. intros x y z H1 H2 H.
    rewrite H2, H1. rewrite wrap_int_id; lia.
Qed.

Section Lives.
Variable cos sin : float -> float.

Lemma collideEnemyBulletsPlayer_drops :
  rel (drops (Z.of_nat MAX_ENEMY_BULLETS)) (collideEnemyBulletsPlayer cos sin).
Proof.
  unfold collideEnemyBulletsPlayer. apply drops_for_range. intros i.
  eapply (rel_seq (keeps lives) (drops 1)); [apply rel_read| |].
  2: { intros x y z H1 H2. unfold keeps, drops in *. lia. }
  intros b. destruct (negb (active b)).
  { intros w. apply drops_refl. lia. }
  eapply (rel_seq (keeps lives) (drops 1)); [apply rel_get_game| |].
  2: { intros x y z H1 H2. unfold keeps, drops in *. lia. }
  intros g.
  eapply (rel_seq (drops 1) (keeps lives)); [|intros; apply rel_ret|].
  2: { intros x y z H1 H2. unfold keeps, drops in *. lia. }
  destruct (Rect.intersects _ _); [|intros w; apply drops_refl; lia].
  cbn [when].
  eapply (rel_seq (keeps lives) (drops 1)).
  - frame.
  - intros _. apply life_lost_block. frame.
  - intros x y z H1 H2. unfold keeps, drops in *. lia.
Qed.

Lemma collideEnemiesPlayer_drops :
  rel (drops (Z.of_nat MAX_ENEMIES)) (collideEnemiesPlayer cos sin).
Proof.
  unfold collideEnemiesPlayer. apply drops_for_range. intros i.
  eapply (rel_seq (keeps lives) (drops 1)); [apply rel_read| |].
  2: { intros x y z H1 H2. unfold keeps, drops in *. lia. }
  intros b. destruct (negb (active b)).
  { intros w. apply drops_refl. lia. }
  eapply (rel_seq (keeps lives) (drops 1)); [apply rel_get_game| |].
  2: { intros x y z H1 H2. unfold keeps, drops in *. lia. }
  intros g.
  eapply (rel_seq (drops 1) (keeps lives)); [|intros; apply rel_ret|].
  2: { intros x y z H1 H2. unfold keeps, drops in *. lia. }
  destruct (Rect.intersects _ _); [|intros w; apply drops_refl; lia].
  cbn [when]. apply life_lost_block. frame.
Qed.

Lemma gains_same g g' : lives g' = lives g -> gains g g'.
Proof. unfold gains. lia. Qed.

#[local] Instance gains_refl : Reflexive gains.
Proof. intros g. apply gains_same. reflexivity. Qed.
#[local] Instance gains_trans : Transitive gains.
Proof. unfold gains. intros x y z H1 H2 H. pose proof INT_bounds. lia. Qed.

Lemma collidePowerupsPlayer_gains : rel gains collidePowerupsPlayer.
Proof.
  unfold collidePowerupsPlayer. apply rel_for_range. intros i.
  apply rel_bind; [apply rel_read|intros p].
  destruct (negb (active p)); [apply rel_ret|].
  apply rel_bind; [apply rel_get_game|intros g].
  apply rel_bind; [|intros; apply rel_ret].
  apply rel_when.
  apply rel_bind;
    [|intros _; apply rel_bind;
        [apply rel_sound_play
        |intros _; apply rel_modify_slot; intros; apply gains_same, lives_blind_pool]].
  destruct (EntityType_eqb (type p) POWERUP_WEAPON).
  { apply rel_modify_game. intros g0. apply gains_same. reflexivity. }
  destruct (EntityType_eqb (type p) POWERUP_HEALTH); [|apply rel_ret].
  apply rel_modify_game. intros g0. unfold gains. intros H.
  change (lives (set_lives ?x g0)) with x.
  pose proof INT_bounds. rewrite wrap_int_id by lia.
  unfold min_int. destruct (lives g0 + 1 <? 5) eqn:E; lia.
Qed.

(** collision resolution as a whole, from a counter in [1, 5] *)
Lemma checkCollisions_lives :
  rel (fun g g' => 1 <= lives g <= 5 -> lives g - 60 <= lives g' <= 5)
      (checkCollisions cos sin).
Proof.
  pose proof INT_bounds as [Hmin Hmax].
  unfold checkCollisions.
  eapply (rel_seq (keeps lives)); [| |intros x y z H1 H2; rewrite <- H1; exact H2].
  { apply collideBulletsEnemies_keeps; auto with frame; intros ? ?; reflexivity. }
  intros _.
  eapply (rel_seq (drops 40)
            (fun g g' => -39 <= lives g <= 5 -> lives g - 20 <= lives g' <= 5)).
  { exact collideEnemyBulletsPlayer_drops. }
  2: { unfold drops. intros x y z H1 H2 H. lia. }
  intros _.
  eapply (rel_seq (drops 20) gains).
  { exact collideEnemiesPlayer_drops. }
  { intros _. exact collidePowerupsPlayer_gains. }
  unfold drops, gains. intros x y z H1 H2 H. lia.
Qed.

(** one Playing update, from a counter in [1, 5] *)
Lemma updatePlaying_lives :
  rel (fun g g' => 1 <= lives g <= 5 ->
         lives g - 60 <= lives g' <= 5 /\ (state g' = PLAYING -> 1 <= lives g'))
      (updatePlaying cos sin).
Proof.
  unfold updatePlaying.
  do 2 (eapply (rel_seq (keeps lives));
        [apply rel_modify_game; frame_leaf
        |intros _|intros x y z H1 H2; rewrite <- H1; exact H2]).
  eapply (rel_seq (keeps lives)); [| |intros x y z H1 H2; rewrite <- H1; exact H2].
  { apply updatePlayer_keeps; auto with frame; intros ? ?; reflexivity. }
  intros _.
  eapply (rel_seq (keeps lives)); [| |intros x y z H1 H2; rewrite <- H1; exact H2].
  { apply spawnWave_keeps; auto with frame; intros ? ?; reflexivity. }
  intros _.
  eapply (rel_seq (keeps lives)); [| |intros x y z H1 H2; rewrite <- H1; exact H2].
  { apply updateEnemies_keeps; auto with frame; intros ? ?; reflexivity. }
  intros _.
  eapply (rel_seq (keeps lives)); [| |intros x y z H1 H2; rewrite <- H1; exact H2].
  { apply updateBullets_keeps; auto with frame; intros ? ?; reflexivity. }
  intros _.
  eapply (rel_seq (keeps lives)); [| |intros x y z H1 H2; rewrite <- H1; exact H2].
  { apply updatePowerups_keeps; auto with frame; intros ? ?; reflexivity. }
  intros _.
  eapply (rel_seq (keeps lives)); [| |intros x y z H1 H2; rewrite <- H1; exact H2].
  { apply updateExplosions_keeps; auto with frame; intros ? ?; reflexivity. }
  intros _.
  eapply (rel_seq (keeps lives)); [| |intros x y z H1 H2; rewrite <- H1; exact H2].
  { apply updateParticles_keeps; auto with frame; intros ? ?; reflexivity. }
  intros _.
  eapply (rel_seq _ (fun g g' => lives g' = lives g /\ (state g' = PLAYING -> 1 <= lives g'))).
  { exact checkCollisions_lives. }
  { intros _. apply rel_modify_game. intros g.
    destruct (lives g <=? 0) eqn:E; (split; [reflexivity|]).
    - discriminate.
    - intros _. lia. }
  cbv beta. intros x y z H1 [H2 H3] H. specialize (H1 H). split; [lia|exact H3].
Qed.
End Lives.

Lemma game_sound_update w : game (exec sound_update w) = game w.
Proof. exact (rel_sound_update (R := keeps (fun g => g)) w). Qed.

(** A call of [loop] either skips the frame or runs [update] on the same
    game. *)
Lemma loop_exec cos sin touch w :
  let t := fst (millis w) in
  let w1 := exec millis w in
  exec (loop cos sin touch) w =
  if wrap_ulong (t - lastFrame w1) >=? FRAME_TIME then
    exec (input_update touch ;; update cos sin ;; sound_update ;;
          fun w' => (tt, with_lastFrame t w')) w1
  else w1.
Proof.
  intros t w1. unfold loop. rewrite exec_bind. fold t w1.
  unfold exec at 1. cbv beta.
  destruct (wrap_ulong (t - lastFrame w1) >=? FRAME_TIME); reflexivity.
Qed.

Lemma loop_game cos sin touch w :
  game (exec (loop cos sin touch) w) = game w \/
  exists w1, game w1 = game w /\
    game (exec (loop cos sin touch) w) = game (exec (update cos sin) w1).
Proof.
  rewrite loop_exec.
  set (w1 := exec millis w). set (t := fst (millis w)).
  assert (H1 : game w1 = game w) by reflexivity.
  destruct (wrap_ulong (t - lastFrame w1) >=? FRAME_TIME).
  - right. exists (exec (input_update touch) w1). split; [exact H1|].
    rewrite !exec_bind.
    set (w2 := exec (update cos sin) _).
    change (game (exec (fun w' => (tt, with_lastFrame t w')) (exec sound_update w2)))
      with (game (exec sound_update w2)).
    apply game_sound_update.
  - left. exact H1.
Qed.

Lemma startGame_lives_ok w : lives_ok (game (exec startGame w)).
Proof.
  unfold startGame. rewrite exec_bind, game_modify_game.
  destruct (init_scalars w) as (_ & _ & Hlives & _).
  generalize dependent (game (exec init w)). intros g Hlives.
  unfold lives_ok. change (lives (set_state PLAYING g)) with (lives g). lia.
Qed.

Lemma update_lives_ok cos sin w :
  lives_ok (game w) -> lives_ok (game (exec (update cos sin) w)).
Proof.
  intros Hok. unfold update. rewrite !exec_bind.
  change (fst (get_game w)) with (game w).
  change (exec get_game w) with w.
  change (fst (get_input w)) with (input w).
  change (exec get_input w) with w.
  destruct (state (game w)) eqn:Hst.
  - destruct (InputSystem.isTouching (input w)); [apply startGame_lives_ok|exact Hok].
  - destruct Hok as (H5 & _ & Hpl). specialize (Hpl Hst).
    destruct (updatePlaying_lives cos sin w) as [Hl Hs]; [lia|].
    unfold lives_ok. split; [lia|]. split; [lia|exact Hs].
  - destruct (InputSystem.isTouching (input w)); [apply startGame_lives_ok|exact Hok].
Qed.


(** C3, as the code has it.  In every reachable state the lives counter
    is at most 5 (a health pickup never raises it further), it is at least
    1 whenever the state is Playing, and it is never below -59.  It is not
    kept at or above 0: each enemy bullet and each enemy that intersects
    the player takes one life, however many do so in the same frame. *)
Theorem lives_bounds (cos sin : float -> float) (w : World) :
  reachable cos sin w ->
  lives (game w) <= 5 /\ -59 <= lives (game w) /\
  (state (game w) = PLAYING -> 1 <= lives (game w)).
Proof.
  intros Hr. change (lives_ok (game w)).
  induction Hr as [clock rng|w touch Hr IH].
  - unfold setup. rewrite exec_bind.
    destruct (init_scalars (exec sound_init (power_on clock rng)))
      as (Hst & _ & Hlives & _).
    generalize dependent (game (exec init (exec sound_init (power_on clock rng)))).
    intros g Hst Hlives. unfold lives_ok. rewrite Hst, Hlives.
    split; [lia|]. split; [lia|discriminate].
  - destruct (loop_game cos sin touch w) as [E|(w1 & E1 & E)]; rewrite E.
    + exact IH.
    + apply update_lives_ok. rewrite E1. exact IH.
Qed.

(** The bounds, in the state 88 frames into the duel. *)
Lemma lives_bounds_witness :
  lives (game (duel 88)) <= 5 /\ -59 <= lives (game (duel 88)) /\
  (state (game (duel 88)) = PLAYING -> 1 <= lives (game (duel 88))).
Proof. apply (lives_bounds libm_cos libm_sin (duel 88)). apply duel_reachable. Defined.

(** C3 as stated fails.  In the duel the four bullets travel at the
    enemy's own speed, one on top of the other, 3 units ahead of it.  The
    enemy itself reaches the player in frame 87 and takes one life (3 to
    2); the four bullets reach the player together in frame 88 and take
    one life each: the counter is -2 and the game is over. *)
Lemma lives_negative_counterexample :
  reachable libm_cos libm_sin (duel 88) /\
  lives (game (duel 87)) = 2 /\
  lives (game (duel 88)) = -2 /\
  state (game (duel 88)) = GAME_OVER.
Proof.
  split; [apply duel_reachable|].
  vm_compute. repeat split.
Qed.

(* ===================================================================== *)
(** * Culling of player bullets (C7) *)
(* ===================================================================== *)

Lemma game_modify_slot p i f w :
  game (exec (modify_slot p i f) w)
  = set_pool p (<[i := f (slot p i (game w))]> (pool_of p (game w))) (game w).
Proof. reflexivity. Qed.

Lemma active_in_range p i g :
  active (slot p i g) = true -> (i < length (pool_of p g))%nat.
Proof.
  intros H. destruct (decide (i < length (pool_of p g))%nat) as [|Hn]; [assumption|].
  rewrite slot_out_of_range in H by lia. discriminate H.
Qed.

Lemma pool_of_set_pool p l g : pool_of p (set_pool p l g) = l.
Proof. destruct p; reflexivity. Qed.

(** the body of the player-bullet loop, on the slot it visits and on the
    others *)
Lemma player_bullet_body i w :
  let body := fun i : nat =>
    (e <- read PlayerBullets i ;;
     if negb (active e) then ret Continue
     else
       modify_slot PlayerBullets i (fun e => set_pos (Vec2.add (pos e) (vel e)) e) ;;
       e <- read PlayerBullets i ;;
       when (Vec2.y (pos e) <? F32.of_Z (-10))%f32
         (modify_slot PlayerBullets i deactivate) ;;
       ret Continue) in
  fst (body i w) = Continue /\
  forall k, slot PlayerBullets k (game (snd (body i w))) =
            if decide (k = i) then tick_player_bullet (slot PlayerBullets i (game w))
            else slot PlayerBullets k (game w).
Proof.
  intros body. unfold body, bind, read, ret. cbn [fst snd].
  unfold tick_player_bullet.
  destruct (active (slot PlayerBullets i (game w))) eqn:Hact; cbn [negb fst snd].
  2: { split; [reflexivity|]. intros k. destruct (decide (k = i)) as [->|]; reflexivity. }
  pose proof (active_in_range _ _ _ Hact) as Hlt.
  set (w1 := snd (modify_slot PlayerBullets i _ w)).
  assert (Hg1 : game w1 = set_pool PlayerBullets
                  (<[i := fly (slot PlayerBullets i (game w))]> (pool_of PlayerBullets (game w)))
                  (game w)) by reflexivity.
  assert (Hs1 : forall k, slot PlayerBullets k (game w1) =
                  if decide (k = i) then fly (slot PlayerBullets i (game w))
                  else slot PlayerBullets k (game w)).
  { intros k. rewrite Hg1, slot_insert.
    destruct (decide (k = i)) as [->|Hne].
    - destruct (decide _) as [_|Hn]; [reflexivity|]. exfalso. apply Hn. auto.
    - destruct (decide _) as [[He _]|_]; [congruence|reflexivity]. }
  rewrite (Hs1 i). destruct (decide (i = i)) as [_|]; [|congruence].
  destruct (Vec2.y (pos (fly (slot PlayerBullets i (game w)))) <? F32.of_Z (-10))%f32;
    cbn [when]; (split; [reflexivity|]); intros k.
  - change (snd (modify_slot PlayerBullets i deactivate w1))
      with (exec (modify_slot PlayerBullets i deactivate) w1).
    rewrite game_modify_slot, slot_insert, (Hs1 i), (Hs1 k).
    assert (Hlen : length (pool_of PlayerBullets (game w1))
                   = length (pool_of PlayerBullets (game w))).
    { rewrite Hg1, pool_of_set_pool. apply length_insert. }
    rewrite Hlen.
    destruct (decide (i = i)) as [_|]; [|congruence].
    destruct (decide (k = i)) as [->|Hne].
    + destruct (decide _) as [_|Hn]; [reflexivity|]. exfalso. apply Hn. auto.
    + destruct (decide _) as [[He _]|_]; [congruence|reflexivity].
  - apply Hs1.
Qed.

(** One call of [updateBullets] on a slot of [playerBullets]. *)
Lemma updateBullets_slot w i :
  (i < MAX_PLAYER_BULLETS)%nat ->
  slot PlayerBullets i (game (exec updateBullets w))
  = tick_player_bullet (slot PlayerBullets i (game w)).
Proof.
  intros Hi. unfold updateBullets. rewrite exec_bind.
  match goal with
  | |- context [exec ?m2 (exec ?m1 w)] =>
      assert (H2 : rel (keeps (slot PlayerBullets i)) m2);
      [|set (loop1 := m1)]
  end.
  { pose proof (slot_blind_other_pool PlayerBullets EnemyBullets i ltac:(discriminate)).
    frame. }
  unfold rel, keeps in H2. rewrite H2. clear H2.
  unfold loop1.
  apply (for_range_ind _
    (fun n w' => forall k, slot PlayerBullets k (game w') =
       if decide (k < n)%nat then tick_player_bullet (slot PlayerBullets k (game w))
       else slot PlayerBullets k (game w))
    (fun w' => slot PlayerBullets i (game w')
               = tick_player_bullet (slot PlayerBullets i (game w)))).
  - intros j w' _ HP.
    pose proof (player_bullet_body j w') as Hb. cbv zeta in Hb.
    destruct Hb as [Hc Hs]. rewrite Hc. intros k. rewrite Hs.
    rewrite (HP j), (HP k).
    destruct (decide (j < j)%nat); [lia|].
    destruct (decide (k = j)) as [->|Hne].
    + destruct (decide (j < S j)%nat); [reflexivity|lia].
    + destruct (decide (k < j)%nat), (decide (k < S j)%nat); try reflexivity; lia.
  - intros w' HP. rewrite (HP i). destruct (decide _); [reflexivity|].
    unfold MAX_PLAYER_BULLETS in *. lia.
  - intros k. destruct (decide (k < 0)%nat); [lia|reflexivity].
Qed.

Lemma updateBullets_iter w i n :
  (i < MAX_PLAYER_BULLETS)%nat ->
  slot PlayerBullets i (game (Nat.iter n (exec updateBullets) w))
  = Nat.iter n tick_player_bullet (slot PlayerBullets i (game w)).
Proof.
  intros Hi. induction n as [|n IH]; [reflexivity|].
  rewrite !Nat.iter_succ. rewrite updateBullets_slot by exact Hi. rewrite IH. reflexivity.
Qed.

(** The fate of one bullet under repeated [tick_player_bullet]. *)
Lemma tick_iter b n :
  active b = true ->
  (forall k, (1 <= k <= n)%nat -> (Vec2.y (flight b k) <? F32.of_Z (-10))%f32 = false) /\
    Nat.iter n tick_player_bullet b = set_pos (flight b n) b
  \/
  (exists k, (1 <= k <= n)%nat /\ (Vec2.y (flight b k) <? F32.of_Z (-10))%f32 = true) /\
    active (Nat.iter n tick_player_bullet b) = false.
Proof.
  intros Hact. induction n as [|n IH].
  - left. split; [intros k Hk; lia|]. destruct b; reflexivity.
  - rewrite Nat.iter_succ.
    destruct IH as [[Hnone Heq]|[(k & Hk & Hbelow) Hin]].
    + rewrite Heq. unfold tick_player_bullet.
      change (active (set_pos (flight b n) b)) with (active b). rewrite Hact.
      change (pos (fly (set_pos (flight b n) b))) with (flight b (S n)).
      destruct (Vec2.y (flight b (S n)) <? F32.of_Z (-10))%f32 eqn:E.
      * right. split; [exists (S n); split; [lia|exact E]|reflexivity].
      * left. split; [|reflexivity].
        intros k Hk. destruct (decide (k = S n)) as [->|]; [exact E|apply Hnone; lia].
    + right. split; [exists k; split; [lia|exact Hbelow]|].
      unfold tick_player_bullet at 1. rewrite Hin. exact Hin.
Qed.

(** C7.  A player bullet that is active in slot [i] is still active after
    [n] calls of [updateBullets] iff none of its first [n] post-movement
    positions is strictly above the line y = -10 (strictly less than -10);
    while active it is where its velocity has taken it.  So it is
    deactivated in the first frame whose post-movement position is below
    -10, and not before. *)
Theorem player_bullet_culling (w : World) (i n : nat) :
  (i < MAX_PLAYER_BULLETS)%nat ->
  active (slot PlayerBullets i (game w)) = true ->
  let b := slot PlayerBullets i (game w) in
  let b_n := slot PlayerBullets i (game (Nat.iter n (exec updateBullets) w)) in
  (active b_n = true <->
   forall k, (1 <= k <= n)%nat -> (Vec2.y (flight b k) <? F32.of_Z (-10))%f32 = false) /\
  (active b_n = true -> pos b_n = flight b n).
Proof.
  intros Hi Hact b b_n. unfold b_n. rewrite updateBullets_iter by exact Hi. fold b.
  destruct (tick_iter b n Hact) as [[Hnone Heq]|[(k & Hk & Hbelow) Hin]].
  - rewrite Heq. change (active (set_pos (flight b n) b)) with (active b).
    split; [split; [intros _; exact Hnone|intros _; exact Hact]|reflexivity].
  - rewrite Hin. split; [split|]; try discriminate.
    intros H. rewrite (H k Hk) in Hbelow. discriminate Hbelow.
Qed.

(** The scenario of the specification: from height 5 at 8 per frame, the
    bullet is at -3 and active after one frame, at -11 and inactive after
    two. *)
Lemma player_bullet_culling_witness :
  let b1 := slot PlayerBullets 0 (game (Nat.iter 1 (exec updateBullets) bullet_world)) in
  let b2 := slot PlayerBullets 0 (game (Nat.iter 2 (exec updateBullets) bullet_world)) in
  (active b1 = true /\ Vec2.y (pos b1) = F32.of_Z (-3)) /\
  (active b2 = false /\ Vec2.y (pos b2) = F32.of_Z (-11)).
Proof.
  intros b1 b2.
  assert (Hi : (0 < MAX_PLAYER_BULLETS)%nat) by (unfold MAX_PLAYER_BULLETS; lia).
  assert (Hact : active (slot PlayerBullets 0 (game bullet_world)) = true) by reflexivity.
  destruct (player_bullet_culling bullet_world 0 1 Hi Hact) as [H1 P1].
  destruct (player_bullet_culling bullet_world 0 2 Hi Hact) as [H2 _].
  assert (A1 : active b1 = true).
  { apply H1. intros k Hk. assert (k = 1)%nat as -> by lia. vm_compute. reflexivity. }
  split.
  - split; [exact A1|]. unfold b1. rewrite (P1 A1). vm_compute. reflexivity.
  - split; [|vm_compute; reflexivity].
    destruct (active b2) eqn:E; [|reflexivity].
    pose proof (proj1 H2 E 2%nat ltac:(lia)) as Hc. vm_compute in Hc. discriminate Hc.
Defined.

(* ===================================================================== *)
(** * Bullet versus enemies (C5, C6) *)
(* ===================================================================== *)

Section BulletHit.
Variable cos sin : float -> float.

(** one step of the scan for bullet [i] *)
Lemma bulletVsEnemies_step i j w :
  (e <- read Enemies j ;;
   if negb (active e) then ret Continue
   else
     b <- read PlayerBullets i ;;
     if Rect.intersects (getRect b) (getRect e) then
       bulletHitsEnemy cos sin i j ;; ret Break
     else ret Continue)%prog w
  = if hits i j (game w) then (Break, exec (bulletHitsEnemy cos sin i j) w)
    else (Continue, w).
Proof.
  unfold hits, bind, read, ret, exec. cbn [fst snd].
  destruct (active (slot Enemies j (game w))); cbn [negb andb]; [|reflexivity].
  destruct (Rect.intersects _ _); reflexivity.
Qed.

(** The scan for bullet [i] resolves against the first enemy it meets,
    in index order, and against no other. *)
Lemma bulletVsEnemies_first i j0 w :
  (j0 < MAX_ENEMIES)%nat ->
  hits i j0 (game w) = true ->
  (forall j, (j < j0)%nat -> hits i j (game w) = false) ->
  bulletVsEnemies cos sin i w = (tt, exec (bulletHitsEnemy cos sin i j0) w).
Proof.
  intros Hj Hhit Hfirst. unfold bulletVsEnemies.
  rewrite (for_range_first _ MAX_ENEMIES 0 j0 w).
  - rewrite bulletVsEnemies_step, Hhit. reflexivity.
  - lia.
  - intros k Hk. rewrite bulletVsEnemies_step, Hfirst by lia. reflexivity.
  - rewrite bulletVsEnemies_step, Hhit. reflexivity.
Qed.

(** a scan that meets no enemy does nothing *)
Lemma bulletVsEnemies_miss i w :
  (forall j, hits i j (game w) = false) ->
  bulletVsEnemies cos sin i w = (tt, w).
Proof.
  intros Hmiss. unfold bulletVsEnemies. apply for_range_idle.
  intros k _. rewrite bulletVsEnemies_step, Hmiss. reflexivity.
Qed.

(** the turn of bullet [i]: nothing for an inactive bullet, the scan for
    an active one; the outer loop always goes on *)
Lemma bulletTurn_continues i w : fst (bulletTurn cos sin i w) = Continue.
Proof.
  unfold bulletTurn, bind, read, ret. cbn [fst snd].
  destruct (active (slot PlayerBullets i (game w))); reflexivity.
Qed.

Lemma bulletTurn_inactive i w :
  active (slot PlayerBullets i (game w)) = false ->
  bulletTurn cos sin i w = (Continue, w).
Proof.
  intros H. unfold bulletTurn, bind, read, ret. cbn [fst snd]. rewrite H. reflexivity.
Qed.

Lemma bulletTurn_active i w :
  active (slot PlayerBullets i (game w)) = true ->
  bulletTurn cos sin i w = (Continue, exec (bulletVsEnemies cos sin i) w).
Proof.
  intros H. unfold bulletTurn, bind, read, ret. cbn [fst snd]. rewrite H. reflexivity.
Qed.

(** a bullet that is inactive or meets no enemy passes its turn *)
Lemma bulletTurn_idle i w :
  (active (slot PlayerBullets i (game w)) = true ->
   forall j, hits i j (game w) = false) ->
  bulletTurn cos sin i w = (Continue, w).
Proof.
  intros H. destruct (active (slot PlayerBullets i (game w))) eqn:E.
  - rewrite (bulletTurn_active i w E). unfold exec.
    rewrite (bulletVsEnemies_miss i w (H eq_refl)). reflexivity.
  - apply bulletTurn_inactive. exact E.
Qed.

(** the phase is the turns of the bullets, in index order *)
Lemma collideBulletsEnemies_turns :
  collideBulletsEnemies cos sin = for_range 0 MAX_PLAYER_BULLETS (bulletTurn cos sin).
Proof. reflexivity. Qed.

(** what the destruction of enemy [j] does not touch *)
Lemma enemyDestroyed_keeps {A} (proj : Game -> A) j :
  blind_to_pool proj Explosions -> blind_to_pool proj Particles ->
  blind_to_pool proj Powerups -> blind_to proj set_score ->
  (forall g, proj (set_pool Enemies
               (<[j := deactivate (slot Enemies j g)]> (pool_of Enemies g)) g) = proj g) ->
  rel (keeps proj) (enemyDestroyed cos sin j).
Proof. intros H1 H2 H3 H4 H5. unfold enemyDestroyed. frame. Qed.

(** the state after the two writes that every hit starts with *)
Lemma bulletHitsEnemy_exec i j w :
  let w2 := exec (modify_slot Enemies j (fun e => set_health (wrap_int (health e - 10)) e))
              (exec (modify_slot PlayerBullets i deactivate) w) in
  exec (bulletHitsEnemy cos sin i j) w =
  if health (slot Enemies j (game w2)) <=? 0 then exec (enemyDestroyed cos sin j) w2
  else exec (sound_play SoundSystem.HIT) w2.
Proof.
  intros w2. unfold bulletHitsEnemy. rewrite !exec_bind. fold w2.
  change (fst (read Enemies j w2)) with (slot Enemies j (game w2)).
  change (exec (read Enemies j) w2) with w2.
  destruct (health (slot Enemies j (game w2)) <=? 0); reflexivity.
Qed.

Lemma bulletHitsEnemy_after_writes {A} (proj : Game -> A) i j w :
  blind_to_pool proj Explosions -> blind_to_pool proj Particles ->
  blind_to_pool proj Powerups -> blind_to proj set_score ->
  (forall g, proj (set_pool Enemies
               (<[j := deactivate (slot Enemies j g)]> (pool_of Enemies g)) g) = proj g) ->
  proj (game (exec (bulletHitsEnemy cos sin i j) w))
  = proj (game (exec (modify_slot Enemies j (fun e => set_health (wrap_int (health e - 10)) e))
                 (exec (modify_slot PlayerBullets i deactivate) w))).
Proof.
  intros H1 H2 H3 H4 H5. rewrite bulletHitsEnemy_exec. cbv zeta.
  destruct (_ <=? 0).
  - apply (enemyDestroyed_keeps proj j H1 H2 H3 H4 H5).
  - apply (rel_sound_play (R := keeps proj)).
Qed.
End BulletHit.

Lemma pool_of_set_other_pool p q l g : p <> q -> pool_of p (set_pool q l g) = pool_of p g.
Proof. intros H. destruct p, q; try reflexivity; congruence. Qed.

Lemma slot_set_other_pool p q k l g : p <> q -> slot p k (set_pool q l g) = slot p k g.
Proof. intros H. unfold slot. rewrite pool_of_set_other_pool by exact H. reflexivity. Qed.

(** the two writes of a hit, seen from the enemy array and from the
    bullet's slot *)
Lemma hit_writes_enemy i j w k :
  slot Enemies k
    (game (exec (modify_slot Enemies j (fun e => set_health (wrap_int (health e - 10)) e))
             (exec (modify_slot PlayerBullets i deactivate) w)))
  = if decide (k = j /\ (j < length (pool_of Enemies (game w)))%nat)
    then set_health (wrap_int (health (slot Enemies j (game w)) - 10)) (slot Enemies j (game w))
    else slot Enemies k (game w).
Proof.
  rewrite !game_modify_slot. rewrite slot_insert.
  rewrite !pool_of_set_other_pool by discriminate.
  rewrite !slot_set_other_pool by discriminate. reflexivity.
Qed.

Lemma hit_writes_bullet i j w :
  active (slot PlayerBullets i
    (game (exec (modify_slot Enemies j (fun e => set_health (wrap_int (health e - 10)) e))
             (exec (modify_slot PlayerBullets i deactivate) w)))) = false.
Proof.
  rewrite !game_modify_slot. rewrite slot_set_other_pool by discriminate.
  rewrite slot_insert. destruct (decide _) as [_|Hn]; [reflexivity|].
  destruct (active (slot PlayerBullets i (game w))) eqn:E; [|reflexivity].
  exfalso. apply Hn. split; [reflexivity|]. apply active_in_range. exact E.
Qed.

Lemma hits_enemy_active i j g : hits i j g = true -> active (slot Enemies j g) = true.
Proof. unfold hits. intros H. apply andb_true_iff in H. apply H. Qed.

(** a hit on enemy [j]: the bullet's slot and the enemy's health afterwards *)
Lemma hit_deactivates_bullet cos sin i j w :
  active (slot PlayerBullets i (game (exec (bulletHitsEnemy cos sin i j) w))) = false.
Proof.
  rewrite (bulletHitsEnemy_after_writes cos sin
             (fun g => active (slot PlayerBullets i g)) i j w).
  - apply hit_writes_bullet.
  - intros g k e. apply (f_equal active), slot_blind_other_pool. discriminate.
  - intros g k e. apply (f_equal active), slot_blind_other_pool. discriminate.
  - intros g k e. apply (f_equal active), slot_blind_other_pool. discriminate.
  - intros x g. reflexivity.
  - intros g. rewrite slot_set_other_pool by discriminate. reflexivity.
Qed.

Lemma hit_takes_ten cos sin i j w :
  active (slot Enemies j (game w)) = true ->
  health (slot Enemies j (game (exec (bulletHitsEnemy cos sin i j) w)))
  = wrap_int (health (slot Enemies j (game w)) - 10).
Proof.
  intros Hact. pose proof (active_in_range _ _ _ Hact) as Hin.
  rewrite (bulletHitsEnemy_after_writes cos sin
             (fun g => health (slot Enemies j g)) i j w).
  - rewrite hit_writes_enemy. destruct (decide _) as [_|Hn]; [reflexivity|].
    exfalso. apply Hn. split; [reflexivity|exact Hin].
  - intros g k e. apply (f_equal health), slot_blind_other_pool. discriminate.
  - intros g k e. apply (f_equal health), slot_blind_other_pool. discriminate.
  - intros g k e. apply (f_equal health), slot_blind_other_pool. discriminate.
  - intros x g. reflexivity.
  - intros g. rewrite slot_insert. destruct (decide _); reflexivity.
Qed.

(** what a hit on enemy [j0] by bullet [i] leaves as it was: the other
    bullets, the other enemies, and the box of every enemy *)
Lemma hit_keeps_other_bullets cos sin i j0 k w :
  k <> i ->
  slot PlayerBullets k (game (exec (bulletHitsEnemy cos sin i j0) w))
  = slot PlayerBullets k (game w).
Proof.
  intros Hne.
  rewrite (bulletHitsEnemy_after_writes cos sin (slot PlayerBullets k) i j0 w).
  - rewrite !game_modify_slot. rewrite slot_set_other_pool by discriminate.
    rewrite slot_insert. destruct (decide _) as [[He _]|_]; [congruence|reflexivity].
  - apply slot_blind_other_pool. discriminate.
  - apply slot_blind_other_pool. discriminate.
  - apply slot_blind_other_pool. discriminate.
  - intros x g. reflexivity.
  - intros g. apply slot_set_other_pool. discriminate.
Qed.

Lemma hit_keeps_other_enemies cos sin i j0 j w :
  j <> j0 ->
  slot Enemies j (game (exec (bulletHitsEnemy cos sin i j0) w)) = slot Enemies j (game w).
Proof.
  intros Hne.
  rewrite (bulletHitsEnemy_after_writes cos sin (slot Enemies j) i j0 w).
  - rewrite hit_writes_enemy. destruct (decide _) as [[He _]|_]; [congruence|reflexivity].
  - apply slot_blind_other_pool. discriminate.
  - apply slot_blind_other_pool. discriminate.
  - apply slot_blind_other_pool. discriminate.
  - intros x g. reflexivity.
  - intros g. rewrite slot_insert. destruct (decide _) as [[He _]|_]; [congruence|reflexivity].
Qed.

Lemma hit_keeps_enemy_boxes cos sin i j0 j w :
  getRect (slot Enemies j (game (exec (bulletHitsEnemy cos sin i j0) w)))
  = getRect (slot Enemies j (game w)).
Proof.
  rewrite (bulletHitsEnemy_after_writes cos sin
             (fun g => getRect (slot Enemies j g)) i j0 w).
  - rewrite hit_writes_enemy. destruct (decide _) as [[-> _]|_]; reflexivity.
  - intros g k e. apply (f_equal getRect), slot_blind_other_pool. discriminate.
  - intros g k e. apply (f_equal getRect), slot_blind_other_pool. discriminate.
  - intros g k e. apply (f_equal getRect), slot_blind_other_pool. discriminate.
  - intros x g. reflexivity.
  - intros g. rewrite slot_insert. destruct (decide _) as [[-> _]|_]; reflexivity.
Qed.

(** a bullet that met no enemy before another bullet's hit meets none
    after it *)
Lemma hit_leaves_no_target cos sin i j0 k j w :
  k <> i -> active (slot Enemies j0 (game w)) = true ->
  hits k j (game w) = false ->
  hits k j (game (exec (bulletHitsEnemy cos sin i j0) w)) = false.
Proof.
  intros Hne Hact Hmiss. unfold hits in *.
  rewrite hit_keeps_other_bullets by exact Hne. rewrite hit_keeps_enemy_boxes.
  destruct (decide (j = j0)) as [->|Hj].
  - rewrite Hact in Hmiss. cbn [andb] in Hmiss. rewrite Hmiss. apply andb_false_r.
  - rewrite hit_keeps_other_enemies by exact Hj. exact Hmiss.
Qed.

(** C5.  The phase of player bullets against enemies gives every bullet
    its turn, in index order; [w_i] is the state in which the turn of
    bullet [i] starts and [w_i'] the state in which it ends.  An
    inactive bullet passes its turn, and so does an active one that
    meets no enemy.  When an active bullet meets several active enemies
    at once, its turn resolves against the one with the lowest index:
    the bullet is deactivated, that enemy's health goes down by 10 (in
    32-bit [int] arithmetic, which is plain subtraction unless the
    health was within 10 of [INT_MIN]), and every other enemy slot is
    exactly as it was.  If no other active bullet meets an enemy, that
    is all the phase does. *)
Theorem first_enemy_takes_hit (cos sin : float -> float) (w : World) (i : nat) :
  (i < MAX_PLAYER_BULLETS)%nat ->
  let turn := bulletTurn cos sin in
  let w_i := exec (for_range 0 i turn) w in
  let w_i' := exec (turn i) w_i in
  exec (collideBulletsEnemies cos sin) w
  = exec (for_range (S i) (MAX_PLAYER_BULLETS - S i) turn) w_i' /\
  (active (slot PlayerBullets i (game w_i)) = false -> w_i' = w_i) /\
  ((forall j, hits i j (game w_i) = false) -> w_i' = w_i) /\
  (forall j0,
     active (slot PlayerBullets i (game w_i)) = true ->
     (j0 < MAX_ENEMIES)%nat ->
     hits i j0 (game w_i) = true ->
     (forall j, (j < j0)%nat -> hits i j (game w_i) = false) ->
     active (slot PlayerBullets i (game w_i')) = false /\
     health (slot Enemies j0 (game w_i'))
     = wrap_int (health (slot Enemies j0 (game w_i)) - 10) /\
     (INT_MIN + 10 <= health (slot Enemies j0 (game w_i)) <= INT_MAX ->
      health (slot Enemies j0 (game w_i')) = health (slot Enemies j0 (game w_i)) - 10) /\
     (forall j, j <> j0 -> slot Enemies j (game w_i') = slot Enemies j (game w_i)) /\
     ((forall k j, k <> i -> active (slot PlayerBullets k (game w)) = true ->
                   hits k j (game w) = false) ->
      w_i = w /\ exec (collideBulletsEnemies cos sin) w = w_i')).
Proof.
  intros Hi turn w_i w_i'.
  assert (Hc : forall k w0, fst (turn k w0) = Continue)
    by (intros; apply bulletTurn_continues).
  assert (Hphase : exec (collideBulletsEnemies cos sin) w
                   = exec (for_range (S i) (MAX_PLAYER_BULLETS - S i) turn) w_i').
  { rewrite collideBulletsEnemies_turns. fold turn.
    replace MAX_PLAYER_BULLETS with (S i + (MAX_PLAYER_BULLETS - S i))%nat at 1 by lia.
    rewrite (for_range_split turn (S i) Hc). cbn [Nat.add].
    rewrite (for_range_last turn i w Hc). reflexivity. }
  split; [exact Hphase|]. split; [|split].
  - intros Hoff. unfold w_i', turn, exec.
    rewrite (bulletTurn_inactive cos sin i _ Hoff). reflexivity.
  - intros Hmiss. unfold w_i', turn, exec.
    rewrite (bulletTurn_idle cos sin i _ (fun _ => Hmiss)). reflexivity.
  - intros j0 Hon Hj Hhit Hfirst.
    assert (Ew : w_i' = exec (bulletHitsEnemy cos sin i j0) w_i).
    { unfold w_i', turn, exec. rewrite (bulletTurn_active cos sin i _ Hon). cbn [snd].
      unfold exec. rewrite (bulletVsEnemies_first cos sin i j0 _ Hj Hhit Hfirst).
      reflexivity. }
    pose proof (hits_enemy_active _ _ _ Hhit) as Hact.
    pose proof (hit_takes_ten cos sin i j0 w_i Hact) as Hhealth.
    rewrite Ew.
    split; [apply hit_deactivates_bullet|]. split; [exact Hhealth|]. split; [|split].
    + intros Hrange. rewrite Hhealth. apply wrap_int_id. lia.
    + intros j Hne. apply hit_keeps_other_enemies. exact Hne.
    + intros Hothers.
      assert (E0 : w_i = w).
      { unfold w_i, exec. rewrite for_range_idle; [reflexivity|].
        intros k Hk. apply bulletTurn_idle. intros Hk_on j.
        apply Hothers; [lia|exact Hk_on]. }
      split; [exact E0|]. rewrite Hphase, Ew.
      unfold exec at 1. rewrite for_range_idle; [reflexivity|].
      intros k Hk. apply bulletTurn_idle. intros Hk_on j.
      assert (Hne : k <> i) by lia.
      rewrite hit_keeps_other_bullets in Hk_on by exact Hne.
      apply hit_leaves_no_target; [exact Hne|exact Hact|].
      rewrite E0 in Hk_on |- *. apply Hothers; [exact Hne|exact Hk_on].
Qed.

(** an unused slot is inactive *)
Lemma replicate_inactive n k : active (replicate n Entity0 !!! k) = false.
Proof.
  revert k. induction n as [|n IH]; intros [|k]; try reflexivity. apply IH.
Qed.

(** The bullet of the crossfire, the only active one, is inside enemy 2
    and enemy 5.  After the phase it is inactive, enemy 2 has gone from
    10 to 0, and enemy 5 is as it was, with its 30 hit points. *)
Lemma first_enemy_takes_hit_witness :
  let g := game crossfire_world in
  let g' := game (exec (collideBulletsEnemies libm_cos libm_sin) crossfire_world) in
  (hits 0 2 g = true /\ hits 0 5 g = true) /\
  active (slot PlayerBullets 0 g') = false /\
  health (slot Enemies 2 g') = 0 /\
  slot Enemies 5 g' = slot Enemies 5 g.
Proof.
  intros g g'.
  assert (Hi : (0 < MAX_PLAYER_BULLETS)%nat) by (unfold MAX_PLAYER_BULLETS; lia).
  assert (Hj : (2 < MAX_ENEMIES)%nat) by (unfold MAX_ENEMIES; lia).
  assert (Hfirst : forall j, (j < 2)%nat -> hits 0 j g = false).
  { intros j Hlt. destruct j as [|[|j]]; [reflexivity|reflexivity|lia]. }
  assert (Hothers : forall k j, k <> 0%nat ->
            active (slot PlayerBullets k g) = true -> hits k j g = false).
  { intros k j Hk Hon. exfalso. destruct k as [|k]; [congruence|].
    change (slot PlayerBullets (S k) g)
      with (replicate (pred MAX_PLAYER_BULLETS) Entity0 !!! k) in Hon.
    rewrite replicate_inactive in Hon. discriminate Hon. }
  destruct (first_enemy_takes_hit libm_cos libm_sin crossfire_world 0 Hi)
    as (_ & _ & _ & Hturn).
  destruct (Hturn 2%nat eq_refl Hj eq_refl Hfirst) as (H1 & H2 & _ & H3 & H4).
  destruct (H4 Hothers) as [_ E].
  split; [split; reflexivity|]. unfold g'. rewrite E.
  split; [exact H1|]. split; [exact H2|]. apply H3. discriminate.
Defined.

(** ** Spawning into free slots: what changes and how many *)

Lemma first_inactive_ext p g1 g2 n : forall from,
  pool_of p g1 = pool_of p g2 ->
  first_inactive p g1 from n = first_inactive p g2 from n.
Proof.
  induction n as [|n IH]; intros from H; [reflexivity|].
  simpl. unfold slot. rewrite H. fold (slot p from g2).
  destruct (active (slot p from g2)); [apply IH; exact H|reflexivity].
Qed.

Lemma place_pool p e g :
  pool_of p (place p e g) =
  match free_slot p g with
  | Some k => <[k := e]> (pool_of p g)
  | None => pool_of p g
  end.
Proof.
  unfold place. destruct (free_slot p g); [apply pool_of_set_pool|reflexivity].
Qed.

Lemma place_other_pool p q e g : q <> p -> pool_of q (place p e g) = pool_of q g.
Proof.
  intros H. unfold place. destruct (free_slot p g); [|reflexivity].
  apply pool_of_set_other_pool. exact H.
Qed.

Lemma place_pool_ext p e g1 g2 :
  pool_of p g1 = pool_of p g2 ->
  pool_of p (place p e g1) = pool_of p (place p e g2).
Proof.
  intros H. rewrite !place_pool. unfold free_slot.
  rewrite (first_inactive_ext p g1 g2 _ _ H), H. reflexivity.
Qed.

Lemma place_all_other_pool p q es : forall g,
  q <> p -> pool_of q (place_all p es g) = pool_of q g.
Proof.
  induction es as [|e es IH]; intros g H; [reflexivity|].
  change (place_all p (e :: es) g) with (place_all p es (place p e g)).
  rewrite IH by exact H. apply place_other_pool. exact H.
Qed.

Lemma place_all_pool_ext p es : forall g1 g2,
  pool_of p g1 = pool_of p g2 ->
  pool_of p (place_all p es g1) = pool_of p (place_all p es g2).
Proof.
  induction es as [|e es IH]; intros g1 g2 H; [exact H|].
  change (place_all p (e :: es) ?g) with (place_all p es (place p e g)).
  apply IH. apply place_pool_ext. exact H.
Qed.

Lemma count_active_all l :
  (forall j, (j < length l)%nat -> active (l !!! j) = true) ->
  count_active l = length l.
Proof.
  induction l as [|e l IH]; intros H; [reflexivity|].
  pose proof (H 0%nat ltac:(simpl; lia)) as H0. change (active e = true) in H0.
  simpl. rewrite H0. rewrite IH; [reflexivity|].
  intros j Hj. apply (H (S j)). simpl. lia.
Qed.

Lemma count_active_insert l : forall k e,
  (k < length l)%nat -> active (l !!! k) = false -> active e = true ->
  count_active (<[k := e]> l) = S (count_active l).
Proof.
  induction l as [|x l IH]; intros k e Hk Hin He; [simpl in Hk; lia|].
  destruct k as [|k].
  - change (active x = false) in Hin. simpl. rewrite Hin, He. reflexivity.
  - change (active (l !!! k) = false) in Hin.
    change (<[S k := e]> (x :: l)) with (x :: <[k := e]> l). simpl.
    rewrite (IH k e) by (simpl in Hk; lia || assumption). lia.
Qed.

(** A spawn into a pool with a free slot activates exactly one more
    entity. *)
Lemma place_count p e g :
  length (pool_of p g) = capacity p ->
  (count_active (pool_of p g) < capacity p)%nat ->
  active e = true ->
  length (pool_of p (place p e g)) = capacity p /\
  count_active (pool_of p (place p e g)) = S (count_active (pool_of p g)).
Proof.
  intros Hlen Hcount He. rewrite place_pool.
  destruct (free_slot p g) as [k|] eqn:E.
  - apply first_inactive_Some in E as (Hk & Hin & _).
    rewrite length_insert. split; [exact Hlen|].
    apply count_active_insert; [lia|exact Hin|exact He].
  - exfalso. unfold free_slot in E. rewrite first_inactive_None in E.
    rewrite count_active_all in Hcount; [lia|].
    intros j Hj. apply (E j). lia.
Qed.

Lemma place_all_count p es : forall g,
  length (pool_of p g) = capacity p ->
  (count_active (pool_of p g) + length es <= capacity p)%nat ->
  Forall (fun e => active e = true) es ->
  count_active (pool_of p (place_all p es g)) = (count_active (pool_of p g) + length es)%nat.
Proof.
  induction es as [|e es IH]; intros g Hlen Hcount Hall.
  - simpl. lia.
  - change (place_all p (e :: es) g) with (place_all p es (place p e g)).
    inversion Hall as [|? ? He Hes]; subst.
    simpl in Hcount.
    destruct (place_count p e g Hlen ltac:(lia) He) as [Hlen' Hc'].
    rewrite IH; [rewrite Hc'; simpl; lia|exact Hlen'|rewrite Hc'; lia|exact Hes].
Qed.

Lemma explosions_pool g : explosions g = pool_of Explosions g.
Proof. reflexivity. Qed.
Lemma particles_pool g : particles g = pool_of Particles g.
Proof. reflexivity. Qed.

Lemma deactivated_slot p j g :
  active (slot p j (set_pool p (<[j := deactivate (slot p j g)]> (pool_of p g)) g)) = false.
Proof.
  rewrite slot_insert. destruct (decide _) as [_|Hn]; [reflexivity|].
  rewrite slot_out_of_range; [reflexivity|].
  destruct (decide (j < length (pool_of p g))%nat); [exfalso; apply Hn; auto|lia].
Qed.

Section EnemyDestroyed.
Variable cos sin : float -> float.

(** the destruction of enemy [j], seen from the game *)
Lemma enemyDestroyed_game j w :
  let e := slot Enemies j (game w) in
  let g' := game (exec (enemyDestroyed cos sin j) w) in
  score g' = wrap_int (score (game w) + 100) /\
  active (slot Enemies j g') = false /\
  exists ex es,
    (fresh EXPLOSION (pos e) (Vec2.mk (F32.of_Z 0) (F32.of_Z 0)) ex /\
     width ex = width e /\ height ex = width e /\ health ex = 6) /\
    length es = 8%nat /\
    Forall (fun p => active p = true /\ type p = PARTICLE /\ pos p = pos e) es /\
    explosions g' = pool_of Explosions (place Explosions ex (game w)) /\
    particles g' = pool_of Particles (place_all Particles es (game w)).
Proof.
  intros e g'. unfold g', enemyDestroyed.
  rewrite exec_bind. set (w3 := exec (modify_game _) w).
  rewrite exec_bind.
  change (fst (read Enemies j w3)) with e.
  change (exec (read Enemies j) w3) with w3.
  rewrite exec_bind. set (w4 := exec (spawnExplosion cos sin (pos e) (width e)) w3).
  match goal with
  | |- context [exec ?T w4] => set (tail := T)
  end.
  assert (Hscore : rel (keeps score) tail).
  { assert (blind_to_pool score Powerups) by (intros g k x; reflexivity).
    unfold tail. frame. }
  assert (Hex : rel (keeps (pool_of Explosions)) tail).
  { pose proof (blind_other_pool Explosions Powerups ltac:(discriminate)).
    unfold tail. frame. }
  assert (Hpa : rel (keeps (pool_of Particles)) tail).
  { pose proof (blind_other_pool Particles Powerups ltac:(discriminate)).
    unfold tail. frame. }
  assert (Hlast : exists W, exec tail w4 = exec (modify_slot Enemies j deactivate) W).
  { unfold tail. rewrite !exec_bind. eexists. reflexivity. }
  destruct (spawnExplosion_place cos sin (pos e) (width e) w3)
    as (ex & es & Hfresh & Hw & Hh & Hhp & Hlen & Hall & Hg4).
  fold w4 in Hg4.
  assert (Hs4 : score (game w4) = score (game w3)).
  { apply (spawnExplosion_keeps score cos sin); intros g k x; reflexivity. }
  split; [|split].
  - unfold rel, keeps in Hscore. rewrite Hscore, Hs4. reflexivity.
  - destruct Hlast as [W ->]. rewrite game_modify_slot. apply deactivated_slot.
  - exists ex, es. split; [auto|]. split; [exact Hlen|]. split; [exact Hall|].
    unfold rel, keeps in Hex, Hpa. split.
    + rewrite explosions_pool, Hex, Hg4.
      rewrite place_all_other_pool by discriminate.
      apply place_pool_ext. reflexivity.
    + rewrite particles_pool, Hpa, Hg4.
      apply place_all_pool_ext.
      rewrite place_other_pool by discriminate. reflexivity.
Qed.
End EnemyDestroyed.

(** C6.  When an active player bullet's scan stops at an active enemy with
    health 10 (and the score can take 100 more, the arrays have their
    sizes, one explosion slot and eight particle slots are free), then
    after the scan: the bullet is inactive; the enemy's health is 0 and it
    is inactive; the score is 100 higher; the explosion pool holds exactly
    one more active entity, an explosion of the enemy's width stored at
    the enemy's position in the first free slot; the particle pool holds
    exactly eight more, particles stored at the enemy's position. *)
Theorem lethal_hit (cos sin : float -> float) (w : World) (i j0 : nat) :
  active (slot PlayerBullets i (game w)) = true ->
  (j0 < MAX_ENEMIES)%nat ->
  hits i j0 (game w) = true ->
  (forall j, (j < j0)%nat -> hits i j (game w) = false) ->
  health (slot Enemies j0 (game w)) = 10 ->
  INT_MIN <= score (game w) <= INT_MAX - 100 ->
  well_sized (game w) ->
  (count_active (explosions (game w)) < MAX_EXPLOSIONS)%nat ->
  (count_active (particles (game w)) + 8 <= MAX_PARTICLES)%nat ->
  let e0 := slot Enemies j0 (game w) in
  let g' := game (exec (bulletVsEnemies cos sin i) w) in
  active (slot PlayerBullets i g') = false /\
  health (slot Enemies j0 g') = 0 /\
  active (slot Enemies j0 g') = false /\
  score g' = score (game w) + 100 /\
  count_active (explosions g') = (count_active (explosions (game w)) + 1)%nat /\
  count_active (particles g') = (count_active (particles (game w)) + 8)%nat /\
  exists ex es,
    (fresh EXPLOSION (pos e0) (Vec2.mk (F32.of_Z 0) (F32.of_Z 0)) ex /\
     width ex = width e0) /\
    length es = 8%nat /\
    Forall (fun p => active p = true /\ type p = PARTICLE /\ pos p = pos e0) es /\
    explosions g' = pool_of Explosions (place Explosions ex (game w)) /\
    particles g' = pool_of Particles (place_all Particles es (game w)).
Proof.
  intros Hb Hj Hhit Hfirst Hhp Hscore Hsz Hfree_ex Hfree_pa e0 g'.
  assert (Hscan : g' = game (exec (bulletHitsEnemy cos sin i j0) w)).
  { unfold g', exec at 1.
    rewrite (bulletVsEnemies_first cos sin i j0 w Hj Hhit Hfirst). reflexivity. }
  pose proof (hit_deactivates_bullet cos sin i j0 w) as Hbullet.
  pose proof (hit_takes_ten cos sin i j0 w (hits_enemy_active _ _ _ Hhit)) as Hhealth.
  rewrite <- Hscan in Hbullet, Hhealth. rewrite Hhp in Hhealth.
  change (wrap_int (10 - 10)) with 0 in Hhealth.
  split; [exact Hbullet|]. split; [exact Hhealth|].
  pose proof (active_in_range _ _ _ (hits_enemy_active _ _ _ Hhit)) as Hin.
  (* the state after the two writes, and the destruction that follows *)
  assert (Hg' : g' = game (exec (enemyDestroyed cos sin j0)
                  (exec (modify_slot Enemies j0 (fun e => set_health (wrap_int (health e - 10)) e))
                     (exec (modify_slot PlayerBullets i deactivate) w)))).
  { unfold g', exec at 1.
    rewrite (bulletVsEnemies_first cos sin i j0 w Hj Hhit Hfirst). cbn [snd].
    rewrite bulletHitsEnemy_exec. cbv zeta.
    rewrite hit_writes_enemy.
    destruct (decide _) as [_|Hn]; [|exfalso; apply Hn; auto].
    change (health (set_health ?h ?e)) with h. rewrite Hhp. reflexivity. }
  set (w2 := exec (modify_slot Enemies j0 _) _) in Hg'.
  assert (He2 : slot Enemies j0 (game w2)
                = set_health (wrap_int (health e0 - 10)) e0).
  { unfold w2. rewrite hit_writes_enemy.
    destruct (decide _) as [_|Hn]; [reflexivity|exfalso; apply Hn; auto]. }
  assert (Hsc2 : score (game w2) = score (game w)) by reflexivity.
  assert (Hex2 : pool_of Explosions (game w2) = pool_of Explosions (game w)) by reflexivity.
  assert (Hpa2 : pool_of Particles (game w2) = pool_of Particles (game w)) by reflexivity.
  destruct (enemyDestroyed_game cos sin j0 w2)
    as (Hsc & Hact & ex & es & (Hfresh & Hw & _ & _) & Hlen & Hall & Hex & Hpa).
  rewrite <- Hg' in Hsc, Hact, Hex, Hpa. rewrite He2 in Hfresh, Hw, Hall.
  change (pos (set_health ?h e0)) with (pos e0) in Hfresh, Hall.
  change (width (set_health ?h e0)) with (width e0) in Hw.
  rewrite (place_pool_ext Explosions ex (game w2) (game w) Hex2) in Hex.
  rewrite (place_all_pool_ext Particles es (game w2) (game w) Hpa2) in Hpa.
  split; [exact Hact|].
  split; [rewrite Hsc, Hsc2; apply wrap_int_id; lia|].
  split; [|split].
  - rewrite Hex.
    destruct (place_count Explosions ex (game w) (Hsz Explosions) Hfree_ex
                ltac:(apply Hfresh)) as [_ Hc].
    rewrite Hc, <- explosions_pool. lia.
  - rewrite Hpa.
    rewrite (place_all_count Particles es (game w) (Hsz Particles)).
    + rewrite Hlen, <- particles_pool. reflexivity.
    + rewrite Hlen, <- particles_pool. exact Hfree_pa.
    + eapply Forall_impl; [exact Hall|]. intros p Hp. apply Hp.
  - exists ex, es. auto.
Qed.

(** The crossfire again: enemy 2 has exactly 10 hit points. *)
Lemma lethal_hit_witness :
  let g := game crossfire_world in
  let g' := game (exec (bulletVsEnemies libm_cos libm_sin 0) crossfire_world) in
  active (slot PlayerBullets 0 g') = false /\
  health (slot Enemies 2 g') = 0 /\
  active (slot Enemies 2 g') = false /\
  score g' = 100 /\
  count_active (explosions g') = 1%nat /\
  count_active (particles g') = 8%nat.
Proof.
  intros g g'.
  assert (Hj : (2 < MAX_ENEMIES)%nat) by (unfold MAX_ENEMIES; lia).
  assert (Hfirst : forall j, (j < 2)%nat -> hits 0 j g = false).
  { intros j Hlt. destruct j as [|[|j]]; [reflexivity|reflexivity|lia]. }
  assert (Hscore : INT_MIN <= score g <= INT_MAX - 100) by (vm_compute; split; discriminate).
  assert (Hsz : well_sized g) by (intros p; destruct p; reflexivity).
  assert (Hex : (count_active (explosions g) < MAX_EXPLOSIONS)%nat) by (vm_compute; lia).
  assert (Hpa : (count_active (particles g) + 8 <= MAX_PARTICLES)%nat) by (vm_compute; lia).
  destruct (lethal_hit libm_cos libm_sin crossfire_world 0 2
              eq_refl Hj eq_refl Hfirst eq_refl Hscore Hsz Hex Hpa)
    as (H1 & H2 & H3 & H4 & H5 & H6 & _).
  split; [exact H1|]. split; [exact H2|]. split; [exact H3|].
  split; [exact H4|]. split; [exact H5|exact H6].
Defined.

(* ===================================================================== *)
(** * Invariants of the running program *)
(* ===================================================================== *)

#[global] Instance carries_refl (I : Game -> Prop) : Reflexive (carries I).
Proof. intros g H. exact H. Qed.
#[global] Instance carries_trans (I : Game -> Prop) : Transitive (carries I).
Proof. intros x y z H1 H2 H. apply H2, H1, H. Qed.

(** A statement that keeps an observation carries every condition that
    is read off that observation. *)
Lemma carries_of_keeps {A B} (proj : Game -> A) (I : Game -> Prop) (m : M B) :
  (forall g g', proj g' = proj g -> I g -> I g') ->
  rel (keeps proj) m -> rel (carries I) m.
Proof. intros HI Hk w H. apply (HI (game w)); [apply Hk|exact H]. Qed.

Lemma startGame_game w :
  game (exec startGame w) = set_state PLAYING (game (exec init w)).
Proof. unfold startGame. rewrite exec_bind. apply game_modify_game. Qed.

(** A condition that [init] establishes, that entering the Playing state
    does not break and that a Playing update carries holds in every state
    the program reaches. *)
Lemma reachable_invariant (I : Game -> Prop) cos sin :
  (forall w, I (game (exec init w))) ->
  (forall g, I g -> I (set_state PLAYING g)) ->
  rel (carries I) (updatePlaying cos sin) ->
  forall w, reachable cos sin w -> I (game w).
Proof.
  intros Hinit Hplay Hupd w Hr.
  induction Hr as [clock rng|w touch Hr IH].
  - unfold setup. rewrite exec_bind. apply Hinit.
  - destruct (loop_game cos sin touch w) as [E|(w1 & E1 & E)]; rewrite E; [exact IH|].
    rewrite <- E1 in IH. clear E E1.
    unfold update. rewrite !exec_bind.
    change (fst (get_game w1)) with (game w1).
    change (exec get_game w1) with w1.
    change (fst (get_input w1)) with (input w1).
    change (exec get_input w1) with w1.
    destruct (state (game w1)).
    + destruct (InputSystem.isTouching (input w1)); [|exact IH].
      cbn [when]. rewrite startGame_game. apply Hplay, Hinit.
    + apply Hupd. exact IH.
    + destruct (InputSystem.isTouching (input w1)); [|exact IH].
      cbn [when]. rewrite startGame_game. apply Hplay, Hinit.
Qed.

(** the side conditions of the frame lemmas, for an observation that
    plainly does not mention what is written *)
Ltac blind :=
  first [ let p := fresh "p" in intros p ? ? ?; destruct p; reflexivity
        | intros ? ? ?; reflexivity
        | intros ? ?; reflexivity ].

Section PhaseFrames.
Context {A : Type} (proj : Game -> A).
Variable cos sin : float -> float.
Hypothesis Hpool : forall p, blind_to_pool proj p.
Hypothesis Hlives : blind_to proj set_lives.

Lemma collideEnemyBulletsPlayer_keeps :
  rel (keeps proj) (collideEnemyBulletsPlayer cos sin).
Proof. unfold collideEnemyBulletsPlayer. frame. Qed.

Lemma collideEnemiesPlayer_keeps :
  rel (keeps proj) (collideEnemiesPlayer cos sin).
Proof. unfold collideEnemiesPlayer. frame. Qed.

Hypothesis Hweapon : blind_to proj set_playerWeaponLevel.

Lemma collidePowerupsPlayer_keeps : rel (keeps proj) collidePowerupsPlayer.
Proof. unfold collidePowerupsPlayer. frame. Qed.
End PhaseFrames.

(** ** The weapon level *)

Lemma collidePowerupsPlayer_weapon : rel (carries weapon_ok) collidePowerupsPlayer.
Proof.
  unfold collidePowerupsPlayer. apply rel_for_range. intros i.
  apply rel_bind; [apply rel_read|intros p].
  destruct (negb (active p)); [apply rel_ret|].
  apply rel_bind; [apply rel_get_game|intros g].
  apply rel_bind; [|intros; apply rel_ret].
  apply rel_when.
  apply rel_bind;
    [|intros _; apply rel_bind;
        [apply rel_sound_play
        |intros _; apply rel_modify_slot; intros g0 e H; exact H]].
  destruct (EntityType_eqb (type p) POWERUP_WEAPON).
  - apply rel_modify_game. intros g0. unfold carries, weapon_ok.
    change (playerWeaponLevel (set_playerWeaponLevel ?x g0)) with x.
    intros H. pose proof INT_bounds. rewrite wrap_int_id by lia.
    unfold min_int. destruct (playerWeaponLevel g0 + 1 <? 3) eqn:E; lia.
  - destruct (EntityType_eqb (type p) POWERUP_HEALTH); [|apply rel_ret].
    apply rel_modify_game. intros g0 H. exact H.
Qed.

Lemma weapon_carried {B} (m : M B) :
  rel (keeps playerWeaponLevel) m -> rel (carries weapon_ok) m.
Proof.
  apply carries_of_keeps. unfold weapon_ok. intros g g' E H. rewrite E. exact H.
Qed.

Lemma updatePlaying_weapon cos sin : rel (carries weapon_ok) (updatePlaying cos sin).
Proof.
  pose proof (weapon_carried _ (updatePlayer_keeps playerWeaponLevel
                ltac:(blind) ltac:(blind) ltac:(blind))).
  pose proof (weapon_carried _ (spawnWave_keeps playerWeaponLevel
                ltac:(blind) ltac:(blind))).
  pose proof (weapon_carried _ (updateEnemies_keeps playerWeaponLevel ltac:(blind))).
  pose proof (weapon_carried _ (updateBullets_keeps playerWeaponLevel ltac:(blind))).
  pose proof (weapon_carried _ (updatePowerups_keeps playerWeaponLevel ltac:(blind))).
  pose proof (weapon_carried _ (updateExplosions_keeps playerWeaponLevel ltac:(blind))).
  pose proof (weapon_carried _ (updateParticles_keeps playerWeaponLevel ltac:(blind))).
  pose proof (weapon_carried _ (collideBulletsEnemies_keeps playerWeaponLevel cos sin
                ltac:(blind) ltac:(blind))).
  pose proof (weapon_carried _ (collideEnemyBulletsPlayer_keeps playerWeaponLevel cos sin
                ltac:(blind) ltac:(blind))).
  pose proof (weapon_carried _ (collideEnemiesPlayer_keeps playerWeaponLevel cos sin
                ltac:(blind) ltac:(blind))).
  pose proof collidePowerupsPlayer_weapon.
  unfold updatePlaying, checkCollisions. frame.
  all: apply rel_modify_game; intros g; unfold carries, weapon_ok;
    repeat match goal with |- context [if ?b then _ else _] => destruct b end;
    intros Hg; exact Hg.
Qed.

(** X1.  In every reachable state the weapon level is 1, 2 or 3: [init]
    sets it to 1 and a weapon pickup raises it by one, stopping at 3. *)
Theorem weapon_level_bounds (cos sin : float -> float) (w : World) :
  reachable cos sin w -> 1 <= playerWeaponLevel (game w) <= 3.
Proof.
  revert w. apply (reachable_invariant weapon_ok).
  - intros w. destruct (init_scalars w) as (_ & _ & _ & _ & H).
    unfold weapon_ok. rewrite H. lia.
  - intros g H. exact H.
  - apply updatePlaying_weapon.
Qed.

(** The hunt.  After 41 frames the level is still 1; the first weapon
    powerup is picked up in frame 42 and the second in frame 43, which
    brings the level to 3; further pickups leave it there (frame 60, by
    when 1300 points have been scored). *)
Lemma weapon_level_bounds_witness :
  (playerWeaponLevel (game (hunt 41)) = 1 /\ playerWeaponLevel (game (hunt 42)) = 2 /\
   playerWeaponLevel (game (hunt 43)) = 3 /\ playerWeaponLevel (game (hunt 60)) = 3) /\
  1 <= playerWeaponLevel (game (hunt 42)) <= 3 /\
  1 <= playerWeaponLevel (game (hunt 43)) <= 3 /\
  1 <= playerWeaponLevel (game (hunt 60)) <= 3.
Proof.
  split.
  - split; [|split; [|split]]; vm_compute; reflexivity.
  - split; [|split];
      exact (weapon_level_bounds libm_cos libm_sin _ (hunt_reachable _)).
Defined.

(** ** The player's ship stays in the field *)









Lemma drift_reachable n : reachable libm_cos libm_sin (drift n).
Proof.
  induction n as [|n IH]; [apply reach_setup|].
  apply (reach_loop libm_cos libm_sin (drift n) (Some (10, 250)) IH).
Qed.


(** ** Every array holds its own kinds of entity *)

#[global] Instance Pool_eq_dec : EqDecision Pool.
Proof. solve_decision. Defined.

Lemma kinds_ok_ext g g' :
  (forall p, pool_of p g' = pool_of p g) -> kinds_ok g -> kinds_ok g'.
Proof.
  intros E H p i Hi. unfold slot. rewrite (E p). apply (H p i Hi).
Qed.

(** a write that changes neither the kind of the entity in the slot nor
    brings it to life *)
Lemma kinds_modify p i f g :
  (forall e, type (f e) = type e /\ (active (f e) = true -> active e = true)) ->
  kinds_ok g -> kinds_ok (set_pool p (<[i := f (slot p i g)]> (pool_of p g)) g).
Proof.
  intros Hf H q k Hk. destruct (decide (q = p)) as [->|Hne].
  - rewrite slot_insert. destruct (decide _) as [[-> _]|_]; [|apply H; exact Hk].
    destruct (Hf (slot p i g)) as [Ht Ha]. rewrite Ht. intros Hact. apply H; auto.
  - rewrite slot_set_other_pool by exact Hne. apply H. exact Hk.
Qed.

Lemma kinds_place p e g :
  kind_ok p (type e) = true -> kinds_ok g -> kinds_ok (place p e g).
Proof.
  intros He H q k Hk. unfold place. destruct (free_slot p g) as [j|]; [|apply H; exact Hk].
  destruct (decide (q = p)) as [->|Hne].
  - rewrite slot_insert. destruct (decide _) as [_|_]; [intros _; exact He|apply H; exact Hk].
  - rewrite slot_set_other_pool by exact Hne. apply H. exact Hk.
Qed.

Lemma kinds_place_all p es : forall g,
  Forall (fun e => kind_ok p (type e) = true) es ->
  kinds_ok g -> kinds_ok (place_all p es g).
Proof.
  induction es as [|e es IH]; intros g Hall H; [exact H|].
  inversion Hall; subst.
  change (place_all p (e :: es) g) with (place_all p es (place p e g)).
  apply IH; [assumption|]. apply kinds_place; assumption.
Qed.

Section Kinds.
Variable cos sin : float -> float.

Lemma spawnEnemy_kinds t ps v :
  kind_ok Enemies t = true -> rel (carries kinds_ok) (spawnEnemy t ps v).
Proof.
  intros Ht w. destruct (spawnEnemy_place t ps v w) as (e & (_ & He & _) & ->).
  intros H. apply kinds_place; [rewrite He; exact Ht|exact H].
Qed.

Lemma spawnPlayerBullet_kinds ps v : rel (carries kinds_ok) (spawnPlayerBullet ps v).
Proof.
  intros w. destruct (spawnPlayerBullet_place ps v w) as (e & (_ & He & _) & ->).
  intros H. apply kinds_place; [rewrite He; reflexivity|exact H].
Qed.

Lemma spawnEnemyBullet_kinds ps v : rel (carries kinds_ok) (spawnEnemyBullet ps v).
Proof.
  intros w. destruct (spawnEnemyBullet_place ps v w) as (e & (_ & He & _) & ->).
  intros H. apply kinds_place; [rewrite He; reflexivity|exact H].
Qed.

Lemma spawnPowerup_kinds ps t :
  kind_ok Powerups t = true -> rel (carries kinds_ok) (spawnPowerup ps t).
Proof.
  intros Ht w. destruct (spawnPowerup_place ps t w) as (e & (_ & He & _) & ->).
  intros H. apply kinds_place; [rewrite He; exact Ht|exact H].
Qed.

Lemma spawnExplosion_kinds ps size :
  rel (carries kinds_ok) (spawnExplosion cos sin ps size).
Proof.
  intros w. destruct (spawnExplosion_place cos sin ps size w)
    as (e & es & (_ & He & _) & _ & _ & _ & _ & Hall & ->).
  intros H. apply kinds_place_all.
  - eapply Forall_impl; [exact Hall|]. intros x (_ & Hx & _). rewrite Hx. reflexivity.
  - apply kinds_place; [rewrite He; reflexivity|exact H].
Qed.
End Kinds.

(** what [frame] leaves over for [kinds_ok]: writes of fields other than
    [type] and [active := true], and assignments to the counters *)
Ltac kinds_leaf :=
  lazymatch goal with
  | |- rel _ (modify_slot _ _ _) =>
      let g := fresh "g" in let e := fresh "e" in let Ha := fresh "Ha" in
      apply rel_modify_slot_f; intros g; unfold carries; apply kinds_modify; intros e;
      split; [reflexivity|cbn; intros Ha; solve [exact Ha | discriminate Ha]]
  | |- rel _ (modify_game _) =>
      let g := fresh "g" in let p := fresh "p" in
      apply rel_modify_game; intros g; unfold carries; apply kinds_ok_ext; intros p;
      repeat match goal with |- context [if ?b then _ else _] => destruct b end;
      destruct p; reflexivity
  end.

Section KindsRun.
Variable cos sin : float -> float.

Lemma spawnWave_kinds : rel (carries kinds_ok) spawnWave.
Proof.
  unfold spawnWave.
  apply rel_bind; [apply rel_millis|intros t0].
  apply rel_bind; [apply rel_get_game|intros g].
  apply rel_when.
  apply rel_bind; [apply rel_random|intros d].
  pose proof (chooseEnemy_cases d) as (Hfast & Hbasic & _).
  assert (Hk : kind_ok Enemies (fst (chooseEnemy d)) = true).
  { destruct (Z_le_gt_dec d 70) as [Hle|Hgt].
    - rewrite (Hbasic Hle). reflexivity.
    - rewrite (Hfast ltac:(lia)). reflexivity. }
  destruct (chooseEnemy d) as [ty speed]. cbn [fst] in Hk.
  pose proof (spawnEnemy_kinds ty) as Hs.
  frame. kinds_leaf.
Qed.

Lemma updatePlayer_kinds : rel (carries kinds_ok) updatePlayer.
Proof.
  pose proof spawnPlayerBullet_kinds.
  unfold updatePlayer. frame. all: kinds_leaf.
Qed.

Lemma updateEnemies_kinds : rel (carries kinds_ok) updateEnemies.
Proof.
  pose proof spawnEnemyBullet_kinds.
  unfold updateEnemies. frame. all: kinds_leaf.
Qed.

Lemma updateBullets_kinds : rel (carries kinds_ok) updateBullets.
Proof. unfold updateBullets. frame. all: kinds_leaf. Qed.

Lemma updatePowerups_kinds : rel (carries kinds_ok) updatePowerups.
Proof. unfold updatePowerups. frame. all: kinds_leaf. Qed.

Lemma updateExplosions_kinds : rel (carries kinds_ok) updateExplosions.
Proof. unfold updateExplosions. frame. all: kinds_leaf. Qed.

Lemma updateParticles_kinds : rel (carries kinds_ok) updateParticles.
Proof. unfold updateParticles. frame. all: kinds_leaf. Qed.

Lemma enemyDestroyed_kinds j : rel (carries kinds_ok) (enemyDestroyed cos sin j).
Proof.
  pose proof (spawnExplosion_kinds cos sin).
  assert (Hp : forall ps k,
    rel (carries kinds_ok)
        (spawnPowerup ps (if k =? 0 then POWERUP_WEAPON else POWERUP_HEALTH))).
  { intros ps k. apply spawnPowerup_kinds. destruct (k =? 0); reflexivity. }
  unfold enemyDestroyed. frame. all: kinds_leaf.
Qed.

Lemma checkCollisions_kinds : rel (carries kinds_ok) (checkCollisions cos sin).
Proof.
  pose proof enemyDestroyed_kinds. pose proof (spawnExplosion_kinds cos sin).
  unfold checkCollisions, collideBulletsEnemies, bulletVsEnemies, bulletHitsEnemy,
    collideEnemyBulletsPlayer, collideEnemiesPlayer, collidePowerupsPlayer.
  frame. all: kinds_leaf.
Qed.

Lemma updatePlaying_kinds : rel (carries kinds_ok) (updatePlaying cos sin).
Proof.
  pose proof spawnWave_kinds. pose proof updatePlayer_kinds.
  pose proof updateEnemies_kinds. pose proof updateBullets_kinds.
  pose proof updatePowerups_kinds. pose proof updateExplosions_kinds.
  pose proof updateParticles_kinds. pose proof checkCollisions_kinds.
  unfold updatePlaying. frame. all: kinds_leaf.
Qed.
End KindsRun.

(** X3.  In every reachable state each active slot of an array holds an
    entity of that array's kinds: basic or fast enemies, player bullets,
    enemy bullets, weapon or health powerups, explosions, particles.  In
    particular no active enemy is ever a tank. *)
Theorem pools_hold_their_kinds (cos sin : float -> float) (w : World) :
  reachable cos sin w ->
  (forall p i, (i < capacity p)%nat -> active (slot p i (game w)) = true ->
     kind_ok p (type (slot p i (game w))) = true) /\
  (forall i, (i < MAX_ENEMIES)%nat -> active (slot Enemies i (game w)) = true ->
     type (slot Enemies i (game w)) <> ENEMY_TANK).
Proof.
  intros Hr.
  assert (H : kinds_ok (game w)).
  { revert w Hr. apply (reachable_invariant kinds_ok).
    - intros w p i Hi Hact. rewrite init_pools in Hact by exact Hi. discriminate Hact.
    - intros g. apply kinds_ok_ext. intros p. destruct p; reflexivity.
    - apply updatePlaying_kinds. }
  split; [exact H|].
  intros i Hi Hact Ht. specialize (H Enemies i Hi Hact). rewrite Ht in H. discriminate H.
Qed.

(** Eighty frames into the duel a fast enemy is alive in slot 0. *)
Lemma pools_hold_their_kinds_witness :
  active (slot Enemies 0 (game (duel 80))) = true /\
  type (slot Enemies 0 (game (duel 80))) = ENEMY_FAST /\
  type (slot Enemies 0 (game (duel 80))) <> ENEMY_TANK.
Proof.
  assert (Ha : active (slot Enemies 0 (game (duel 80))) = true) by (vm_compute; reflexivity).
  split; [exact Ha|]. split; [vm_compute; reflexivity|].
  apply (proj2 (pools_hold_their_kinds libm_cos libm_sin (duel 80) (duel_reachable 80)) 0%nat).
  - unfold MAX_ENEMIES. lia.
  - exact Ha.
Defined.

(* ===================================================================== *)
(** * The game state machine *)
(* ===================================================================== *)

Lemma update_exec cos sin w :
  exec (update cos sin) w =
  match state (game w) with
  | TITLE | GAME_OVER =>
      if InputSystem.isTouching (input w) then exec startGame w else w
  | PLAYING => exec (updatePlaying cos sin) w
  end.
Proof.
  unfold update. rewrite !exec_bind.
  change (fst (get_game w)) with (game w).
  change (exec get_game w) with w.
  change (fst (get_input w)) with (input w).
  change (exec get_input w) with w.
  destruct (state (game w)); try reflexivity;
    destruct (InputSystem.isTouching (input w)); reflexivity.
Qed.

(** a Playing update ends in Game-Over exactly when no life is left *)
Lemma updatePlaying_state cos sin :
  rel (fun g g' => state g = PLAYING ->
         state g' = if lives g' <=? 0 then GAME_OVER else PLAYING)
      (updatePlaying cos sin).
Proof.
  unfold updatePlaying.
  set (R := fun g g' : Game => state g = PLAYING ->
         state g' = if lives g' <=? 0 then GAME_OVER else PLAYING).
  do 2 (eapply (rel_seq (keeps state) R R);
        [apply rel_modify_game; frame_leaf
        |intros _|intros x y z H1 H2; unfold R, keeps in *; intros H; apply H2; rewrite H1; exact H]).
  eapply (rel_seq (keeps state) R R); [| |intros x y z H1 H2; unfold R, keeps in *; intros H; apply H2; rewrite H1; exact H].
  { apply updatePlayer_keeps; blind. }
  intros _.
  eapply (rel_seq (keeps state) R R); [| |intros x y z H1 H2; unfold R, keeps in *; intros H; apply H2; rewrite H1; exact H].
  { apply spawnWave_keeps; blind. }
  intros _.
  eapply (rel_seq (keeps state) R R); [| |intros x y z H1 H2; unfold R, keeps in *; intros H; apply H2; rewrite H1; exact H].
  { apply updateEnemies_keeps; blind. }
  intros _.
  eapply (rel_seq (keeps state) R R); [| |intros x y z H1 H2; unfold R, keeps in *; intros H; apply H2; rewrite H1; exact H].
  { apply updateBullets_keeps; blind. }
  intros _.
  eapply (rel_seq (keeps state) R R); [| |intros x y z H1 H2; unfold R, keeps in *; intros H; apply H2; rewrite H1; exact H].
  { apply updatePowerups_keeps; blind. }
  intros _.
  eapply (rel_seq (keeps state) R R); [| |intros x y z H1 H2; unfold R, keeps in *; intros H; apply H2; rewrite H1; exact H].
  { apply updateExplosions_keeps; blind. }
  intros _.
  eapply (rel_seq (keeps state) R R); [| |intros x y z H1 H2; unfold R, keeps in *; intros H; apply H2; rewrite H1; exact H].
  { apply updateParticles_keeps; blind. }
  intros _.
  eapply (rel_seq (keeps state) R R); [| |intros x y z H1 H2; unfold R, keeps in *; intros H; apply H2; rewrite H1; exact H].
  { apply checkCollisions_keeps; blind. }
  intros _.
  apply rel_modify_game. intros g. unfold R. intros Hst.
  destruct (lives g <=? 0) eqn:E.
  - change (lives (set_state GAME_OVER g)) with (lives g). rewrite E. reflexivity.
  - rewrite E. exact Hst.
Qed.

(** X4.  One [update]: in Title and in Game-Over nothing at all happens
    without a touch, and a touch restarts the game in the Playing state; in
    Playing the state afterwards is Game-Over if the lives counter is then
    0 or less and Playing otherwise.  There is no other transition, and a
    call of [loop] without a touch leaves the game untouched outside
    Playing. *)
Theorem game_state_machine (cos sin : float -> float) (w : World) :
  let w' := exec (update cos sin) w in
  (state (game w) <> PLAYING ->
     if InputSystem.isTouching (input w)
     then w' = exec startGame w /\ state (game w') = PLAYING
     else w' = w) /\
  (state (game w) = PLAYING ->
     state (game w') = if lives (game w') <=? 0 then GAME_OVER else PLAYING) /\
  (state (game w) <> PLAYING ->
     game (exec (loop cos sin None) w) = game w).
Proof.
  intros w'. split; [|split].
  - intros Hst. unfold w'. rewrite update_exec.
    destruct (state (game w)); [|congruence|];
      (destruct (InputSystem.isTouching (input w)); [|reflexivity];
       split; [reflexivity|]; rewrite startGame_game; reflexivity).
  - intros Hst. unfold w'. rewrite update_exec, Hst.
    apply (updatePlaying_state cos sin w Hst).
  - intros Hst. rewrite loop_exec. cbv zeta.
    set (w1 := exec millis w). set (t := fst (millis w)).
    assert (H1 : game w1 = game w) by reflexivity.
    destruct (wrap_ulong (t - lastFrame w1) >=? FRAME_TIME); [|exact H1].
    rewrite !exec_bind.
    set (w2 := exec (input_update None) w1).
    assert (H2 : game w2 = game w1) by reflexivity.
    assert (Hin : InputSystem.isTouching (input w2) = false) by reflexivity.
    assert (E : exec (update cos sin) w2 = w2).
    { rewrite update_exec, Hin, H2, H1.
      destruct (state (game w)); [reflexivity|congruence|reflexivity]. }
    rewrite E.
    change (game (exec (fun w' => (tt, with_lastFrame t w')) (exec sound_update w2)))
      with (game (exec sound_update w2)).
    rewrite game_sound_update, H2. exact H1.
Qed.

(** A lost game with a finger on the panel restarts; without a touch,
    [loop] leaves it as it is. *)
Lemma game_state_machine_witness :
  state (game (exec (update libm_cos libm_sin) game_over_world)) = PLAYING /\
  game (exec (loop libm_cos libm_sin None) game_over_world) = game game_over_world.
Proof.
  assert (Hst : state (game game_over_world) <> PLAYING) by discriminate.
  destruct (game_state_machine libm_cos libm_sin game_over_world) as (H1 & _ & H3).
  specialize (H1 Hst).
  change (InputSystem.isTouching (input game_over_world)) with true in H1.
  split; [apply H1|apply H3; exact Hst].
Defined.

(* ===================================================================== *)
(** * Firing *)
(* ===================================================================== *)

Lemma spawnPlayerBullet_pool ps v w :
  exists e, fresh BULLET_PLAYER ps v e /\
    game (exec (spawnPlayerBullet ps v) w) = place PlayerBullets e (game w) /\
    lastPlayerShot (game (exec (spawnPlayerBullet ps v) w)) = lastPlayerShot (game w).
Proof.
  destruct (spawnPlayerBullet_place ps v w) as (e & He & Hg).
  exists e. split; [exact He|]. split; [exact Hg|].
  apply (spawnPlayerBullet_keeps lastPlayerShot ps v); blind.
Qed.

(** X5.  [updatePlayer] spawns player bullets only when the fire button
    is down and more than 150 ms have passed since the last shot;
    otherwise the bullet array and the time of the last shot are as they
    were.  When it fires it spawns, in order, the bullets of the weapon
    level's pattern at the player's new position: one straight up at
    level 1, two side by side (8 to the left and right) at level 2, and at
    any other level three, the outer two drifting 1 per frame outwards.
    With three free slots the number of active bullets grows by exactly
    the size of the pattern. *)
Theorem fire_pattern (w : World) :
  let g := game w in
  let g' := game (exec updatePlayer w) in
  (fire_due w = false ->
     playerBullets g' = playerBullets g /\ lastPlayerShot g' = lastPlayerShot g) /\
  (fire_due w = true ->
     exists es,
       Forall2 (fun e s => fresh BULLET_PLAYER (fst s) (snd s) e) es
               (shots (playerWeaponLevel g) (pos (player g'))) /\
       playerBullets g' = pool_of PlayerBullets (place_all PlayerBullets es g) /\
       (length (playerBullets g) = MAX_PLAYER_BULLETS ->
        (count_active (playerBullets g) + 3 <= MAX_PLAYER_BULLETS)%nat ->
        count_active (playerBullets g') =
        (count_active (playerBullets g)
         + length (shots (playerWeaponLevel g) (pos (player g'))))%nat)).
Proof.
  intros g g'.
  (* the movement part, then the shooting part *)
  assert (Hsplit : exists w4 : World,
    input w4 = input w /\ now w4 = now w /\
    pool_of PlayerBullets (game w4) = pool_of PlayerBullets g /\
    lastPlayerShot (game w4) = lastPlayerShot g /\
    playerWeaponLevel (game w4) = playerWeaponLevel g /\
    exec updatePlayer w =
    if InputSystem.firePressed (input w4) then
      if wrap_ulong (now w4 - lastPlayerShot (game w4)) >? 150 then
        exec (sound_play SoundSystem.SHOOT ;;
              g <- get_game ;;
              (let ppos := pos (player g) in
               (if playerWeaponLevel g =? 1 then
                  spawnPlayerBullet ppos (Vec2.mk (F32.of_Z 0) (F32.of_Z (-8)))
                else if playerWeaponLevel g =? 2 then
                  spawnPlayerBullet (Vec2.add ppos (Vec2.mk (F32.of_Z (-8)) (F32.of_Z 0)))
                                    (Vec2.mk (F32.of_Z 0) (F32.of_Z (-8))) ;;
                  spawnPlayerBullet (Vec2.add ppos (Vec2.mk (F32.of_Z 8) (F32.of_Z 0)))
                                    (Vec2.mk (F32.of_Z 0) (F32.of_Z (-8)))
                else
                  spawnPlayerBullet ppos (Vec2.mk (F32.of_Z 0) (F32.of_Z (-8))) ;;
                  spawnPlayerBullet (Vec2.add ppos (Vec2.mk (F32.of_Z (-8)) (F32.of_Z 0)))
                                    (Vec2.mk (F32.of_Z (-1)) (F32.of_Z (-8))) ;;
                  spawnPlayerBullet (Vec2.add ppos (Vec2.mk (F32.of_Z 8) (F32.of_Z 0)))
                                    (Vec2.mk (F32.of_Z 1) (F32.of_Z (-8)))) ;;
               t <- millis ;;
               modify_game (set_lastPlayerShot t)))
             (exec millis w4)
      else exec millis w4
    else w4).
  { unfold updatePlayer. do 5 rewrite exec_bind.
    change (fst (get_input w)) with (input w).
    change (exec get_input w) with w.
    match goal with
    | |- context [exec (modify_game ?f4) (exec (modify_game ?f3)
                    (exec (modify_game ?f2) (exec (modify_game ?f1) w)))] =>
        set (w4 := exec (modify_game f4) (exec (modify_game f3)
                     (exec (modify_game f2) (exec (modify_game f1) w))))
    end.
    exists w4. do 5 (split; [reflexivity|]).
    change (input w4) with (input w).
    destruct (InputSystem.firePressed (input w)); [|reflexivity].
    do 2 rewrite exec_bind.
    change (fst (get_game (exec millis w4))) with (game w4).
    change (exec get_game (exec millis w4)) with (exec millis w4).
    change (fst (millis w4)) with (now w4).
    destruct (wrap_ulong (now w4 - lastPlayerShot (game w4)) >? 150); reflexivity. }
  destruct Hsplit as (w4 & Hin & Hnow & Hpool & Hlast & Hlevel & Hexec).
  assert (Hdue : fire_due w =
            InputSystem.firePressed (input w4)
            && (wrap_ulong (now w4 - lastPlayerShot (game w4)) >? 150)).
  { unfold fire_due. rewrite Hin, Hnow, Hlast. reflexivity. }
  unfold g'. rewrite Hexec, Hdue. clear Hexec Hdue.
  destruct (InputSystem.firePressed (input w4)); cbn [andb].
  2: { split; [intros _|discriminate]. split; [exact Hpool|exact Hlast]. }
  destruct (wrap_ulong (now w4 - lastPlayerShot (game w4)) >? 150).
  2: { split; [intros _|discriminate]. split; [exact Hpool|exact Hlast]. }
  split; [discriminate|]. intros _.
  (* the shooting part, from the state [w6] in which the cue has been played *)
  do 2 rewrite exec_bind.
  set (w6 := exec (sound_play SoundSystem.SHOOT) (exec millis w4)).
  assert (Hg6 : game w6 = game w4) by (destruct w4; reflexivity).
  change (fst (get_game w6)) with (game w6).
  change (exec get_game w6) with w6.
  cbv zeta.
  set (lv := playerWeaponLevel (game w6)).
  set (ppos := pos (player (game w6))).
  assert (Hlv : playerWeaponLevel g = lv)
    by (unfold lv; rewrite Hg6; symmetry; exact Hlevel).
  rewrite Hlv. clearbody lv.
  assert (Hfinal : forall (sp : M unit) (es : list Entity),
    game (exec sp w6) = place_all PlayerBullets es (game w6) ->
    Forall2 (fun e s => fresh BULLET_PLAYER (fst s) (snd s) e) es
            (shots (lv) ppos) ->
    let gf := game (exec (sp ;; t <- millis ;; modify_game (set_lastPlayerShot t)) w6) in
    pos (player gf) = ppos ->
    exists es,
      Forall2 (fun e s => fresh BULLET_PLAYER (fst s) (snd s) e) es
              (shots (lv) (pos (player gf))) /\
      playerBullets gf = pool_of PlayerBullets (place_all PlayerBullets es g) /\
      (length (playerBullets g) = MAX_PLAYER_BULLETS ->
       (count_active (playerBullets g) + 3 <= MAX_PLAYER_BULLETS)%nat ->
       count_active (playerBullets gf) =
       (count_active (playerBullets g)
        + length (shots (lv) (pos (player gf))))%nat)).
  { intros sp es Hsp Hes gf Hpos. rewrite Hpos. exists es. split; [exact Hes|].
    assert (Hpb : playerBullets gf = pool_of PlayerBullets (place_all PlayerBullets es g)).
    { unfold gf. do 2 rewrite exec_bind. rewrite game_modify_game.
      change (playerBullets (set_lastPlayerShot ?t ?x)) with (pool_of PlayerBullets x).
      change (game (exec millis (exec sp w6))) with (game (exec sp w6)).
      rewrite Hsp. apply place_all_pool_ext. rewrite Hg6. exact Hpool. }
    split; [exact Hpb|]. intros Hlen Hfree. rewrite Hpb.
    assert (Hn : (length es <= 3)%nat).
    { rewrite (Forall2_length _ _ _ Hes). unfold shots.
      destruct (_ =? 1); [simpl; lia|]. destruct (_ =? 2); simpl; lia. }
    rewrite (place_all_count PlayerBullets es g).
    - rewrite (Forall2_length _ _ _ Hes). reflexivity.
    - exact Hlen.
    - change (pool_of PlayerBullets g) with (playerBullets g).
      unfold capacity. lia.
    - clear -Hes. induction Hes as [|e s es ss He _ IH]; constructor; [apply He|exact IH]. }
  unfold shots in Hfinal |- *. cbv zeta in Hfinal |- *.
  destruct (lv =? 1).
  - destruct (spawnPlayerBullet_pool ppos (Vec2.mk (F32.of_Z 0) (F32.of_Z (-8))) w6)
      as (e1 & He1 & Hg1 & _).
    apply (Hfinal _ [e1]); [exact Hg1|constructor; [exact He1|constructor]|].
    apply (f_equal (fun p : Entity => pos p)).
    apply (rel_bind (R := keeps player)); [apply spawnPlayerBullet_keeps; intros ? ? ?; reflexivity|].
    intros _. frame.
  - destruct (lv =? 2).
    + destruct (spawnPlayerBullet_pool
                  (Vec2.add ppos (Vec2.mk (F32.of_Z (-8)) (F32.of_Z 0)))
                  (Vec2.mk (F32.of_Z 0) (F32.of_Z (-8))) w6) as (e1 & He1 & Hg1 & _).
      match type of Hg1 with game ?w1 = _ => set (w7 := w1) in * end.
      destruct (spawnPlayerBullet_pool
                  (Vec2.add ppos (Vec2.mk (F32.of_Z 8) (F32.of_Z 0)))
                  (Vec2.mk (F32.of_Z 0) (F32.of_Z (-8))) w7)
        as (e2 & He2 & Hg2 & _).
      apply (Hfinal _ [e1; e2]).
      * rewrite exec_bind. fold w7. rewrite Hg2, Hg1. reflexivity.
      * constructor; [exact He1|constructor; [exact He2|constructor]].
      * apply (f_equal (fun p : Entity => pos p)).
        assert (Hb : blind_to_pool player PlayerBullets)
          by (intros ? ? ?; reflexivity).
        refine ((_ : rel (keeps player) _) w6). frame.
    + destruct (spawnPlayerBullet_pool ppos (Vec2.mk (F32.of_Z 0) (F32.of_Z (-8))) w6)
        as (e1 & He1 & Hg1 & _).
      match type of Hg1 with game ?w1 = _ => set (w7 := w1) in * end.
      destruct (spawnPlayerBullet_pool
                  (Vec2.add ppos (Vec2.mk (F32.of_Z (-8)) (F32.of_Z 0)))
                  (Vec2.mk (F32.of_Z (-1)) (F32.of_Z (-8))) w7)
        as (e2 & He2 & Hg2 & _).
      match type of Hg2 with game ?w1 = _ => set (w8 := w1) in * end.
      destruct (spawnPlayerBullet_pool
                  (Vec2.add ppos (Vec2.mk (F32.of_Z 8) (F32.of_Z 0)))
                  (Vec2.mk (F32.of_Z 1) (F32.of_Z (-8))) w8)
        as (e3 & He3 & Hg3 & _).
      apply (Hfinal _ [e1; e2; e3]).
      * rewrite exec_bind. fold w7. rewrite exec_bind. fold w8.
        rewrite Hg3, Hg2, Hg1. reflexivity.
      * constructor; [exact He1|constructor; [exact He2|constructor; [exact He3|constructor]]].
      * apply (f_equal (fun p : Entity => pos p)).
        assert (Hb : blind_to_pool player PlayerBullets)
          by (intros ? ? ?; reflexivity).
        refine ((_ : rel (keeps player) _) w6). frame.
Qed.

(** At weapon level 3, with the button held on an empty bullet array, one
    [updatePlayer] puts three bullets into play. *)
Lemma fire_pattern_witness :
  fire_due firing_world = true /\
  count_active (playerBullets (game (exec updatePlayer firing_world))) = 3%nat.
Proof.
  split; [vm_compute; reflexivity|].
  destruct (proj2 (fire_pattern firing_world)) as (es & _ & _ & Hc);
    [vm_compute; reflexivity|].
  rewrite Hc; [reflexivity|reflexivity|vm_compute; lia].
Defined.

(* ===================================================================== *)
(** * Loops over the slots of one array *)
(* ===================================================================== *)

Lemma for_range_ext (body body' : nat -> M Flow) n :
  (forall i w, body i w = body' i w) ->
  forall from w, for_range from n body w = for_range from n body' w.
Proof.
  intros E. induction n as [|n IH]; intros from w; [reflexivity|].
  cbn [for_range]. rewrite (E from w).
  destruct (fst (body' from w)); [apply IH|reflexivity].
Qed.

Lemma bind_ext {A B} (m : M A) (k k' : A -> M B) w :
  (forall a w', k a w' = k' a w') -> bind m k w = bind m k' w.
Proof. intros E. unfold bind. apply E. Qed.

Lemma set_pool_set_pool p l1 l2 g : set_pool p l2 (set_pool p l1 g) = set_pool p l2 g.
Proof. destruct p; reflexivity. Qed.

Lemma set_pool_pool_of p g : set_pool p (pool_of p g) g = g.
Proof. destruct p, g; reflexivity. Qed.

(** two writes to the same slot, one after the other, are one write *)
Lemma modify_slot_twice p i f1 f2 w :
  (modify_slot p i f1 ;; modify_slot p i f2) w
  = modify_slot p i (fun e => f2 (f1 e)) w.
Proof.
  unfold modify_slot, write, modify_game, bind, read. cbn [fst snd].
  f_equal. destruct w as [g inp snd0 lf tone ms mc rs rc].
  unfold with_game. cbn [game input sound lastFrame ledc_tone millis_src millis_calls
                         random_src random_calls].
  f_equal. rewrite set_pool_set_pool, pool_of_set_pool.
  f_equal. unfold slot. rewrite pool_of_set_pool.
  destruct (decide (i < length (pool_of p g))%nat) as [Hlt|Hge].
  - rewrite list_lookup_total_insert_eq by exact Hlt. apply list_insert_insert_eq.
  - repeat rewrite (list_insert_ge (pool_of p g) i) by lia. reflexivity.
Qed.

Section Sweeps.
Variable p : Pool.
Variable f : Entity -> Entity.
Variable c : Entity -> bool.

(** one iteration, seen from every slot of the array *)
Lemma sweep_body_spec i w :
  fst (sweep_body p f c i w) = Continue /\
  forall k, slot p k (game (snd (sweep_body p f c i w))) =
            if decide (k = i) then tick f c (slot p i (game w))
            else slot p k (game w).
Proof.
  unfold sweep_body, bind, read, ret, tick. cbn [fst snd].
  destruct (active (slot p i (game w))) eqn:Hact; cbn [negb fst snd].
  2: { split; [reflexivity|]. intros k. destruct (decide (k = i)) as [->|]; reflexivity. }
  pose proof (active_in_range _ _ _ Hact) as Hlt.
  set (w1 := snd (modify_slot p i f w)).
  assert (Hg1 : game w1 = set_pool p (<[i := f (slot p i (game w))]> (pool_of p (game w)))
                           (game w)) by reflexivity.
  assert (Hs1 : forall k, slot p k (game w1) =
                  if decide (k = i) then f (slot p i (game w)) else slot p k (game w)).
  { intros k. rewrite Hg1, slot_insert.
    destruct (decide (k = i)) as [->|Hne].
    - destruct (decide _) as [_|Hn]; [reflexivity|]. exfalso. apply Hn. auto.
    - destruct (decide _) as [[He _]|_]; [congruence|reflexivity]. }
  rewrite (Hs1 i). destruct (decide (i = i)) as [_|]; [|congruence].
  destruct (c (f (slot p i (game w)))); cbn [when]; (split; [reflexivity|]); intros k.
  - change (snd (modify_slot p i deactivate w1)) with (exec (modify_slot p i deactivate) w1).
    rewrite game_modify_slot, slot_insert, (Hs1 i), (Hs1 k).
    assert (Hlen : length (pool_of p (game w1)) = length (pool_of p (game w))).
    { rewrite Hg1, pool_of_set_pool. apply length_insert. }
    rewrite Hlen.
    destruct (decide (i = i)) as [_|]; [|congruence].
    destruct (decide (k = i)) as [->|Hne].
    + destruct (decide _) as [_|Hn]; [reflexivity|]. exfalso. apply Hn. auto.
    + destruct (decide _) as [[He _]|_]; [congruence|reflexivity].
  - apply Hs1.
Qed.

(** the whole loop: every slot below [n] is ticked once, in place *)
Lemma sweep_slot n w k :
  slot p k (game (exec (for_range 0 n (sweep_body p f c)) w))
  = if decide (k < n)%nat then tick f c (slot p k (game w)) else slot p k (game w).
Proof.
  revert k.
  apply (for_range_ind _
    (fun j w' => forall k, slot p k (game w') =
       if decide (k < j)%nat then tick f c (slot p k (game w)) else slot p k (game w))
    (fun w' => forall k, slot p k (game w') =
       if decide (k < n)%nat then tick f c (slot p k (game w)) else slot p k (game w))).
  - intros j w' _ HP.
    destruct (sweep_body_spec j w') as [Hc Hs]. rewrite Hc. intros k. rewrite Hs.
    rewrite (HP j), (HP k).
    destruct (decide (j < j)%nat); [lia|].
    destruct (decide (k = j)) as [->|Hne].
    + destruct (decide (j < S j)%nat); [reflexivity|lia].
    + destruct (decide (k < j)%nat), (decide (k < S j)%nat); try reflexivity; lia.
  - intros w' HP. exact HP.
  - intros k. destruct (decide (k < 0)%nat); [lia|reflexivity].
Qed.
End Sweeps.

(** [updateBullets] on a slot of [enemyBullets], [updatePowerups] on a
    slot of [powerups], [updateParticles] on a slot of [particles] *)
Lemma updateBullets_enemy_slot w i :
  (i < MAX_ENEMY_BULLETS)%nat ->
  slot EnemyBullets i (game (exec updateBullets w))
  = tick fly (fun e => (Vec2.y (pos e) >? F32.of_Z (SCREEN_HEIGHT + 10))%f32)
         (slot EnemyBullets i (game w)).
Proof.
  intros Hi. unfold updateBullets. rewrite exec_bind.
  match goal with
  | |- context [exec ?m2 (exec ?m1 w)] =>
      assert (H1 : rel (keeps (slot EnemyBullets i)) m1)
  end.
  { pose proof (slot_blind_other_pool EnemyBullets PlayerBullets i ltac:(discriminate)).
    frame. }
  unfold rel, keeps in H1. rewrite <- (H1 w). clear H1.
  match goal with
  | |- context [exec _ (exec ?m1 w)] => generalize (exec m1 w)
  end.
  intros w1.
  change (slot EnemyBullets i
            (game (exec (for_range 0 MAX_ENEMY_BULLETS
               (sweep_body EnemyBullets fly
                  (fun e => (Vec2.y (pos e) >? F32.of_Z (SCREEN_HEIGHT + 10))%f32))) w1))
          = tick fly (fun e => (Vec2.y (pos e) >? F32.of_Z (SCREEN_HEIGHT + 10))%f32)
                 (slot EnemyBullets i (game w1))).
  rewrite sweep_slot. destruct (decide _); [reflexivity|].
  unfold MAX_ENEMY_BULLETS in *. lia.
Qed.

Lemma updatePowerups_slot w i :
  (i < MAX_POWERUPS)%nat ->
  slot Powerups i (game (exec updatePowerups w))
  = tick fly (fun e => (Vec2.y (pos e) >? F32.of_Z (SCREEN_HEIGHT + 20))%f32)
         (slot Powerups i (game w)).
Proof.
  intros Hi.
  change updatePowerups
    with (for_range 0 MAX_POWERUPS
            (sweep_body Powerups fly
               (fun e => (Vec2.y (pos e) >? F32.of_Z (SCREEN_HEIGHT + 20))%f32))).
  rewrite sweep_slot. destruct (decide _); [reflexivity|].
  unfold MAX_POWERUPS in *. lia.
Qed.

Lemma updateParticles_sweep w :
  updateParticles w
  = for_range 0 MAX_PARTICLES (sweep_body Particles age (fun e => health e <=? 0)) w.
Proof.
  unfold updateParticles. apply for_range_ext.
  intros j w'. unfold sweep_body. apply bind_ext. intros e w2.
  destruct (negb (active e)); [reflexivity|].
  transitivity
    (bind (modify_slot Particles j (fun e => set_pos (Vec2.add (pos e) (vel e)) e) ;;
           modify_slot Particles j (fun e => set_health (wrap_int (health e - 1)) e))
          (fun _ => e <- read Particles j ;;
                    when (health e <=? 0) (modify_slot Particles j deactivate) ;;
                    ret Continue) w2); [reflexivity|].
  unfold bind at 1. rewrite modify_slot_twice. reflexivity.
Qed.

Lemma updateParticles_slot w i :
  (i < MAX_PARTICLES)%nat ->
  slot Particles i (game (exec updateParticles w))
  = tick age (fun e => health e <=? 0) (slot Particles i (game w)).
Proof.
  intros Hi. unfold exec. rewrite updateParticles_sweep.
  fold (exec (for_range 0 MAX_PARTICLES
                (sweep_body Particles age (fun e => health e <=? 0))) w).
  rewrite sweep_slot. destruct (decide _); [reflexivity|].
  unfold MAX_PARTICLES in *. lia.
Qed.

(** X6.  One [updateBullets] moves every active enemy bullet by its
    velocity and deactivates it exactly when its new y is greater than
    SCREEN_HEIGHT + 10 = 330; one [updatePowerups] does the same to every
    active powerup with the line SCREEN_HEIGHT + 20 = 340.  An entity on
    the line itself stays; inactive slots are not touched; the x
    coordinate is never tested. *)
Theorem falling_things_culled (w : World) :
  (forall i, (i < MAX_ENEMY_BULLETS)%nat ->
     let b := slot EnemyBullets i (game w) in
     let b' := slot EnemyBullets i (game (exec updateBullets w)) in
     if active b
     then b' = set_active (negb (Vec2.y (pos (fly b)) >? F32.of_Z 330)%f32) (fly b)
     else b' = b) /\
  (forall i, (i < MAX_POWERUPS)%nat ->
     let b := slot Powerups i (game w) in
     let b' := slot Powerups i (game (exec updatePowerups w)) in
     if active b
     then b' = set_active (negb (Vec2.y (pos (fly b)) >? F32.of_Z 340)%f32) (fly b)
     else b' = b).
Proof.
  split; intros i Hi b b'; unfold b'.
  - rewrite updateBullets_enemy_slot by exact Hi. fold b. unfold tick.
    change (F32.of_Z (SCREEN_HEIGHT + 10)) with (F32.of_Z 330).
    destruct (active b) eqn:Hact; [|reflexivity].
    destruct (Vec2.y (pos (fly b)) >? F32.of_Z 330)%f32; [reflexivity|].
    cbn [negb]. unfold set_active. change (active (fly b)) with (active b) in *.
    rewrite <- Hact. destruct b; reflexivity.
  - rewrite updatePowerups_slot by exact Hi. fold b. unfold tick.
    change (F32.of_Z (SCREEN_HEIGHT + 20)) with (F32.of_Z 340).
    destruct (active b) eqn:Hact; [|reflexivity].
    destruct (Vec2.y (pos (fly b)) >? F32.of_Z 340)%f32; [reflexivity|].
    cbn [negb]. unfold set_active.
    rewrite <- Hact. destruct b; reflexivity.
Qed.

(** An enemy bullet that moves from 328 to 331 is culled; a powerup that
    moves from 339 onto the line 340 is not. *)
Lemma falling_things_culled_witness :
  let b' := slot EnemyBullets 0 (game (exec updateBullets falling_world)) in
  let u' := slot Powerups 0 (game (exec updatePowerups falling_world)) in
  (active b' = false /\ Vec2.y (pos b') = F32.of_Z 331) /\
  (active u' = true /\ Vec2.y (pos u') = F32.of_Z 340).
Proof.
  intros b' u'.
  destruct (falling_things_culled falling_world) as [Hb Hu].
  specialize (Hb 0%nat ltac:(unfold MAX_ENEMY_BULLETS; lia)).
  specialize (Hu 0%nat ltac:(unfold MAX_POWERUPS; lia)).
  cbv zeta in Hb, Hu. fold b' in Hb. fold u' in Hu.
  change (active (slot EnemyBullets 0 (game falling_world))) with true in Hb.
  change (active (slot Powerups 0 (game falling_world))) with true in Hu.
  cbv iota in Hb, Hu. rewrite Hb, Hu.
  split; split; vm_compute; reflexivity.
Defined.

(* ===================================================================== *)
(** * The life of a particle *)
(* ===================================================================== *)

Lemma updateParticles_iter w i n :
  (i < MAX_PARTICLES)%nat ->
  slot Particles i (game (Nat.iter n (exec updateParticles) w))
  = Nat.iter n (tick age (fun e => health e <=? 0)) (slot Particles i (game w)).
Proof.
  intros Hi. induction n as [|n IH]; [reflexivity|].
  rewrite !Nat.iter_succ. rewrite updateParticles_slot by exact Hi. rewrite IH. reflexivity.
Qed.

Lemma age_iter e n :
  active e = true -> 1 <= health e <= INT_MAX ->
  (Z.of_nat n < health e ->
     Nat.iter n (tick age (fun e => health e <=? 0)) e
     = set_health (health e - Z.of_nat n) (set_pos (flight e n) e)) /\
  (health e <= Z.of_nat n ->
     active (Nat.iter n (tick age (fun e => health e <=? 0)) e) = false).
Proof.
  intros Hact Hh. pose proof INT_bounds as [Emin Emax].
  induction n as [|n [IH1 IH2]].
  - split; [intros _|lia]. cbn [Nat.iter nat_rect flight Z.of_nat].
    rewrite Z.sub_0_r. destruct e; reflexivity.
  - rewrite Nat.iter_succ.
    destruct (Z_lt_le_dec (Z.of_nat n) (health e)) as [Hlt|Hge].
    + rewrite (IH1 Hlt). clear IH1 IH2.
      assert (Hstep : age (set_health (health e - Z.of_nat n) (set_pos (flight e n) e))
                      = set_health (health e - Z.of_nat (S n))
                                   (set_pos (flight e (S n)) e)).
      { unfold age, fly, flight. rewrite Nat.iter_succ.
        cbn [health pos vel set_health set_pos active type width height color
             animFrame lastAnimTime].
        rewrite wrap_int_id by lia.
        replace (health e - Z.of_nat n - 1) with (health e - Z.of_nat (S n)) by lia.
        reflexivity. }
      unfold tick.
      change (active (set_health (health e - Z.of_nat n) (set_pos (flight e n) e)))
        with (active e).
      rewrite Hact, Hstep.
      change (health (set_health (health e - Z.of_nat (S n)) (set_pos (flight e (S n)) e)))
        with (health e - Z.of_nat (S n)).
      destruct (Z.leb_spec (health e - Z.of_nat (S n)) 0).
      * split; [lia|intros _; reflexivity].
      * split; [intros _; reflexivity|lia].
    + split; [lia|]. intros _. unfold tick at 1. rewrite (IH2 Hge). exact (IH2 Hge).
Qed.

(** X7.  A particle that is active with health h >= 1 is active after n
    calls of [updateParticles] exactly when n < h; until then its health
    is h - n and it is where its velocity has taken it.  So it is drawn
    for h - 1 further frames and deactivated by the h-th call: a particle
    spawned with health 10 disappears in its tenth update. *)
Theorem particle_lifetime (w : World) (i n : nat) :
  (i < MAX_PARTICLES)%nat ->
  let e := slot Particles i (game w) in
  active e = true ->
  1 <= health e <= INT_MAX ->
  let e_n := slot Particles i (game (Nat.iter n (exec updateParticles) w)) in
  (active e_n = true <-> Z.of_nat n < health e) /\
  (Z.of_nat n < health e ->
     health e_n = health e - Z.of_nat n /\ pos e_n = flight e n).
Proof.
  intros Hi e Hact Hh e_n. unfold e_n. rewrite updateParticles_iter by exact Hi. fold e.
  destruct (age_iter e n Hact Hh) as [H1 H2].
  destruct (Z_lt_le_dec (Z.of_nat n) (health e)) as [Hlt|Hge].
  - rewrite (H1 Hlt). split; [|intros _; split; reflexivity].
    split; [intros _; exact Hlt|intros _; exact Hact].
  - rewrite (H2 Hge). split; [|lia]. split; [discriminate|lia].
Qed.

(** A particle of health 3 moving 2 to the right per frame: after two
    updates it is active with health 1 at x = 104, after three it is
    gone. *)
Lemma particle_lifetime_witness :
  let e2 := slot Particles 0 (game (Nat.iter 2 (exec updateParticles) spark_world)) in
  let e3 := slot Particles 0 (game (Nat.iter 3 (exec updateParticles) spark_world)) in
  (active e2 = true /\ health e2 = 1 /\ Vec2.x (pos e2) = F32.of_Z 104) /\
  active e3 = false.
Proof.
  intros e2 e3.
  assert (Hi : (0 < MAX_PARTICLES)%nat) by (unfold MAX_PARTICLES; lia).
  assert (Hact : active (slot Particles 0 (game spark_world)) = true) by reflexivity.
  assert (Hh : 1 <= health (slot Particles 0 (game spark_world)) <= INT_MAX)
    by (vm_compute; split; discriminate).
  destruct (particle_lifetime spark_world 0 2 Hi Hact Hh) as [A2 P2].
  destruct (particle_lifetime spark_world 0 3 Hi Hact Hh) as [A3 _].
  fold e2 in A2, P2. fold e3 in A3.
  assert (L2 : Z.of_nat 2 < health (slot Particles 0 (game spark_world)))
    by (vm_compute; reflexivity).
  destruct (P2 L2) as [Hh2 Hp2].
  split.
  - split; [apply A2; exact L2|]. split; [rewrite Hh2; reflexivity|].
    rewrite Hp2. vm_compute. reflexivity.
  - destruct (active e3) eqn:E; [|reflexivity].
    pose proof (proj1 A3 eq_refl) as C. vm_compute in C. discriminate C.
Defined.

(* ===================================================================== *)
(** * The shape of the entities in play *)
(* ===================================================================== *)

Section ShapeWrites.
Variable S : Pool -> nat -> Prop.

Lemma shapes_ext g g' :
  (forall p, pool_of p g' = pool_of p g) -> shapes_on S g -> shapes_on S g'.
Proof.
  intros E H p i Hi. unfold slot. rewrite (E p). apply (H p i Hi).
Qed.

(** a write of an entity that is inactive or has its shape *)
Lemma shapes_write p i x g :
  (S p i -> active x = true -> shape_ok p x) ->
  shapes_on S g -> shapes_on S (set_pool p (<[i := x]> (pool_of p g)) g).
Proof.
  intros Hx H q k Hk. destruct (decide (q = p)) as [->|Hne].
  - rewrite slot_insert.
    destruct (decide _) as [[-> _]|_]; [exact (Hx Hk)|apply H; exact Hk].
  - rewrite slot_set_other_pool by exact Hne. apply H. exact Hk.
Qed.

(** a write that neither brings the entity of the slot to life nor
    spoils its shape *)
Lemma shapes_modify p i f g :
  (forall e, active (f e) = true ->
             active e = true /\ (shape_ok p e -> shape_ok p (f e))) ->
  shapes_on S g -> shapes_on S (set_pool p (<[i := f (slot p i g)]> (pool_of p g)) g).
Proof.
  intros Hf H q k Hk. destruct (decide (q = p)) as [->|Hne].
  - rewrite slot_insert. destruct (decide _) as [[-> _]|_]; [|apply H; exact Hk].
    intros Hact. destruct (Hf _ Hact) as [Ha Hs]. apply Hs, H; assumption.
  - rewrite slot_set_other_pool by exact Hne. apply H. exact Hk.
Qed.

Lemma shapes_place p e g :
  shape_ok p e -> shapes_on S g -> shapes_on S (place p e g).
Proof.
  intros He H. unfold place. destruct (free_slot p g) as [j|]; [|exact H].
  apply shapes_write; [intros _ _; exact He|exact H].
Qed.
End ShapeWrites.

(** opening one slot to any write, and closing it again *)
Lemma shapes_open q j x g :
  shapes_ok g -> shapes_on (all_but q j) (set_pool q (<[j := x]> (pool_of q g)) g).
Proof.
  intros H p i [Hi Hne]. destruct (decide (p = q)) as [->|Hp].
  - rewrite slot_insert. destruct (decide _) as [[-> _]|_]; [|apply H; exact Hi].
    exfalso. apply Hne. split; reflexivity.
  - rewrite slot_set_other_pool by exact Hp. apply H. exact Hi.
Qed.

Lemma shapes_close q j x g :
  (in_array q j -> active x = true -> shape_ok q x) ->
  shapes_on (all_but q j) g ->
  shapes_ok (set_pool q (<[j := x]> (pool_of q g)) g).
Proof.
  intros Hx H p i Hi. destruct (decide (p = q)) as [->|Hp].
  - rewrite slot_insert. destruct (decide _) as [[-> _]|Hn]; [exact (Hx Hi)|].
    destruct (decide (i = j)) as [->|Hij].
    + rewrite slot_out_of_range by (destruct (decide (j < length (pool_of q g))%nat);
                                     [exfalso; apply Hn; auto|lia]).
      discriminate.
    + apply H. split; [exact Hi|]. intros [_ E]. contradiction.
  - rewrite slot_set_other_pool by exact Hp. apply H. split; [exact Hi|].
    intros [E _]. contradiction.
Qed.

Lemma shapes_weaken q j g : shapes_ok g -> shapes_on (all_but q j) g.
Proof. intros H p i [Hi _]. apply H. exact Hi. Qed.

(** ** The spawners store entities that have their shape *)

Section ShapeSpawns.
Variable cos sin : float -> float.
Variable S : Pool -> nat -> Prop.

Lemma spawnEnemy_shapes t ps speed :
  (t = ENEMY_BASIC /\ speed = flit 15 10) \/ (t = ENEMY_FAST /\ speed = flit 30 10) ->
  rel (carries (shapes_on S)) (spawnEnemy t ps (Vec2.mk (F32.of_Z 0) speed)).
Proof.
  intros Ht w H. unfold exec. rewrite spawnEnemy_spec.
  destruct (free_slot Enemies (game w)) as [k|]; [|exact H].
  destruct Ht as [[-> ->]|[-> ->]];
    (apply (shapes_write S Enemies); [intros _ _|exact H]).
  - left. repeat split.
  - right. repeat split.
Qed.

Lemma spawnPlayerBullet_shapes ps vx :
  vx = F32.of_Z (-1) \/ vx = F32.of_Z 0 \/ vx = F32.of_Z 1 ->
  rel (carries (shapes_on S)) (spawnPlayerBullet ps (Vec2.mk vx (F32.of_Z (-8)))).
Proof.
  intros Hv w H. unfold exec. rewrite spawnPlayerBullet_spec.
  destruct (free_slot PlayerBullets (game w)) as [k|]; [|exact H].
  apply (shapes_write S PlayerBullets); [intros _ _|exact H].
  split; [reflexivity|]. split; [reflexivity|]. split; [reflexivity|exact Hv].
Qed.

Lemma spawnEnemyBullet_shapes ps :
  rel (carries (shapes_on S))
      (spawnEnemyBullet ps (Vec2.mk (F32.of_Z 0) (F32.of_Z 3))).
Proof.
  intros w H. unfold exec. rewrite spawnEnemyBullet_spec.
  destruct (free_slot EnemyBullets (game w)) as [k|]; [|exact H].
  apply (shapes_write S EnemyBullets); [intros _ _|exact H]. repeat split.
Qed.

Lemma spawnPowerup_shapes ps t : rel (carries (shapes_on S)) (spawnPowerup ps t).
Proof.
  intros w H. unfold exec. rewrite spawnPowerup_spec.
  destruct (free_slot Powerups (game w)) as [k|]; [|exact H].
  apply (shapes_write S Powerups); [intros _ _|exact H]. repeat split.
Qed.

Lemma spawnParticle_shapes ps v : rel (carries (shapes_on S)) (spawnParticle ps v).
Proof.
  intros w H. unfold exec. rewrite spawnParticle_spec.
  destruct (free_slot Particles (game w)) as [k|]; [|exact H].
  apply (shapes_write S Particles); [intros _ _|exact H].
  split; [split; discriminate|split; reflexivity].
Qed.

Lemma spawnExplosion_shapes ps size :
  rel (carries (shapes_on S)) (spawnExplosion cos sin ps size).
Proof.
  assert (Hb : forall w, shapes_on S (game w) ->
                         shapes_on S (game (exec (burst cos sin ps) w))).
  { pose proof spawnParticle_shapes as Hp.
    assert (Hr : rel (carries (shapes_on S)) (burst cos sin ps))
      by (unfold burst; frame).
    exact Hr. }
  intros w H.
  set (w1 := match free_slot Explosions (game w) with
             | Some k => exec (n <- Entity_init EXPLOSION ps
                                 (Vec2.mk (F32.of_Z 0) (F32.of_Z 0)) size size 6 TFT_ORANGE ;;
                               write Explosions k n) w
             | None => w
             end).
  assert (E : exec (spawnExplosion cos sin ps size) w = exec (burst cos sin ps) w1).
  { unfold exec. rewrite spawnExplosion_spec. unfold w1.
    destruct (free_slot Explosions (game w)); reflexivity. }
  rewrite E. apply Hb. unfold w1.
  destruct (free_slot Explosions (game w)) as [k|]; [|exact H].
  apply (shapes_write S Explosions); [intros _ _|exact H].
  split; [reflexivity|]. split; [split; [discriminate|reflexivity]|].
  split; reflexivity.
Qed.
End ShapeSpawns.

(** what [frame] leaves over for the shapes: writes of the position and
    deactivations, and assignments to the counters *)
Ltac shapes_leaf :=
  lazymatch goal with
  | |- rel _ (modify_slot _ _ _) =>
      let g := fresh "g" in let e := fresh "e" in let Ha := fresh "Ha" in
      apply rel_modify_slot_f; intros g; unfold carries; apply shapes_modify; intros e Ha;
      first [ discriminate Ha | split; [exact Ha|intros Hs; exact Hs] ]
  | |- rel _ (modify_game _) =>
      let g := fresh "g" in let p := fresh "p" in
      apply rel_modify_game; intros g; unfold carries; apply shapes_ext; intros p;
      repeat match goal with |- context [if ?b then _ else _] => destruct b end;
      destruct p; reflexivity
  end.

(** ** Explosions and particles *)

Lemma game_as_write p i g :
  g = set_pool p (<[i := slot p i g]> (pool_of p g)) g.
Proof.
  destruct (decide (i < length (pool_of p g))%nat) as [Hlt|Hge].
  - unfold slot. rewrite list_insert_id; [symmetry; apply set_pool_pool_of|].
    apply list_lookup_lookup_total_lt. exact Hlt.
  - rewrite list_insert_ge by lia. symmetry. apply set_pool_pool_of.
Qed.

(** a write to the slot that was written last *)
Lemma modify_written_slot p i f x g w :
  (i < length (pool_of p g))%nat ->
  game w = set_pool p (<[i := x]> (pool_of p g)) g ->
  slot p i (game w) = x /\
  game (exec (modify_slot p i f) w) = set_pool p (<[i := f x]> (pool_of p g)) g.
Proof.
  intros Hlt Hg.
  assert (Hs : slot p i (game w) = x).
  { rewrite Hg, slot_insert. destruct (decide _) as [_|Hn]; [reflexivity|].
    exfalso. apply Hn. auto. }
  split; [exact Hs|].
  rewrite game_modify_slot, Hs, Hg, pool_of_set_pool, set_pool_set_pool.
  rewrite list_insert_insert_eq. reflexivity.
Qed.

Section ShapeBodies.
Variable S : Pool -> nat -> Prop.

(** one iteration of [updateExplosions]: the frame counter of an active
    explosion goes up by at most one, and the explosion is deactivated
    when the counter reaches its health *)
Lemma updateExplosions_shapes : rel (carries (shapes_on S)) updateExplosions.
Proof.
  unfold updateExplosions. apply rel_for_range. intros i w H.
  rewrite exec_bind.
  change (fst (read Explosions i w)) with (slot Explosions i (game w)).
  change (exec (read Explosions i) w) with w.
  set (e := slot Explosions i (game w)).
  destruct (active e) eqn:Hact; cbn [negb]; [|exact H].
  pose proof (active_in_range _ _ _ Hact) as Hlt.
  rewrite !exec_bind.
  set (w1 := exec millis w).
  assert (Hg1 : game w1 = game w) by reflexivity.
  destruct (wrap_ulong (fst (millis w) - lastAnimTime e) >? 50); cbn [when].
  2: { change (game (exec (ret Continue) (exec (ret tt) w1))) with (game w1).
       rewrite Hg1. exact H. }
  change (exec (ret Continue) ?x) with x.
  rewrite !exec_bind.
  set (f1 := fun e : Entity => set_animFrame (wrap_int (animFrame e + 1)) e).
  set (w2 := exec (modify_slot Explosions i f1) w1).
  assert (Hg2 : game w2 = set_pool Explosions (<[i := f1 e]> (pool_of Explosions (game w)))
                                   (game w)).
  { unfold w2. rewrite game_modify_slot, Hg1. reflexivity. }
  set (t := fst (millis w2)).
  set (w3 := exec millis w2).
  assert (Hg3 : game w3 = game w2) by reflexivity.
  rewrite <- Hg3 in Hg2.
  destruct (modify_written_slot Explosions i (set_lastAnimTime t) _ _ w3 Hlt Hg2)
    as [_ Hg4].
  set (w4 := exec (modify_slot Explosions i (set_lastAnimTime t)) w3) in *.
  change (fst (read Explosions i w4)) with (slot Explosions i (game w4)).
  change (exec (read Explosions i) w4) with w4.
  destruct (modify_written_slot Explosions i deactivate _ _ w4 Hlt Hg4) as [Hs4 Hg5].
  rewrite Hs4.
  (* the explosion had its shape, if the slot is one that [S] selects *)
  assert (Hshape : S Explosions i ->
            animFrame (set_lastAnimTime t (f1 e)) = animFrame e + 1 /\
            health (set_lastAnimTime t (f1 e)) = 6 /\
            0 <= animFrame e < 6 /\ width e = height e /\
            vel e = Vec2.mk (F32.of_Z 0) (F32.of_Z 0)).
  { intros Hi. destruct (H Explosions i Hi Hact) as (Hh & Ha & Hw & Hv). fold e in Hh, Ha, Hw, Hv.
    pose proof INT_bounds as [Emin Emax].
    unfold f1. cbn [animFrame health set_lastAnimTime set_animFrame].
    rewrite wrap_int_id by lia. auto. }
  destruct (animFrame (set_lastAnimTime t (f1 e)) >=? health (set_lastAnimTime t (f1 e)))
    eqn:Hend; cbn [when].
  - rewrite Hg5. apply shapes_write; [intros _ Ha; discriminate Ha|exact H].
  - change (game (exec (ret tt) w4)) with (game w4). rewrite Hg4.
    apply shapes_write; [|exact H]. intros Hi _.
    destruct (Hshape Hi) as (Ea & Eh & Ha & Hw & Hv).
    rewrite Ea, Eh in Hend.
    split; [exact Eh|]. split; [rewrite Ea; lia|]. split; [exact Hw|exact Hv].
Qed.

Lemma sweep_body_shapes p f c i :
  (forall e, S p i -> active e = true -> shape_ok p e ->
             active (tick f c e) = true -> shape_ok p (tick f c e)) ->
  rel (carries (shapes_on S)) (sweep_body p f c i).
Proof.
  intros Hf w H q k Hk.
  destruct (decide (q = p)) as [->|Hne].
  - destruct (sweep_body_spec p f c i w) as [_ Hs]. unfold exec. rewrite Hs.
    destruct (decide (k = i)) as [->|_]; [|apply H; exact Hk].
    destruct (active (slot p i (game w))) eqn:Hact.
    + apply Hf; [exact Hk|exact Hact|apply H; assumption].
    + unfold tick. rewrite Hact. intros Ha. rewrite Hact in Ha. discriminate Ha.
  - assert (Hkeep : rel (keeps (slot q k)) (sweep_body p f c i)).
    { pose proof (slot_blind_other_pool q p k Hne). unfold sweep_body. frame. }
    unfold rel, keeps in Hkeep. rewrite Hkeep. apply H. exact Hk.
Qed.
End ShapeBodies.

Section ShapesRun.
Variable cos sin : float -> float.

Lemma updateParticles_shapes S : rel (carries (shapes_on S)) updateParticles.
Proof.
  intros w. unfold exec. rewrite updateParticles_sweep.
  revert w. apply rel_for_range. intros i. apply sweep_body_shapes.
  intros e _ Hact (Hh & Hw & Hht). unfold tick. rewrite Hact.
  pose proof INT_bounds as [Emin Emax].
  assert (Eh : health (age e) = health e - 1).
  { unfold age, fly. cbn [health set_health set_pos]. apply wrap_int_id. lia. }
  rewrite Eh. destruct (Z.leb_spec (health e - 1) 0); [discriminate|].
  intros _. split; [rewrite Eh; lia|]. split; [exact Hw|exact Hht].
Qed.

Lemma updatePlayer_shapes S : rel (carries (shapes_on S)) updatePlayer.
Proof.
  assert (H0 : forall ps, rel (carries (shapes_on S))
                 (spawnPlayerBullet ps (Vec2.mk (F32.of_Z 0) (F32.of_Z (-8)))))
    by (intros ps; apply spawnPlayerBullet_shapes; auto).
  assert (H1 : forall ps, rel (carries (shapes_on S))
                 (spawnPlayerBullet ps (Vec2.mk (F32.of_Z (-1)) (F32.of_Z (-8)))))
    by (intros ps; apply spawnPlayerBullet_shapes; auto).
  assert (H2 : forall ps, rel (carries (shapes_on S))
                 (spawnPlayerBullet ps (Vec2.mk (F32.of_Z 1) (F32.of_Z (-8)))))
    by (intros ps; apply spawnPlayerBullet_shapes; auto).
  unfold updatePlayer. frame. all: shapes_leaf.
Qed.

Lemma spawnWave_shapes S : rel (carries (shapes_on S)) spawnWave.
Proof.
  unfold spawnWave.
  apply rel_bind; [apply rel_millis|intros t0].
  apply rel_bind; [apply rel_get_game|intros g].
  apply rel_when.
  apply rel_bind; [apply rel_random|intros d].
  assert (Hk : (fst (chooseEnemy d) = ENEMY_BASIC /\ snd (chooseEnemy d) = flit 15 10) \/
               (fst (chooseEnemy d) = ENEMY_FAST /\ snd (chooseEnemy d) = flit 30 10)).
  { unfold chooseEnemy. destruct (d >? 70) eqn:E1; [right; split; reflexivity|].
    destruct (d >? 90) eqn:E2; [lia|left; split; reflexivity]. }
  destruct (chooseEnemy d) as [ty speed]. cbn [fst snd] in Hk.
  pose proof (fun ps => spawnEnemy_shapes S ty ps speed Hk) as Hs.
  frame. shapes_leaf.
Qed.

Lemma updateEnemies_shapes S : rel (carries (shapes_on S)) updateEnemies.
Proof.
  pose proof (spawnEnemyBullet_shapes S).
  unfold updateEnemies. frame. all: shapes_leaf.
Qed.

Lemma updateBullets_shapes S : rel (carries (shapes_on S)) updateBullets.
Proof. unfold updateBullets. frame. all: shapes_leaf. Qed.

Lemma updatePowerups_shapes S : rel (carries (shapes_on S)) updatePowerups.
Proof. unfold updatePowerups. frame. all: shapes_leaf. Qed.

(** the destruction of enemy [j] closes the slot that the hit opened *)
Lemma enemyDestroyed_shapes j :
  rel (fun g g' => shapes_on (all_but Enemies j) g -> shapes_ok g')
      (enemyDestroyed cos sin j).
Proof.
  pose proof (spawnExplosion_shapes cos sin (all_but Enemies j)) as He.
  pose proof (spawnPowerup_shapes (all_but Enemies j)) as Hp.
  set (I' := shapes_on (all_but Enemies j)).
  set (R := fun g g' : Game => I' g -> shapes_ok g').
  assert (Hc : forall x y z : Game, carries I' x y -> R y z -> R x z)
    by (intros x y z H1 H2 H; apply H2, H1, H).
  unfold enemyDestroyed.
  eapply (rel_seq (carries I') R R); [unfold I'; shapes_leaf| |exact Hc]. intros _.
  eapply (rel_seq (carries I') R R); [frame| |exact Hc]. intros e.
  eapply (rel_seq (carries I') R R); [apply He| |exact Hc]. intros _.
  eapply (rel_seq (carries I') R R); [frame| |exact Hc]. intros _.
  eapply (rel_seq (carries I') R R); [frame| |exact Hc]. intros r.
  eapply (rel_seq (carries I') R R); [|intros _|exact Hc].
  - apply rel_when. frame.
  - apply rel_modify_slot_f. intros g Hg.
    apply shapes_close; [intros _ Ha; discriminate Ha|exact Hg].
Qed.

(** a hit leaves no wounded enemy behind: whoever it strikes had at most
    10 points of health *)
Lemma bulletHitsEnemy_shapes i j :
  rel (carries shapes_ok) (bulletHitsEnemy cos sin i j).
Proof.
  unfold bulletHitsEnemy.
  apply rel_bind; [unfold shapes_ok; shapes_leaf|intros _].
  intros w H. rewrite !exec_bind.
  set (hit := fun e : Entity => set_health (wrap_int (health e - 10)) e).
  set (w2 := exec (modify_slot Enemies j hit) w).
  assert (Hg2 : game w2 = set_pool Enemies
                  (<[j := hit (slot Enemies j (game w))]> (pool_of Enemies (game w)))
                  (game w)) by apply game_modify_slot.
  change (fst (read Enemies j w2)) with (slot Enemies j (game w2)).
  change (exec (read Enemies j) w2) with w2.
  destruct (health (slot Enemies j (game w2)) <=? 0) eqn:Hc.
  - apply enemyDestroyed_shapes. rewrite Hg2. apply shapes_open. exact H.
  - assert (Hs : game (exec (sound_play SoundSystem.HIT) w2) = game w2)
      by (destruct w2; reflexivity).
    rewrite Hs. clear Hs. rewrite Hg2 in *.
    apply shapes_close; [|apply shapes_weaken; exact H].
    intros Hj Hact. exfalso.
    change (active (hit ?e)) with (active e) in Hact.
    pose proof (active_in_range _ _ _ Hact) as Hlt.
    rewrite slot_insert in Hc.
    destruct (decide _) as [_|Hn]; [|apply Hn; auto].
    pose proof INT_bounds as [Emin Emax].
    unfold hit in Hc. cbn [health set_health] in Hc.
    destruct (H Enemies j Hj Hact) as [(_ & Eh & _)|(_ & Eh & _)];
      rewrite Eh in Hc; vm_compute in Hc; discriminate Hc.
Qed.

Lemma checkCollisions_shapes : rel (carries shapes_ok) (checkCollisions cos sin).
Proof.
  pose proof bulletHitsEnemy_shapes.
  pose proof (spawnExplosion_shapes cos sin in_array).
  unfold checkCollisions, collideBulletsEnemies, bulletVsEnemies,
    collideEnemyBulletsPlayer, collideEnemiesPlayer, collidePowerupsPlayer.
  unfold shapes_ok in *. frame. all: shapes_leaf.
Qed.

Lemma updatePlaying_shapes : rel (carries shapes_ok) (updatePlaying cos sin).
Proof.
  pose proof (spawnWave_shapes in_array). pose proof (updatePlayer_shapes in_array).
  pose proof (updateEnemies_shapes in_array). pose proof (updateBullets_shapes in_array).
  pose proof (updatePowerups_shapes in_array).
  pose proof (updateExplosions_shapes in_array).
  pose proof (updateParticles_shapes in_array). pose proof checkCollisions_shapes.
  unfold updatePlaying. unfold shapes_ok in *. frame. all: shapes_leaf.
Qed.
End ShapesRun.

(** X8.  In every reachable state every active entity has the shape its
    spawner gave it.  An enemy is a basic one with health 10, 20 by 20,
    falling at 1.5, or a fast one with health 5, 16 by 16, falling at 3:
    no enemy is ever seen wounded, so every bullet that hits one destroys
    it.  A player bullet is 4 by 8 and climbs 8 per frame, drifting
    sideways by -1, 0 or 1; an enemy bullet is 4 by 8 with velocity
    (0, 3); a powerup is 16 by 16 with velocity (0, 1).  An explosion has
    health 6, stands still, is square, and its animation frame is
    between 0 and 5; a particle is 2 by 2 and has between 1 and 10 points
    of health left. *)
Theorem entities_keep_their_shape (cos sin : float -> float) (w : World) :
  reachable cos sin w ->
  forall p i, (i < capacity p)%nat -> active (slot p i (game w)) = true ->
    shape_ok p (slot p i (game w)).
Proof.
  intros Hr.
  apply (reachable_invariant shapes_ok cos sin); [| |apply updatePlaying_shapes|exact Hr].
  - intros w0 p i Hi Hact. rewrite init_pools in Hact by exact Hi. discriminate Hact.
  - intros g H p i Hi. unfold slot. rewrite pool_of_set_state. apply (H p i Hi).
Qed.

(** The fast enemy of the duel, eighty frames in: it still has all of its
    5 points of health. *)
Lemma entities_keep_their_shape_witness :
  reachable libm_cos libm_sin (duel 80) /\
  active (slot Enemies 0 (game (duel 80))) = true /\
  health (slot Enemies 0 (game (duel 80))) = 5.
Proof.
  split; [apply duel_reachable|]. split; [vm_compute; reflexivity|].
  destruct (entities_keep_their_shape libm_cos libm_sin (duel 80) (duel_reachable 80)
              Enemies 0%nat) as [(Ht & _)|(_ & Hh & _)].
  - unfold capacity, MAX_ENEMIES. lia.
  - vm_compute. reflexivity.
  - vm_compute in Ht. discriminate Ht.
  - exact Hh.
Defined.

(* ===================================================================== *)
(** * The wave counter and the background scroll *)
(* ===================================================================== *)

Section Scalars.
Variable cos sin : float -> float.

(** what follows the two scroll assignments in a Playing update *)
Lemma after_scroll_keeps {A} (proj : Game -> A) :
  (forall p, blind_to_pool proj p) ->
  blind_to proj set_player -> blind_to proj set_score ->
  blind_to proj set_lastEnemySpawn -> blind_to proj set_lastPlayerShot ->
  blind_to proj set_playerWeaponLevel -> blind_to proj set_lives ->
  blind_to proj set_state ->
  rel (keeps proj)
      (updatePlayer ;; spawnWave ;; updateEnemies ;; updateBullets ;; updatePowerups ;;
       updateExplosions ;; updateParticles ;; checkCollisions cos sin ;;
       modify_game (fun g => if lives g <=? 0 then set_state GAME_OVER g else g)).
Proof.
  intros Hpool Hplayer Hscore Hspawn Hshot Hweapon Hlives Hstate.
  assert (Hhit : forall i j, rel (keeps proj) (bulletHitsEnemy cos sin i j))
    by (intros i j; unfold bulletHitsEnemy, enemyDestroyed; frame).
  assert (Hvs : forall i, rel (keeps proj) (bulletVsEnemies cos sin i))
    by (intros i; unfold bulletVsEnemies; frame).
  unfold updatePlayer, spawnWave, updateEnemies, updateBullets, updatePowerups,
    updateExplosions, updateParticles, checkCollisions, collideBulletsEnemies,
    collideEnemyBulletsPlayer, collideEnemiesPlayer, collidePowerupsPlayer.
  frame.
Qed.

Lemma updatePlaying_wave : rel (carries (fun g => wave g = 1)) (updatePlaying cos sin).
Proof.
  apply (carries_of_keeps wave); [intros g g' E H; rewrite E; exact H|].
  unfold updatePlaying.
  apply rel_bind; [frame|intros _]. apply rel_bind; [frame|intros _].
  apply after_scroll_keeps; blind.
Qed.

(** one frame of scrolling: up by one, and back to 0 from 32 *)
Lemma scroll_step k :
  0 <= k <= 32 ->
  let s := F64.to_float (F64.add (F64.of_float (F32.of_Z k)) (F64.lit 10 10)) in
  (if (s >? F32.of_Z 32)%f32 then F32.of_Z 0 else s)
  = F32.of_Z (if k =? 32 then 0 else k + 1).
Proof.
  intros Hk. rewrite <- (Z2Nat.id k) by lia.
  assert (Hn : (Z.to_nat k <= 32)%nat) by lia.
  generalize dependent (Z.to_nat k). intros n Hn.
  do 33 (destruct n as [|n]; [vm_compute; reflexivity|]). lia.
Qed.

Lemma updatePlaying_scroll_step w k :
  0 <= k <= 32 -> scrollY (game w) = F32.of_Z k ->
  scrollY (game (exec (updatePlaying cos sin) w))
  = F32.of_Z (if k =? 32 then 0 else k + 1).
Proof.
  intros Hk Es. unfold updatePlaying. rewrite exec_bind, exec_bind.
  match goal with
  | |- context [exec ?rest (exec (modify_game ?f2) (exec (modify_game ?f1) w))] =>
      assert (Hrest : rel (keeps scrollY) rest) by (apply after_scroll_keeps; blind);
      set (w2 := exec (modify_game f2) (exec (modify_game f1) w))
  end.
  assert (E2 : scrollY (game w2) = F32.of_Z (if k =? 32 then 0 else k + 1)).
  { rewrite <- (scroll_step k Hk). cbv zeta. rewrite <- Es.
    unfold w2. rewrite !game_modify_game.
    change (scrollY (set_scrollY ?x ?g)) with x.
    destruct (_ >? _)%f32; reflexivity. }
  unfold rel, keeps in Hrest. rewrite Hrest. exact E2.
Qed.

Lemma updatePlaying_scroll : rel (carries scroll_ok) (updatePlaying cos sin).
Proof.
  intros w (k & Hk & Es). unfold scroll_ok.
  rewrite (updatePlaying_scroll_step w k Hk Es).
  eexists. split; [|reflexivity]. destruct (Z.eqb_spec k 32); lia.
Qed.
End Scalars.

(** X9.  The wave counter is 1 in every reachable state: [init] sets it
    and nothing advances it. *)
Theorem wave_never_advances (cos sin : float -> float) (w : World) :
  reachable cos sin w -> wave (game w) = 1.
Proof.
  apply (reachable_invariant (fun g => wave g = 1) cos sin).
  - intros w0. apply (init_scalars w0).
  - intros g H. exact H.
  - apply updatePlaying_wave.
Qed.

Lemma wave_never_advances_witness : wave (game (duel 88)) = 1.
Proof. apply (wave_never_advances libm_cos libm_sin). apply duel_reachable. Defined.

(** the whole numbers from 0 to 32 are distinct as [float] values *)
Lemma whole_of_Z k : 0 <= k <= 32 -> whole (F32.of_Z k) = k.
Proof.
  intros Hk. rewrite <- (Z2Nat.id k) by lia.
  assert (Hn : (Z.to_nat k <= 32)%nat) by lia.
  generalize dependent (Z.to_nat k). intros n Hn.
  do 33 (destruct n as [|n]; [vm_compute; reflexivity|]). lia.
Qed.

Lemma scroll_position_unique k k' :
  0 <= k <= 32 -> 0 <= k' <= 32 -> F32.of_Z k = F32.of_Z k' -> k = k'.
Proof.
  intros Hk Hk' E. rewrite <- (whole_of_Z k Hk), <- (whole_of_Z k' Hk'), E.
  reflexivity.
Qed.

(** X10.  The background offset [scrollY] is a whole number from 0 to 32
    in every reachable state, and a Playing update moves it on by one
    step: from a value below 32 to the next whole number, and from 32
    (where the increment passes 32) back to 0.  So it takes the 33
    values 0, 1, ..., 32 in turn. *)
Theorem scroll_stays_in_range (cos sin : float -> float) (w : World) :
  reachable cos sin w ->
  exists k, 0 <= k <= 32 /\ scrollY (game w) = F32.of_Z k /\
            scrollY (game (exec (updatePlaying cos sin) w))
            = F32.of_Z (if k =? 32 then 0 else k + 1).
Proof.
  intros Hr.
  assert (Hs : scroll_ok (game w)).
  { revert w Hr. apply (reachable_invariant scroll_ok cos sin).
    - intros w0. exists 0. split; [lia|].
      pose proof (init_keeps scrollY) as Hk.
      unfold init. rewrite !exec_bind.
      rewrite !(deactivate_all_proj scrollY) by (intros g i e; reflexivity). reflexivity.
    - intros g H. exact H.
    - apply updatePlaying_scroll. }
  destruct Hs as (k & Hk & Es). exists k.
  split; [exact Hk|]. split; [exact Es|].
  apply updatePlaying_scroll_step; assumption.
Qed.

(** The run that holds the joystick to the left: after thirty-two
    frames of play the offset is 31, the next update makes it 32, and the
    one after that takes it back to 0. *)
Lemma scroll_stays_in_range_witness :
  (scrollY (game (drift 32)) = F32.of_Z 31 /\
   scrollY (game (exec (updatePlaying libm_cos libm_sin) (drift 32))) = F32.of_Z 32) /\
  (scrollY (game (drift 33)) = F32.of_Z 32 /\
   scrollY (game (exec (updatePlaying libm_cos libm_sin) (drift 33))) = F32.of_Z 0).
Proof.
  assert (E32 : scrollY (game (drift 32)) = F32.of_Z 31) by (vm_compute; reflexivity).
  assert (E33 : scrollY (game (drift 33)) = F32.of_Z 32) by (vm_compute; reflexivity).
  destruct (scroll_stays_in_range libm_cos libm_sin (drift 32) (drift_reachable 32))
    as (k & Hk & Ek & Sk).
  destruct (scroll_stays_in_range libm_cos libm_sin (drift 33) (drift_reachable 33))
    as (k' & Hk' & Ek' & Sk').
  rewrite E32 in Ek. rewrite E33 in Ek'.
  apply scroll_position_unique in Ek; [|lia|exact Hk].
  apply scroll_position_unique in Ek'; [|lia|exact Hk'].
  subst k k'. split; split; assumption.
Defined.

(* ===================================================================== *)
(** * Contact with the player *)
(* ===================================================================== *)

Lemma wrap_int_pred a : wrap_int (wrap_int a - 1) = wrap_int (a - 1).
Proof.
  unfold wrap_int.
  replace ((a + 2 ^ 31) mod 2 ^ 32 - 2 ^ 31 - 1 + 2 ^ 31)
    with ((a + 2 ^ 31) mod 2 ^ 32 - 1) by lia.
  rewrite Zminus_mod_idemp_l. do 2 f_equal. lia.
Qed.

Section Contact.
Variable p : Pool.
Variable act : nat -> M unit.
(** a contact costs one life and deactivates the entity; the player and
    the other slots of the array are as before *)
Hypothesis Hact : forall i w,
  lives (game (exec (act i) w)) = wrap_int (lives (game w) - 1) /\
  player (game (exec (act i) w)) = player (game w) /\
  forall k, slot p k (game (exec (act i) w)) =
            if decide (k = i) then deactivate (slot p i (game w))
            else slot p k (game w).

Lemma contact_loop n w :
  INT_MIN <= lives (game w) <= INT_MAX ->
  let g := game w in
  let g' := game (exec (for_range 0 n (contact_body p act)) w) in
  lives g' = wrap_int (lives g - Z.of_nat (count_struck p g n)) /\
  player g' = player g /\
  forall k, slot p k g' =
    if decide (k < n)%nat
    then (if struck p g k then deactivate (slot p k g) else slot p k g)
    else slot p k g.
Proof.
  intros Hint g g'. unfold g'. clear g'.
  set (P := fun (j : nat) (w' : World) =>
    lives (game w') = wrap_int (lives g - Z.of_nat (count_struck p g j)) /\
    player (game w') = player g /\
    forall k, slot p k (game w') =
      if decide (k < j)%nat
      then (if struck p g k then deactivate (slot p k g) else slot p k g)
      else slot p k g).
  apply (for_range_ind _ P (P n)).
  - intros j w' _ (Hl & Hp & Hs).
    assert (Ej : slot p j (game w') = slot p j g).
    { rewrite (Hs j). destruct (decide (j < j)%nat); [lia|reflexivity]. }
    unfold contact_body, bind, read, get_game, ret. cbn [fst snd].
    rewrite Ej.
    assert (Est : struck p g j
                  = active (slot p j g)
                    && Rect.intersects (getRect (slot p j g)) (getRect (player g)))
      by reflexivity.
    destruct (active (slot p j g)) eqn:Hact'; cbn [negb andb] in *; cbv beta;
      rewrite ?Hp.
    2: { cbn [fst snd]. unfold P. cbn [count_struck]. rewrite Est.
         split; [rewrite Hl; do 2 f_equal; lia|]. split; [exact Hp|].
         intros k. rewrite (Hs k).
         destruct (decide (k < j)%nat), (decide (k < S j)%nat); try reflexivity; try lia.
         assert (k = j) as -> by lia. rewrite Est. reflexivity. }
    destruct (Rect.intersects (getRect (slot p j g)) (getRect (player g))) eqn:Hx;
      cbn [when fst snd].
    + destruct (Hact j w') as (Al & Ap & As).
      change (snd (act j w')) with (exec (act j) w').
      unfold P. cbn [count_struck]. rewrite Est.
      split; [|split].
      * rewrite Al, Hl, wrap_int_pred. f_equal. lia.
      * rewrite Ap. exact Hp.
      * intros k. rewrite (As k), Ej, (Hs k).
        destruct (decide (k = j)) as [->|Hne].
        -- destruct (decide (j < S j)%nat); [|lia]. rewrite Est. reflexivity.
        -- destruct (decide (k < j)%nat), (decide (k < S j)%nat); try reflexivity; lia.
    + unfold P, ret. cbn [count_struck snd]. rewrite Est.
      split; [rewrite Hl; do 2 f_equal; lia|]. split; [exact Hp|].
      intros k. rewrite (Hs k).
      destruct (decide (k < j)%nat), (decide (k < S j)%nat); try reflexivity; try lia.
      assert (k = j) as -> by lia. rewrite Est. reflexivity.
  - intros w' HP. exact HP.
  - unfold P. cbn [count_struck Z.of_nat]. rewrite Z.sub_0_r.
    split; [symmetry; apply wrap_int_id; exact Hint|]. split; [reflexivity|].
    intros k. destruct (decide (k < 0)%nat); [lia|reflexivity].
Qed.
End Contact.

Section ContactPhases.
Variable cos sin : float -> float.

(** what follows the first two writes of either phase changes neither the
    counter, nor the player, nor an enemy or an enemy bullet *)
Lemma explosion_keeps {A} (proj : Game -> A) ps size :
  blind_to_pool proj Explosions -> blind_to_pool proj Particles ->
  rel (keeps proj) (spawnExplosion cos sin ps size).
Proof. intros H1 H2. apply spawnExplosion_keeps; assumption. Qed.

Lemma enemy_bullet_contact i w :
  let act := fun i : nat =>
    (modify_slot EnemyBullets i deactivate ;;
     modify_game (fun g => set_lives (wrap_int (lives g - 1)) g) ;;
     g <- get_game ;;
     spawnExplosion cos sin (pos (player g)) (width (player g)) ;;
     sound_play SoundSystem.HIT) in
  lives (game (exec (act i) w)) = wrap_int (lives (game w) - 1) /\
  player (game (exec (act i) w)) = player (game w) /\
  forall k, slot EnemyBullets k (game (exec (act i) w)) =
            if decide (k = i) then deactivate (slot EnemyBullets i (game w))
            else slot EnemyBullets k (game w).
Proof.
  intros act. unfold act. rewrite !exec_bind.
  set (w1 := exec (modify_slot EnemyBullets i deactivate) w).
  set (w2 := exec (modify_game (fun g => set_lives (wrap_int (lives g - 1)) g)) w1).
  change (fst (get_game w2)) with (game w2). change (exec get_game w2) with w2.
  assert (Hrest : forall {A} (proj : Game -> A),
    blind_to_pool proj Explosions -> blind_to_pool proj Particles ->
    proj (game (exec (sound_play SoundSystem.HIT)
                 (exec (spawnExplosion cos sin (pos (player (game w2)))
                          (width (player (game w2)))) w2)))
    = proj (game w2)).
  { intros A proj H1 H2.
    etransitivity; [apply (rel_sound_play (R := keeps proj))|].
    apply explosion_keeps; assumption. }
  split; [|split].
  - rewrite (Hrest _ lives) by blind. reflexivity.
  - rewrite (Hrest _ player) by blind. reflexivity.
  - intros k.
    rewrite (Hrest _ (slot EnemyBullets k))
      by (apply slot_blind_other_pool; discriminate).
    change (slot EnemyBullets k (game w2)) with (slot EnemyBullets k (game w1)).
    unfold w1. rewrite game_modify_slot, slot_insert.
    destruct (decide (k = i)) as [->|Hne].
    + destruct (decide _) as [_|Hn]; [reflexivity|].
      rewrite !slot_out_of_range; [reflexivity|].
      destruct (decide (i < length (pool_of EnemyBullets (game w)))%nat);
        [exfalso; apply Hn; auto|lia].
    + destruct (decide _) as [[E _]|_]; [congruence|reflexivity].
Qed.

Lemma enemy_contact i w :
  let act := fun i : nat =>
    (modify_game (fun g => set_lives (wrap_int (lives g - 1)) g) ;;
     e <- read Enemies i ;;
     spawnExplosion cos sin (pos e) (width e) ;;
     g <- get_game ;;
     spawnExplosion cos sin (pos (player g)) (width (player g)) ;;
     sound_play SoundSystem.EXPLOSION ;;
     modify_slot Enemies i deactivate) in
  lives (game (exec (act i) w)) = wrap_int (lives (game w) - 1) /\
  player (game (exec (act i) w)) = player (game w) /\
  forall k, slot Enemies k (game (exec (act i) w)) =
            if decide (k = i) then deactivate (slot Enemies i (game w))
            else slot Enemies k (game w).
Proof.
  intros act. unfold act. rewrite exec_bind.
  set (w1 := exec (modify_game (fun g => set_lives (wrap_int (lives g - 1)) g)) w).
  match goal with
  | |- context [exec ?m w1] => set (rest := m)
  end.
  assert (Hmid : forall {A} (proj : Game -> A),
    blind_to_pool proj Explosions -> blind_to_pool proj Particles ->
    rel (keeps proj)
      (e <- read Enemies i ;;
       spawnExplosion cos sin (pos e) (width e) ;;
       g <- get_game ;;
       spawnExplosion cos sin (pos (player g)) (width (player g)) ;;
       sound_play SoundSystem.EXPLOSION)).
  { intros A proj H1 H2. pose proof (explosion_keeps proj) as He. frame. }
  assert (Hkeep : forall {A} (proj : Game -> A),
    blind_to_pool proj Explosions -> blind_to_pool proj Particles ->
    blind_to_pool proj Enemies ->
    proj (game (exec rest w1)) = proj (game w1)).
  { intros A proj H1 H2 H3. unfold rest.
    assert (Hr : rel (keeps proj)
      (e <- read Enemies i ;;
       spawnExplosion cos sin (pos e) (width e) ;;
       g <- get_game ;;
       spawnExplosion cos sin (pos (player g)) (width (player g)) ;;
       sound_play SoundSystem.EXPLOSION ;;
       modify_slot Enemies i deactivate)).
    { pose proof (explosion_keeps proj) as He. frame. }
    apply Hr. }
  split; [|split].
  - rewrite (Hkeep _ lives) by blind. reflexivity.
  - rewrite (Hkeep _ player) by blind. reflexivity.
  - intros k. destruct (decide (k = i)) as [->|Hne].
    + (* the enemy itself: untouched until the last write *)
      unfold rest. rewrite !exec_bind.
      rewrite game_modify_slot, slot_insert.
      match goal with
      | |- context [exec (sound_play SoundSystem.EXPLOSION) ?w5] => set (w6 := exec (sound_play SoundSystem.EXPLOSION) w5)
      end.
      assert (E6 : slot Enemies i (game w6) = slot Enemies i (game w)).
      { pose proof (Hmid _ (slot Enemies i)
                      ltac:(apply slot_blind_other_pool; discriminate)
                      ltac:(apply slot_blind_other_pool; discriminate) w1) as Hm.
        unfold keeps in Hm. rewrite !exec_bind in Hm. exact Hm. }
      rewrite E6.
      destruct (decide _) as [_|Hn]; [reflexivity|].
      rewrite slot_out_of_range; [reflexivity|].
      assert (El : length (pool_of Enemies (game w6)) = length (pool_of Enemies (game w))).
      { pose proof (Hmid _ (fun g => length (pool_of Enemies g))
                      ltac:(apply length_blind_pool)
                      ltac:(apply length_blind_pool) w1) as Hm.
        unfold keeps in Hm. rewrite !exec_bind in Hm. exact Hm. }
      rewrite <- El.
      destruct (decide (i < length (pool_of Enemies (game w6)))%nat);
        [exfalso; apply Hn; auto|lia].
    + assert (Hr : rel (keeps (slot Enemies k)) rest).
      { unfold rest.
        pose proof (explosion_keeps (slot Enemies k)) as He.
        pose proof (slot_blind_other_pool Enemies Explosions k ltac:(discriminate)) as B1.
        pose proof (slot_blind_other_pool Enemies Particles k ltac:(discriminate)) as B2.
        specialize (fun ps size => He ps size B1 B2).
        frame. apply rel_modify_slot_f. intros g. unfold keeps. rewrite slot_insert.
        destruct (decide _) as [[E _]|_]; [congruence|reflexivity]. }
      rewrite Hr. reflexivity.
Qed.
End ContactPhases.

(** X11.  The two loops against the player.  Every enemy bullet whose
    box meets the player's costs exactly one life and is deactivated;
    every enemy whose box meets the player's costs exactly one life and
    is deactivated, and earns no points.  Nothing else happens to the
    lives, the player, the score or the two arrays: the counter goes down
    by the number of entities struck (in [int] arithmetic), with no
    period of invulnerability between two contacts of one frame. *)
Theorem contact_costs_lives (cos sin : float -> float) (w : World) :
  INT_MIN <= lives (game w) <= INT_MAX ->
  let g := game w in
  (let g' := game (exec (collideEnemyBulletsPlayer cos sin) w) in
   lives g' = wrap_int (lives g
                        - Z.of_nat (count_struck EnemyBullets g MAX_ENEMY_BULLETS)) /\
   player g' = player g /\ score g' = score g /\
   forall i, (i < MAX_ENEMY_BULLETS)%nat ->
     slot EnemyBullets i g' =
     if struck EnemyBullets g i then deactivate (slot EnemyBullets i g)
     else slot EnemyBullets i g) /\
  (let g' := game (exec (collideEnemiesPlayer cos sin) w) in
   lives g' = wrap_int (lives g - Z.of_nat (count_struck Enemies g MAX_ENEMIES)) /\
   player g' = player g /\ score g' = score g /\
   forall i, (i < MAX_ENEMIES)%nat ->
     slot Enemies i g' =
     if struck Enemies g i then deactivate (slot Enemies i g) else slot Enemies i g).
Proof.
  intros Hint g. split.
  - destruct (contact_loop EnemyBullets _ (enemy_bullet_contact cos sin)
                MAX_ENEMY_BULLETS w Hint) as (Hl & Hp & Hs).
    cbv zeta. split; [exact Hl|]. split; [exact Hp|]. split.
    + apply (collideEnemyBulletsPlayer_keeps score cos sin); blind.
    + intros i Hi. fold g in Hs.
      change (collideEnemyBulletsPlayer cos sin)
        with (for_range 0 MAX_ENEMY_BULLETS
                (contact_body EnemyBullets (fun i : nat =>
                   modify_slot EnemyBullets i deactivate ;;
                   modify_game (fun g => set_lives (wrap_int (lives g - 1)) g) ;;
                   g <- get_game ;;
                   spawnExplosion cos sin (pos (player g)) (width (player g)) ;;
                   sound_play SoundSystem.HIT))).
      rewrite (Hs i). destruct (decide (i < MAX_ENEMY_BULLETS)%nat); [reflexivity|lia].
  - destruct (contact_loop Enemies _ (enemy_contact cos sin) MAX_ENEMIES w Hint)
      as (Hl & Hp & Hs).
    cbv zeta. split; [exact Hl|]. split; [exact Hp|]. split.
    + apply (collideEnemiesPlayer_keeps score cos sin); blind.
    + intros i Hi. fold g in Hs.
      change (collideEnemiesPlayer cos sin)
        with (for_range 0 MAX_ENEMIES
                (contact_body Enemies (fun i : nat =>
                   modify_game (fun g => set_lives (wrap_int (lives g - 1)) g) ;;
                   e <- read Enemies i ;;
                   spawnExplosion cos sin (pos e) (width e) ;;
                   g <- get_game ;;
                   spawnExplosion cos sin (pos (player g)) (width (player g)) ;;
                   sound_play SoundSystem.EXPLOSION ;;
                   modify_slot Enemies i deactivate))).
      rewrite (Hs i). destruct (decide (i < MAX_ENEMIES)%nat); [reflexivity|lia].
Qed.

(** With three lives, two enemy bullets on the player take two of them
    and one enemy on the player takes one; the score stays at 700. *)
Lemma contact_costs_lives_witness :
  let after_bullets := game (exec (collideEnemyBulletsPlayer libm_cos libm_sin) ambush_world) in
  let after_enemies := game (exec (collideEnemiesPlayer libm_cos libm_sin) ambush_world) in
  lives (game ambush_world) = 3 /\
  lives after_bullets = 1 /\ lives after_enemies = 2 /\ score after_enemies = 700.
Proof.
  intros after_bullets after_enemies.
  assert (Hint : INT_MIN <= lives (game ambush_world) <= INT_MAX)
    by (vm_compute; split; discriminate).
  destruct (contact_costs_lives libm_cos libm_sin ambush_world Hint)
    as [(L2 & _) (L3 & _ & S3 & _)].
  fold after_bullets in L2. fold after_enemies in L3, S3.
  split; [reflexivity|]. split; [rewrite L2; vm_compute; reflexivity|].
  split; [rewrite L3; vm_compute; reflexivity|rewrite S3; reflexivity].
Defined.

(* ===================================================================== *)
(** * Points for destroyed enemies *)
(* ===================================================================== *)

Lemma wrap_int_plus a b : wrap_int (wrap_int a + b) = wrap_int (a + b).
Proof.
  unfold wrap_int.
  replace ((a + 2 ^ 31) mod 2 ^ 32 - 2 ^ 31 + b + 2 ^ 31)
    with ((a + 2 ^ 31) mod 2 ^ 32 + b) by lia.
  rewrite Zplus_mod_idemp_l. do 2 f_equal. lia.
Qed.

Lemma wrap_int_range a : INT_MIN <= wrap_int a <= INT_MAX.
Proof.
  unfold wrap_int, INT_MIN, INT_MAX.
  pose proof (Z.mod_pos_bound (a + 2 ^ 31) (2 ^ 32) ltac:(lia)). lia.
Qed.

(** overwriting one slot changes the number of active entities by what
    the old and the new entity contribute *)
Lemma count_active_write l : forall k x,
  (k < length l)%nat ->
  (count_active (<[k := x]> l) + (if active (l !!! k) then 1 else 0)
   = count_active l + (if active x then 1 else 0))%nat.
Proof.
  induction l as [|e l IH]; intros k x Hk; [simpl in Hk; lia|].
  destruct k as [|k].
  - cbn. destruct (active e), (active x); lia.
  - cbn [length] in Hk. specialize (IH k x ltac:(lia)).
    change (<[S k := x]> (e :: l)) with (e :: <[k := x]> l).
    change ((e :: l) !!! S k) with (l !!! k).
    cbn [count_active]. lia.
Qed.

#[local] Instance paid_refl : Reflexive paid.
Proof.
  intros g. split; [reflexivity|]. split; [intros j H; exact H|]. intros H.
  split; [exact H|]. split; [lia|].
  rewrite Z.sub_diag, Z.mul_0_r, Z.add_0_r. symmetry. apply wrap_int_id. exact H.
Qed.
#[local] Instance paid_trans : Transitive paid.
Proof.
  intros x y z (L1 & A1 & H1) (L2 & A2 & H2).
  split; [congruence|]. split; [intros j H; apply A1, A2, H|]. intros H.
  destruct (H1 H) as (Hy & Hc1 & E1).
  destruct (H2 Hy) as (Hz & Hc2 & E2).
  split; [exact Hz|]. split; [lia|].
  rewrite E2, E1, wrap_int_plus. f_equal. lia.
Qed.

Lemma paid_of_keeps g g' :
  (score g', enemies g') = (score g, enemies g) -> paid g g'.
Proof.
  intros E. injection E as Es Ee. unfold paid, slot.
  change (pool_of Enemies g') with (enemies g').
  change (pool_of Enemies g) with (enemies g).
  rewrite Es, Ee. apply paid_refl.
Qed.

Lemma enemies_pool g : enemies g = pool_of Enemies g.
Proof. reflexivity. Qed.

(** a slot that is active after a write was active before, unless the
    write put an active entity where there was none *)
Lemma active_after_write (l : list Entity) j x k :
  (active x = true -> active (l !!! j) = true) ->
  active (<[j := x]> l !!! k) = true -> active (l !!! k) = true.
Proof.
  intros Hx. destruct (decide (k = j)) as [->|Hne].
  - destruct (decide (j < length l)%nat) as [Hlt|Hge].
    + rewrite list_lookup_total_insert_eq by exact Hlt. exact Hx.
    + rewrite list_insert_ge by lia. trivial.
  - rewrite list_lookup_total_insert_ne by congruence. trivial.
Qed.

(** where no slot has become active, the enemies that have gone are the
    difference of the two counts *)
Lemma count_gone_spec (l : list Entity) : forall l',
  length l' = length l ->
  (forall j, active (l' !!! j) = true -> active (l !!! j) = true) ->
  count_active l = (count_active l' + count_gone l l')%nat.
Proof.
  induction l as [|e l IH]; intros [|e' l'] Hlen Hmono;
    try discriminate Hlen; [reflexivity|].
  cbn [count_active count_gone].
  rewrite (IH l') by
    (first [ injection Hlen as Hlen; exact Hlen
           | intros j Hj; exact (Hmono (S j) Hj) ]).
  pose proof (Hmono 0%nat) as H0. cbn in H0.
  destruct (active e), (active e'); cbn [andb negb];
    first [lia | discriminate (H0 eq_refl)].
Qed.

Section Paid.
Variable cos sin : float -> float.

(** the destruction of enemy [j]: 100 points, and slot [j] goes out *)
Lemma enemyDestroyed_enemies j w :
  score (game (exec (enemyDestroyed cos sin j) w)) = wrap_int (score (game w) + 100) /\
  pool_of Enemies (game (exec (enemyDestroyed cos sin j) w))
  = <[j := deactivate (slot Enemies j (game w))]> (pool_of Enemies (game w)).
Proof.
  split; [apply (enemyDestroyed_game cos sin j w)|].
  revert w.
  set (R := fun g g' : Game =>
    pool_of Enemies g' = <[j := deactivate (slot Enemies j g)]> (pool_of Enemies g)).
  change (rel R (enemyDestroyed cos sin j)).
  assert (Hc : forall x y z : Game, keeps (pool_of Enemies) x y -> R y z -> R x z).
  { unfold keeps, R, slot. intros x y z H1 H2. rewrite H2, H1. reflexivity. }
  pose proof (spawnExplosion_keeps (pool_of Enemies) cos sin) as He.
  pose proof (spawnPowerup_keeps (pool_of Enemies)) as Hp.
  assert (B1 : blind_to_pool (pool_of Enemies) Explosions) by blind.
  assert (B2 : blind_to_pool (pool_of Enemies) Particles) by blind.
  assert (B3 : blind_to_pool (pool_of Enemies) Powerups) by blind.
  unfold enemyDestroyed.
  eapply (rel_seq (keeps (pool_of Enemies)) R R); [frame| |exact Hc]. intros _.
  eapply (rel_seq (keeps (pool_of Enemies)) R R); [frame| |exact Hc]. intros e.
  eapply (rel_seq (keeps (pool_of Enemies)) R R); [frame| |exact Hc]. intros _.
  eapply (rel_seq (keeps (pool_of Enemies)) R R); [frame| |exact Hc]. intros _.
  eapply (rel_seq (keeps (pool_of Enemies)) R R); [frame| |exact Hc]. intros r.
  eapply (rel_seq (keeps (pool_of Enemies)) R R); [frame|intros _|exact Hc].
  apply rel_modify_slot_f. intros g. unfold R. apply pool_of_set_pool.
Qed.

Lemma bulletHitsEnemy_paid i j w :
  active (slot Enemies j (game w)) = true ->
  paid (game w) (game (exec (bulletHitsEnemy cos sin i j) w)).
Proof.
  intros Hact.
  pose proof (active_in_range _ _ _ Hact) as Hlt.
  rewrite bulletHitsEnemy_exec. cbv zeta.
  set (hit := fun e : Entity => set_health (wrap_int (health e - 10)) e).
  set (w2 := exec (modify_slot Enemies j hit)
               (exec (modify_slot PlayerBullets i deactivate) w)).
  assert (Es : score (game w2) = score (game w)) by reflexivity.
  assert (Ee : pool_of Enemies (game w2)
               = <[j := hit (slot Enemies j (game w))]> (pool_of Enemies (game w))).
  { unfold w2. rewrite game_modify_slot, pool_of_set_pool.
    rewrite game_modify_slot.
    rewrite (slot_set_other_pool Enemies PlayerBullets) by discriminate.
    rewrite (pool_of_set_other_pool Enemies PlayerBullets) by discriminate.
    reflexivity. }
  assert (Ec : count_active (pool_of Enemies (game w2))
               = count_active (pool_of Enemies (game w))).
  { rewrite Ee.
    pose proof (count_active_write (pool_of Enemies (game w)) j
                  (hit (slot Enemies j (game w))) Hlt) as Hc.
    change (active (hit (slot Enemies j (game w)))) with (active (slot Enemies j (game w)))
      in Hc.
    change (pool_of Enemies (game w) !!! j) with (slot Enemies j (game w)) in Hc.
    rewrite Hact in Hc. lia. }
  assert (Ea : active (slot Enemies j (game w2)) = true).
  { unfold slot. rewrite Ee. rewrite list_lookup_total_insert_eq by exact Hlt. exact Hact. }
  assert (Em : forall k, active (slot Enemies k (game w2)) = true ->
                         active (slot Enemies k (game w)) = true).
  { intros k. unfold slot. rewrite Ee. apply active_after_write. intros _. exact Hact. }
  destruct (health (slot Enemies j (game w2)) <=? 0).
  - destruct (enemyDestroyed_enemies j w2) as [Hs He].
    unfold paid, slot.
    rewrite (enemies_pool (game w)), (enemies_pool (game (exec _ w2))), Hs, He, Es.
    split; [rewrite length_insert, Ee, length_insert; reflexivity|].
    split.
    { intros k Hk. apply Em. revert Hk. apply active_after_write. discriminate. }
    intros Hint.
    pose proof (count_active_write (pool_of Enemies (game w2)) j
                  (deactivate (slot Enemies j (game w2)))) as Hc.
    change (pool_of Enemies (game w2) !!! j) with (slot Enemies j (game w2)) in Hc.
    rewrite Ea in Hc. cbn [deactivate set_active active] in Hc.
    specialize (Hc ltac:(rewrite Ee, length_insert; exact Hlt)).
    rewrite Ec in Hc.
    split; [apply wrap_int_range|]. split; [lia|]. f_equal. lia.
  - assert (Eg : game (exec (sound_play SoundSystem.HIT) w2) = game w2)
      by (destruct w2; reflexivity).
    unfold paid.
    rewrite Eg, (enemies_pool (game w)), (enemies_pool (game w2)), Es, Ec.
    split; [rewrite Ee, length_insert; reflexivity|].
    split; [exact Em|]. intros Hint.
    split; [exact Hint|]. split; [lia|].
    rewrite Z.sub_diag, Z.mul_0_r, Z.add_0_r. symmetry. apply wrap_int_id. exact Hint.
Qed.

Lemma collideBulletsEnemies_paid : rel paid (collideBulletsEnemies cos sin).
Proof.
  unfold collideBulletsEnemies. apply rel_for_range. intros i.
  apply rel_bind; [apply rel_read|intros b].
  destruct (negb (active b)); [apply rel_ret|].
  apply rel_bind; [|intros; apply rel_ret].
  unfold bulletVsEnemies. apply rel_for_range. intros j w.
  rewrite exec_bind.
  change (fst (read Enemies j w)) with (slot Enemies j (game w)).
  change (exec (read Enemies j) w) with w.
  destruct (active (slot Enemies j (game w))) eqn:Hact; cbn [negb]; [|reflexivity].
  rewrite exec_bind.
  change (exec (read PlayerBullets i) w) with w.
  destruct (Rect.intersects _ _); [|reflexivity].
  rewrite exec_bind.
  change (exec (ret Break) ?x) with x.
  apply bulletHitsEnemy_paid. exact Hact.
Qed.
End Paid.

(** X12.  The loop of player bullets against enemies activates no slot
    of [enemies]: a slot that is active after it was active before it.
    It raises the score by 100 (in [int] arithmetic) for every slot it
    has deactivated and by nothing else, and it touches neither the
    lives nor the player. *)
Theorem destroyed_enemies_are_paid (cos sin : float -> float) (w : World) :
  INT_MIN <= score (game w) <= INT_MAX ->
  let g := game w in
  let g' := game (exec (collideBulletsEnemies cos sin) w) in
  (forall j, active (slot Enemies j g') = true -> active (slot Enemies j g) = true) /\
  score g' = wrap_int (score g + 100 * Z.of_nat (count_gone (enemies g) (enemies g'))) /\
  lives g' = lives g /\ player g' = player g.
Proof.
  intros Hint g g'.
  destruct (collideBulletsEnemies_paid cos sin w) as (Hl & Hm & Hp).
  destruct (Hp Hint) as (_ & Hc & Hs). fold g g' in Hl, Hm, Hc, Hs.
  split; [exact Hm|]. split.
  - rewrite Hs. do 2 f_equal.
    rewrite (count_gone_spec (enemies g) (enemies g') Hl Hm). lia.
  - split.
    + apply (collideBulletsEnemies_keeps lives cos sin); blind.
    + apply (collideBulletsEnemies_keeps player cos sin); blind.
Qed.

(** One bullet inside two enemies: the first of them, with 10 points of
    health, is destroyed for 100 points; the other is not touched. *)
Lemma destroyed_enemies_are_paid_witness :
  let g := game crossfire_world in
  let g' := game (exec (collideBulletsEnemies libm_cos libm_sin) crossfire_world) in
  count_active (enemies g) = 2%nat /\ count_active (enemies g') = 1%nat /\
  count_gone (enemies g) (enemies g') = 1%nat /\
  score g' = score g + 100.
Proof.
  intros g g'.
  assert (Hint : INT_MIN <= score (game crossfire_world) <= INT_MAX)
    by (vm_compute; split; discriminate).
  destruct (destroyed_enemies_are_paid libm_cos libm_sin crossfire_world Hint)
    as (_ & Hs & _).
  fold g g' in Hs.
  assert (E : count_gone (enemies g) (enemies g') = 1%nat) by (vm_compute; reflexivity).
  split; [reflexivity|]. split; [vm_compute; reflexivity|]. split; [exact E|].
  rewrite Hs, E. vm_compute. reflexivity.
Defined.

(* ===================================================================== *)
(** * The buzzer *)
(* ===================================================================== *)

#[local] Instance sounding_refl : Reflexive sounding.
Proof. intros w H. exact H. Qed.
#[local] Instance sounding_trans : Transitive sounding.
Proof. intros x y z H1 H2 H. apply H2, H1, H. Qed.

Section WRel.
Context {R : World -> World -> Prop} `{!Reflexive R} `{!Transitive R}.

Lemma wrel_ret {A} (a : A) : wrel R (ret a).
Proof. intros w. reflexivity. Qed.
Lemma wrel_bind {A B} (m : M A) (k : A -> M B) :
  wrel R m -> (forall a, wrel R (k a)) -> wrel R (bind m k).
Proof.
  intros Hm Hk w. rewrite exec_bind. etransitivity; [apply Hm|apply Hk].
Qed.
Lemma wrel_when (b : bool) (m : M unit) : wrel R m -> wrel R (when b m).
Proof. destruct b; [trivial|intros _; apply wrel_ret]. Qed.
Lemma wrel_for_range body from n :
  (forall i, wrel R (body i)) -> wrel R (for_range from n body).
Proof.
  intros Hb w.
  apply (for_range_ind body (fun _ w' => R w w') (fun w' => R w w')).
  - intros i w' _ HR. specialize (Hb i w'). unfold exec in Hb.
    destruct (fst (body i w')); etransitivity; eauto.
  - trivial.
  - reflexivity.
Qed.
End WRel.

(** a statement that touches neither the sound system nor the tone
    channel *)
Lemma sounding_quiet {A} (m : M A) :
  (forall w, sound (exec m w) = sound w /\ ledc_tone (exec m w) = ledc_tone w) ->
  wrel sounding m.
Proof.
  intros H w. destruct (H w) as [Hs Ht]. unfold sounding, buzzer_ok.
  rewrite Hs, Ht. trivial.
Qed.

Lemma sound_play_sounding effect : wrel sounding (sound_play effect).
Proof.
  intros w _. unfold buzzer_ok.
  destruct effect; cbn; (split; [|reflexivity]); unfold tones; cbn; auto 6.
Qed.

Lemma sound_update_sounding : wrel sounding sound_update.
Proof.
  intros w H. unfold exec, sound_update. cbv zeta.
  destruct (SoundSystem.isPlaying (sound w)) eqn:Hp; [|exact H].
  unfold bind, when. cbn [fst snd millis].
  destruct (_ >? _).
  - unfold buzzer_ok. cbn. reflexivity.
  - unfold buzzer_ok in *. cbn. exact H.
Qed.

Lemma sound_init_sounding w : ledc_tone w = 0 -> buzzer_ok (exec sound_init w).
Proof. intros H. exact H. Qed.

Ltac quiet := apply sounding_quiet; intros ?; split; reflexivity.

Ltac sframe_step :=
  lazymatch goal with
  | |- wrel _ (bind _ _) => apply wrel_bind; [|intros ?]
  | |- wrel _ (ret _) => apply wrel_ret
  | |- wrel _ (when _ _) => apply wrel_when
  | |- wrel _ (for_range _ _ _) => apply wrel_for_range; intros ?
  | |- wrel _ (if ?b then _ else _) => destruct b
  | |- wrel _ (match ?x with _ => _ end) => destruct x
  | |- wrel _ (sound_play _) => apply sound_play_sounding
  | |- wrel _ sound_update => apply sound_update_sounding
  | |- wrel _ get_game => quiet
  | |- wrel _ get_input => quiet
  | |- wrel _ (read _ _) => quiet
  | |- wrel _ millis => quiet
  | |- wrel _ (random ?a ?b) =>
      apply sounding_quiet; intros ?; unfold random; destruct (a >=? b); split; reflexivity
  | |- wrel _ (Entity_init _ _ _ _ _ _ _) => quiet
  | |- wrel _ (input_update _) => quiet
  | |- wrel _ (modify_game _) => quiet
  | |- wrel _ (write _ _ _) => quiet
  | |- wrel _ (modify_slot _ _ _) => quiet
  | |- wrel _ _ => solve [eauto]
  end.
Ltac sframe := repeat sframe_step.

Section Buzzer.
Variable cos sin : float -> float.

Lemma deactivate_all_sounding p : wrel sounding (deactivate_all p).
Proof. unfold deactivate_all. sframe. Qed.
Lemma init_sounding : wrel sounding init.
Proof. pose proof deactivate_all_sounding. unfold init. sframe. Qed.
Lemma spawnEnemy_sounding t ps v : wrel sounding (spawnEnemy t ps v).
Proof. unfold spawnEnemy. sframe. Qed.
Lemma spawnPlayerBullet_sounding ps v : wrel sounding (spawnPlayerBullet ps v).
Proof. unfold spawnPlayerBullet. sframe. Qed.
Lemma spawnEnemyBullet_sounding ps v : wrel sounding (spawnEnemyBullet ps v).
Proof. unfold spawnEnemyBullet. sframe. Qed.
Lemma spawnParticle_sounding ps v : wrel sounding (spawnParticle ps v).
Proof. unfold spawnParticle. sframe. Qed.
Lemma spawnPowerup_sounding ps t : wrel sounding (spawnPowerup ps t).
Proof. unfold spawnPowerup. sframe. Qed.
Lemma spawnExplosion_sounding ps size : wrel sounding (spawnExplosion cos sin ps size).
Proof. pose proof spawnParticle_sounding. unfold spawnExplosion. sframe. Qed.

Lemma updatePlayer_sounding : wrel sounding updatePlayer.
Proof. pose proof spawnPlayerBullet_sounding. unfold updatePlayer. sframe. Qed.
Lemma spawnWave_sounding : wrel sounding spawnWave.
Proof. pose proof spawnEnemy_sounding. unfold spawnWave. sframe. Qed.
Lemma updateEnemies_sounding : wrel sounding updateEnemies.
Proof. pose proof spawnEnemyBullet_sounding. unfold updateEnemies. sframe. Qed.
Lemma updateBullets_sounding : wrel sounding updateBullets.
Proof. unfold updateBullets. sframe. Qed.
Lemma updatePowerups_sounding : wrel sounding updatePowerups.
Proof. unfold updatePowerups. sframe. Qed.
Lemma updateExplosions_sounding : wrel sounding updateExplosions.
Proof. unfold updateExplosions. sframe. Qed.
Lemma updateParticles_sounding : wrel sounding updateParticles.
Proof. unfold updateParticles. sframe. Qed.

Lemma checkCollisions_sounding : wrel sounding (checkCollisions cos sin).
Proof.
  pose proof spawnExplosion_sounding. pose proof spawnPowerup_sounding.
  unfold checkCollisions, collideBulletsEnemies, bulletVsEnemies, bulletHitsEnemy,
    enemyDestroyed, collideEnemyBulletsPlayer, collideEnemiesPlayer,
    collidePowerupsPlayer.
  sframe.
Qed.

Lemma update_sounding : wrel sounding (update cos sin).
Proof.
  pose proof init_sounding. pose proof checkCollisions_sounding.
  pose proof updatePlayer_sounding. pose proof spawnWave_sounding.
  pose proof updateEnemies_sounding. pose proof updateBullets_sounding.
  pose proof updatePowerups_sounding. pose proof updateExplosions_sounding.
  pose proof updateParticles_sounding.
  unfold update, updatePlaying, startGame. sframe.
Qed.

Lemma loop_sounding touch : wrel sounding (loop cos sin touch).
Proof.
  pose proof update_sounding.
  assert (Hb : forall b t, wrel sounding (when b
    (input_update touch ;; update cos sin ;; sound_update ;;
     fun w' => (tt, with_lastFrame t w')))).
  { intros b t. sframe. quiet. }
  intros w. unfold loop. rewrite exec_bind.
  set (w1 := exec millis w). set (t := fst (millis w)).
  intros Hw. assert (H1 : buzzer_ok w1) by exact Hw.
  revert H1. unfold exec at 1. cbv beta.
  exact (Hb (wrap_ulong (t - lastFrame w1) >=? FRAME_TIME) t w1).
Qed.
End Buzzer.

(** X13.  In every reachable state the tone channel agrees with the
    sound system: when no sound is marked as playing the buzzer is
    silent (frequency 0), and otherwise it sounds the frequency of the
    current sound, which is one of the five effects (1500 Hz for 50 ms,
    300 for 200, 200 for 100, 2000 for 150, 800 for 40). *)
Theorem buzzer_follows_sound (cos sin : float -> float) (w : World) :
  reachable cos sin w ->
  if SoundSystem.isPlaying (sound w)
  then In (SoundSystem.currentSound (sound w)) tones /\
       ledc_tone w = fst (SoundSystem.currentSound (sound w))
  else ledc_tone w = 0.
Proof.
  intros Hr. change (buzzer_ok w).
  induction Hr as [clock rng|w touch Hr IH].
  - unfold setup. rewrite exec_bind. apply init_sounding.
    apply sound_init_sounding. reflexivity.
  - apply loop_sounding. exact IH.
Qed.

(** The duel: in frame 88 the bullets strike and the hit sound (200 Hz)
    is on; two frames later its 100 ms are over and the buzzer is
    silent. *)
Lemma buzzer_follows_sound_witness :
  (SoundSystem.isPlaying (sound (duel 88)) = true /\ ledc_tone (duel 88) = 200) /\
  (SoundSystem.isPlaying (sound (duel 90)) = false /\ ledc_tone (duel 90) = 0).
Proof.
  pose proof (buzzer_follows_sound libm_cos libm_sin (duel 88) (duel_reachable 88)) as H88.
  pose proof (buzzer_follows_sound libm_cos libm_sin (duel 90) (duel_reachable 90)) as H90.
  assert (P88 : SoundSystem.isPlaying (sound (duel 88)) = true) by (vm_compute; reflexivity).
  assert (P90 : SoundSystem.isPlaying (sound (duel 90)) = false) by (vm_compute; reflexivity).
  rewrite P88 in H88. rewrite P90 in H90. destruct H88 as [_ T].
  split; split; [exact P88| |exact P90|exact H90].
  rewrite T. vm_compute. reflexivity.
Defined.

(** ** How long a sound lasts *)

Lemma sound_update_stopped w :
  SoundSystem.isPlaying (sound w) = false -> exec sound_update w = w.
Proof. intros H. unfold exec, sound_update. cbv zeta. rewrite H. reflexivity. Qed.

Lemma sound_update_iter w n :
  SoundSystem.isPlaying (sound w) = true ->
  let w_n := Nat.iter n (exec sound_update) w in
  ((forall k, (k < n)%nat ->
      sound_elapsed w k <= sound_length w) /\
   w_n = mkWorld (game w) (input w) (sound w) (lastFrame w) (ledc_tone w)
                 (millis_src w) (millis_calls w + n) (random_src w) (random_calls w))
  \/
  ((exists k, (k < n)%nat /\
      sound_elapsed w k > sound_length w) /\
   SoundSystem.isPlaying (sound w_n) = false /\ ledc_tone w_n = 0).
Proof.
  intros Hp. induction n as [|n IH]; cbv zeta.
  - left. split; [intros k Hk; lia|]. cbn [Nat.iter nat_rect].
    rewrite Nat.add_0_r. destruct w; reflexivity.
  - rewrite Nat.iter_succ. cbv zeta in IH.
    destruct IH as [[Hin Ew]|[(k & Hk & Hout) [Hs Ht]]].
    + rewrite Ew. unfold exec, sound_update. cbv zeta.
      cbn [sound]. rewrite Hp. unfold bind, when. cbn [fst snd millis millis_src millis_calls sound].
      fold (sound_elapsed w n). fold (sound_length w).
      destruct (Z.gtb_spec (sound_elapsed w n) (sound_length w))
        as [Hgt|Hle].
      * right. split; [exists n; split; [lia|lia]|]. split; reflexivity.
      * left. split.
        -- intros k Hk. destruct (decide (k = n)) as [->|]; [exact Hle|apply Hin; lia].
        -- cbn. f_equal. lia.
    + right. split; [exists k; split; [lia|exact Hout]|].
      rewrite sound_update_stopped by exact Hs. split; assumption.
Qed.

(** X14.  A sound that is playing keeps playing through every
    [sound.update()] whose clock reading is at most its duration after
    its start, and is stopped by the first update that reads a later
    time, which also silences the buzzer.  Both sides of the comparison
    are [unsigned long]: the elapsed time wraps, and the [int] duration
    is converted, so a negative duration counts as a very long one.
    While the sound plays, the tone is not touched and each update reads
    the clock once; once it has stopped it stays stopped. *)
Theorem sound_stops_on_time (w : World) (n : nat) :
  SoundSystem.isPlaying (sound w) = true ->
  let w_n := Nat.iter n (exec sound_update) w in
  (SoundSystem.isPlaying (sound w_n) = true <->
   forall k, (k < n)%nat ->
     sound_elapsed w k <= sound_length w) /\
  (SoundSystem.isPlaying (sound w_n) = true ->
     ledc_tone w_n = ledc_tone w /\ millis_calls w_n = (millis_calls w + n)%nat) /\
  (SoundSystem.isPlaying (sound w_n) = false -> ledc_tone w_n = 0).
Proof.
  intros Hp w_n.
  destruct (sound_update_iter w n Hp) as [[Hin Ew]|[(k & Hk & Hout) [Hs Ht]]];
    cbv zeta in *; [fold w_n in Ew|fold w_n in Hs, Ht].
  - assert (Hs : SoundSystem.isPlaying (sound w_n) = true) by (rewrite Ew; exact Hp).
    split; [split; [intros _; exact Hin|intros _; exact Hs]|].
    split; [intros _; rewrite Ew; split; reflexivity|].
    rewrite Hs. discriminate.
  - split; [|split].
    + rewrite Hs. split; [discriminate|]. intros Hall. specialize (Hall k Hk). lia.
    + rewrite Hs. discriminate.
    + intros _. exact Ht.
Qed.

(** The hit sound lasts 100 ms.  Started at 3000, it is still on after
    the updates at 3040 and 3080 and is switched off by the one at
    3120.  A tone of duration -1 is still on after the same three
    updates. *)
Lemma sound_stops_on_time_witness :
  let w2 := Nat.iter 2 (exec sound_update) beep_world in
  let w3 := Nat.iter 3 (exec sound_update) beep_world in
  let v3 := Nat.iter 3 (exec sound_update) drone_world in
  (SoundSystem.isPlaying (sound w2) = true /\ ledc_tone w2 = 200) /\
  (SoundSystem.isPlaying (sound w3) = false /\ ledc_tone w3 = 0) /\
  (SoundSystem.isPlaying (sound v3) = true /\ ledc_tone v3 = 440).
Proof.
  intros w2 w3 v3.
  assert (Hp : SoundSystem.isPlaying (sound beep_world) = true) by reflexivity.
  assert (Hq : SoundSystem.isPlaying (sound drone_world) = true) by reflexivity.
  destruct (sound_stops_on_time beep_world 2 Hp) as (A2 & T2 & _).
  destruct (sound_stops_on_time beep_world 3 Hp) as (A3 & _ & T3).
  destruct (sound_stops_on_time drone_world 3 Hq) as (B3 & U3 & _).
  fold w2 in A2, T2. fold w3 in A3, T3. fold v3 in B3, U3.
  assert (P2 : SoundSystem.isPlaying (sound w2) = true).
  { apply A2. intros k Hk.
    destruct k as [|[|k]]; [vm_compute; discriminate|vm_compute; discriminate|lia]. }
  assert (P3 : SoundSystem.isPlaying (sound w3) = false).
  { destruct (SoundSystem.isPlaying (sound w3)) eqn:E; [|reflexivity].
    pose proof (proj1 A3 eq_refl 2%nat ltac:(lia)) as C. vm_compute in C.
    exfalso. apply C. reflexivity. }
  assert (Q3 : SoundSystem.isPlaying (sound v3) = true).
  { apply B3. intros k Hk.
    destruct k as [|[|[|k]]];
      [vm_compute; discriminate|vm_compute; discriminate|vm_compute; discriminate|lia]. }
  split; [split; [exact P2|rewrite (proj1 (T2 P2)); reflexivity]|].
  split; [split; [exact P3|exact (T3 P3)]|].
  split; [exact Q3|rewrite (proj1 (U3 Q3)); reflexivity].
Defined.

(* ===================================================================== *)
(** * The march of the enemies *)
(* ===================================================================== *)

Lemma slot_written p i x g k :
  (i < length (pool_of p g))%nat ->
  slot p k (set_pool p (<[i := x]> (pool_of p g)) g)
  = if decide (k = i) then x else slot p k g.
Proof.
  intros Hlt. rewrite slot_insert.
  destruct (decide (k = i)) as [->|Hne].
  - destruct (decide _) as [_|Hn]; [reflexivity|]. exfalso. apply Hn. auto.
  - destruct (decide _) as [[E _]|_]; [congruence|reflexivity].
Qed.

(** one iteration of [updateEnemies], seen from the enemy array and the
    player *)
Lemma bind_unfold {A B} (m : M A) (k : A -> M B) w :
  bind m k w = k (fst (m w)) (snd (m w)).
Proof. reflexivity. Qed.

Lemma updateEnemies_body i w :
  let body := fun i : nat =>
    (e <- read Enemies i ;;
     if negb (active e) then ret Continue
     else
       g <- get_game ;;
       let dir := Vec2_normalize (Vec2.sub (pos (player g)) (pos e)) in
       modify_slot Enemies i (fun e =>
         set_pos (Vec2.mk
           (F64.to_float
              (F64.add (F64.of_float (Vec2.x (pos e)))
                       (F64.mul (F64.of_float (Vec2.x dir * Vec2.y (vel e))%f32)
                                (F64.lit 15 10))))
           (Vec2.y (pos e))) e) ;;
       modify_slot Enemies i (fun e =>
         set_pos (Vec2.mk (Vec2.x (pos e)) (Vec2.y (pos e) + Vec2.y (vel e))%f32) e) ;;
       e <- read Enemies i ;;
       if (Vec2.y (pos e) >? F32.of_Z (SCREEN_HEIGHT + 20))%f32 then
         modify_slot Enemies i deactivate ;; ret Continue
       else
         r <- random 0 100 ;;
         when (r <? 2)
           (e <- read Enemies i ;;
            spawnEnemyBullet (pos e) (Vec2.mk (F32.of_Z 0) (F32.of_Z 3)) ;;
            sound_play SoundSystem.ENEMY_SHOOT) ;;
         ret Continue) in
  fst (body i w) = Continue /\
  player (game (snd (body i w))) = player (game w) /\
  forall k, slot Enemies k (game (snd (body i w))) =
    if decide (k = i)
    then tick (steer (pos (player (game w))))
              (fun e => (Vec2.y (pos e) >? F32.of_Z (SCREEN_HEIGHT + 20))%f32)
              (slot Enemies i (game w))
    else slot Enemies k (game w).
Proof.
  intros body. unfold body. clear body.
  rewrite bind_unfold. cbn [fst snd read].
  set (e := slot Enemies i (game w)). unfold tick. fold e.
  destruct (active e) eqn:Hact; cbn [negb].
  2: { split; [reflexivity|]. split; [reflexivity|].
       intros k. destruct (decide (k = i)) as [->|]; reflexivity. }
  pose proof (active_in_range _ _ _ Hact) as Hlt.
  rewrite bind_unfold. cbn [fst snd get_game]. cbv zeta.
  set (f1 := fun e0 : Entity => set_pos _ e0).
  rewrite bind_unfold.
  set (w1 := snd (modify_slot Enemies i f1 w)).
  assert (Hg1 : game w1 = set_pool Enemies (<[i := f1 e]> (pool_of Enemies (game w)))
                           (game w)) by reflexivity.
  rewrite bind_unfold.
  set (f2 := fun e0 : Entity =>
    set_pos (Vec2.mk (Vec2.x (pos e0)) (Vec2.y (pos e0) + Vec2.y (vel e0))%f32) e0).
  destruct (modify_written_slot Enemies i f2 _ _ w1 Hlt Hg1) as [_ Hg2].
  change (exec (modify_slot Enemies i f2) w1) with (snd (modify_slot Enemies i f2 w1))
    in Hg2.
  set (w2 := snd (modify_slot Enemies i f2 w1)) in *.
  assert (Est : f2 (f1 e) = steer (pos (player (game w))) e) by reflexivity.
  rewrite Est in Hg2.
  destruct (modify_written_slot Enemies i deactivate _ _ w2 Hlt Hg2) as [Hs2 Hg3].
  rewrite bind_unfold. cbn [fst snd read]. rewrite Hs2.
  destruct (Vec2.y (pos (steer (pos (player (game w))) e))
            >? F32.of_Z (SCREEN_HEIGHT + 20))%f32.
  - rewrite bind_unfold. cbn [fst snd ret].
    change (snd (modify_slot Enemies i deactivate w2))
      with (exec (modify_slot Enemies i deactivate) w2).
    split; [reflexivity|]. rewrite Hg3.
    split; [destruct (game w); reflexivity|].
    intros k. apply slot_written. exact Hlt.
  - set (rest := (r <- random 0 100 ;;
                  when (r <? 2)
                    (e <- read Enemies i ;;
                     spawnEnemyBullet (pos e) (Vec2.mk (F32.of_Z 0) (F32.of_Z 3)) ;;
                     sound_play SoundSystem.ENEMY_SHOOT) ;;
                  ret Continue)).
    assert (Hflow : forall w0, fst (rest w0) = Continue).
    { intros w0. unfold rest, bind. reflexivity. }
    assert (Hkeep : forall {A} (proj : Game -> A),
              blind_to_pool proj EnemyBullets -> rel (keeps proj) rest).
    { intros A proj Hb. pose proof (spawnEnemyBullet_keeps proj) as Hsp.
      unfold rest. frame. }
    split; [apply Hflow|]. split.
    + change (snd (rest w2)) with (exec rest w2).
      rewrite (Hkeep _ player) by blind. rewrite Hg2. destruct (game w); reflexivity.
    + intros k. change (snd (rest w2)) with (exec rest w2).
      rewrite (Hkeep _ (slot Enemies k))
        by (apply slot_blind_other_pool; discriminate).
      rewrite Hg2. apply slot_written. exact Hlt.
Qed.

Lemma updateEnemies_slot w i :
  (i < MAX_ENEMIES)%nat ->
  player (game (exec updateEnemies w)) = player (game w) /\
  slot Enemies i (game (exec updateEnemies w))
  = tick (steer (pos (player (game w))))
         (fun e => (Vec2.y (pos e) >? F32.of_Z (SCREEN_HEIGHT + 20))%f32)
         (slot Enemies i (game w)).
Proof.
  intros Hi. unfold updateEnemies.
  set (T := tick (steer (pos (player (game w))))
                 (fun e => (Vec2.y (pos e) >? F32.of_Z (SCREEN_HEIGHT + 20))%f32)).
  apply (for_range_ind _
    (fun n w' => player (game w') = player (game w) /\
       forall k, slot Enemies k (game w') =
         if decide (k < n)%nat then T (slot Enemies k (game w))
         else slot Enemies k (game w))
    (fun w' => player (game w') = player (game w) /\
               slot Enemies i (game w') = T (slot Enemies i (game w)))).
  - intros j w' _ [Hp HP].
    pose proof (updateEnemies_body j w') as Hb. cbv zeta in Hb.
    destruct Hb as (Hc & Hpl & Hs). rewrite Hc.
    split; [rewrite Hpl; exact Hp|].
    intros k. rewrite Hs, Hp. fold T. rewrite (HP j), (HP k).
    destruct (decide (j < j)%nat); [lia|].
    destruct (decide (k = j)) as [->|Hne].
    + destruct (decide (j < S j)%nat); [reflexivity|lia].
    + destruct (decide (k < j)%nat), (decide (k < S j)%nat); try reflexivity; lia.
  - intros w' [Hp HP]. split; [exact Hp|]. rewrite (HP i).
    destruct (decide _); [reflexivity|]. unfold MAX_ENEMIES in *. lia.
  - split; [reflexivity|]. intros k. destruct (decide (k < 0)%nat); [lia|reflexivity].
Qed.

(** X15.  One [updateEnemies] moves every active enemy down by its
    falling speed, whatever the player does, and sideways towards the
    player's position of this frame by the x component of the unit
    vector to the player times the falling speed times 1.5; it
    deactivates the enemy exactly when the new y is greater than
    SCREEN_HEIGHT + 20 = 340.  Velocity, size and health are not
    touched, inactive slots are skipped, and the player is as before. *)
Theorem enemies_descend (w : World) (i : nat) :
  (i < MAX_ENEMIES)%nat ->
  let e := slot Enemies i (game w) in
  let e' := slot Enemies i (game (exec updateEnemies w)) in
  player (game (exec updateEnemies w)) = player (game w) /\
  if active e
  then e' = set_active (negb (Vec2.y (pos e) + Vec2.y (vel e) >? F32.of_Z 340)%f32)
                       (steer (pos (player (game w))) e) /\
       Vec2.y (pos e') = (Vec2.y (pos e) + Vec2.y (vel e))%f32 /\
       vel e' = vel e /\ health e' = health e /\
       width e' = width e /\ height e' = height e
  else e' = e.
Proof.
  intros Hi e e'. destruct (updateEnemies_slot w i Hi) as [Hp Hs].
  split; [exact Hp|]. unfold e'. rewrite Hs. fold e. unfold tick.
  change (F32.of_Z (SCREEN_HEIGHT + 20)) with (F32.of_Z 340).
  destruct (active e) eqn:Hact; [|reflexivity].
  set (s := steer (pos (player (game w))) e).
  assert (Ha : active s = true) by exact Hact.
  change (Vec2.y (pos e) + Vec2.y (vel e))%f32 with (Vec2.y (pos s)).
  destruct (Vec2.y (pos s) >? F32.of_Z 340)%f32 eqn:Hc.
  - split; [reflexivity|]. repeat split.
  - split; [|repeat split].
    cbn [negb]. unfold set_active. rewrite <- Ha. destruct s; reflexivity.
Qed.

(** The fast enemy of the duel, 80 frames in: it stands at height 220
    straight above the player and the next update takes it to 223. *)
Lemma enemies_descend_witness :
  let e := slot Enemies 0 (game (duel 80)) in
  let e' := slot Enemies 0 (game (exec updateEnemies (duel 80))) in
  Vec2.y (pos e) = F32.of_Z 220 /\ active e' = true /\ Vec2.y (pos e') = F32.of_Z 223.
Proof.
  intros e e'.
  assert (Hi : (0 < MAX_ENEMIES)%nat) by (unfold MAX_ENEMIES; lia).
  destruct (enemies_descend (duel 80) 0 Hi) as [_ H]. cbv zeta in H. fold e e' in H.
  assert (A : active e = true) by (vm_compute; reflexivity).
  rewrite A in H. destruct H as (E & Y & _).
  split; [vm_compute; reflexivity|]. split.
  - rewrite E. cbn [active set_active]. vm_compute. reflexivity.
  - rewrite Y. vm_compute. reflexivity.
Defined.

(* ===================================================================== *)
(** * The virtual joystick *)
(* ===================================================================== *)




Lemma wrap_u16_range z : 0 <= wrap_u16 z < 2 ^ 16.
Proof. apply Z.mod_pos_bound. lia. Qed.


(** and for one elsewhere: the joystick stays as it was *)
Lemma input_update_right w x y :
  240 <= wrap_u16 x ->
  InputSystem.joystickPos (input (exec (input_update (Some (x, y))) w))
  = InputSystem.joystickPos (input w).
Proof.
  intros Hx. unfold exec, input_update. cbn [snd input with_input].
  change (SCREEN_WIDTH / 2) with 240.
  destruct (Z.ltb_spec (wrap_u16 x) 240); [lia|]. reflexivity.
Qed.



(* ===================================================================== *)
(** * The arrival of the enemies *)
(* ===================================================================== *)

Lemma random_range a b w : a < b -> a <= fst (random a b w) < b.
Proof.
  intros H. unfold random. destruct (Z.geb_spec a b); [lia|]. cbn [fst].
  pose proof (Z.mod_pos_bound (random_src w (random_calls w)) (b - a) ltac:(lia)). lia.
Qed.

(** X17.  The spawn block of [update] does nothing to the game unless
    more than 2000 ms have passed on the clock since [lastEnemySpawn].
    When they have, it asks for one enemy, which goes into the first
    free slot of the enemy array if there is one: at height -20, at a
    whole-numbered x from 30 to 449, falling straight down; and it sets
    [lastEnemySpawn] to a reading of the clock taken after the spawn.
    Nothing else in the game changes. *)
Theorem enemies_arrive_one_at_a_time (w : World) :
  let g := game w in
  let g' := game (exec spawnWave w) in
  (wrap_ulong (now w - lastEnemySpawn g) <= 2000 -> g' = g) /\
  (wrap_ulong (now w - lastEnemySpawn g) > 2000 ->
     exists e x,
       30 <= x < 450 /\
       active e = true /\
       pos e = Vec2.mk (F32.of_Z x) (F32.of_Z (-20)) /\
       Vec2.x (vel e) = F32.of_Z 0 /\
       g' = set_lastEnemySpawn
              (wrap_ulong (millis_src w
                 (millis_calls w + match free_slot Enemies g with Some _ => 2 | None => 1 end)%nat))
              (place Enemies e g)).
Proof.
  intros g g'. unfold g'. clear g'.
  unfold spawnWave. rewrite !exec_bind.
  change (fst (millis w)) with (now w).
  change (fst (get_game (exec millis w))) with g.
  change (exec get_game (exec millis w)) with (exec millis w).
  set (w1 := exec millis w).
  destruct (Z.gtb_spec (wrap_ulong (now w - lastEnemySpawn g)) 2000) as [Hgt|Hle];
    cbn [when].
  2: { split; [intros _; reflexivity|intros H; lia]. }
  split; [intros H; lia|]. intros _.
  rewrite exec_bind.
  set (d := fst (random 0 100 w1)). set (w2 := exec (random 0 100) w1).
  destruct (chooseEnemy d) as [ty speed].
  rewrite exec_bind.
  set (x := fst (random 30 (SCREEN_WIDTH - 30) w2)).
  set (w3 := exec (random 30 (SCREEN_WIDTH - 30)) w2).
  assert (Hx : 30 <= x < 450).
  { unfold x. change (SCREEN_WIDTH - 30) with 450. apply random_range. lia. }
  assert (Hg3 : game w3 = g) by reflexivity.
  assert (Hc3 : millis_calls w3 = S (millis_calls w)) by reflexivity.
  assert (Hm3 : millis_src w3 = millis_src w) by reflexivity.
  rewrite !exec_bind.
  set (sp := spawnEnemy ty (Vec2.mk (F32.of_Z x) (F32.of_Z (-20)))
                        (Vec2.mk (F32.of_Z 0) speed)).
  destruct (spawnEnemy_place ty (Vec2.mk (F32.of_Z x) (F32.of_Z (-20)))
              (Vec2.mk (F32.of_Z 0) speed) w3) as (e & (Ha & _ & Hp & Hv) & Hg).
  fold sp in Hg.
  assert (Hclk : fst (millis (exec sp w3))
                 = wrap_ulong (millis_src w
                     (millis_calls w + match free_slot Enemies g with Some _ => 2 | None => 1 end)%nat)).
  { unfold sp, exec. rewrite spawnEnemy_spec. rewrite Hg3.
    destruct (free_slot Enemies g) as [k|].
    - cbn [snd]. destruct ty; cbn; rewrite Hm3, Hc3; do 2 f_equal; lia.
    - cbn. rewrite Hm3, Hc3. do 2 f_equal. lia. }
  exists e, x. split; [exact Hx|]. split; [exact Ha|]. split; [exact Hp|].
  split; [rewrite Hv; reflexivity|].
  rewrite game_modify_game, Hclk.
  change (game (exec millis (exec sp w3))) with (game (exec sp w3)).
  rewrite Hg, Hg3. reflexivity.
Qed.

Lemma stamp_read t g : lastEnemySpawn (set_lastEnemySpawn t g) = t.
Proof. reflexivity. Qed.
Lemma stamp_enemies t g : enemies (set_lastEnemySpawn t g) = pool_of Enemies g.
Proof. reflexivity. Qed.

(** A game just started, 3040 ms on the clock and no spawn yet: the
    block spawns, and stamps the spawn with the reading 3120 that
    follows the one the new enemy took for itself. *)
Lemma enemies_arrive_one_at_a_time_witness :
  let g' := game (exec spawnWave firing_world) in
  now firing_world = 3040 /\ lastEnemySpawn (game firing_world) = 0 /\
  lastEnemySpawn g' = 3120 /\
  count_active (enemies g') = 1%nat.
Proof.
  intros g'.
  destruct (proj2 (enemies_arrive_one_at_a_time firing_world)) as (e & x & _ & Ha & _ & _ & Eg).
  { vm_compute. reflexivity. }
  fold g' in Eg.
  split; [reflexivity|]. split; [reflexivity|]. split.
  - rewrite Eg, stamp_read. vm_compute. reflexivity.
  - rewrite Eg, stamp_enemies.
    apply (place_count Enemies e (game firing_world)); [reflexivity|vm_compute; lia|exact Ha].
Defined.

(* ===================================================================== *)
(** * Powerups *)
(* ===================================================================== *)

Section ContactFold.
Variable p : Pool.
Variable act : nat -> M unit.
Context {X : Type} (obs : Game -> X) (upd : Entity -> X -> X).
Hypothesis Hact : forall i w,
  obs (game (exec (act i) w)) = upd (slot p i (game w)) (obs (game w)) /\
  player (game (exec (act i) w)) = player (game w) /\
  forall k, slot p k (game (exec (act i) w)) =
            if decide (k = i) then deactivate (slot p i (game w))
            else slot p k (game w).

Lemma contact_fold_loop n w :
  let g := game w in
  let g' := game (exec (for_range 0 n (contact_body p act)) w) in
  obs g' = contact_fold p obs upd g n /\
  player g' = player g /\
  forall k, slot p k g' =
    if decide (k < n)%nat
    then (if struck p g k then deactivate (slot p k g) else slot p k g)
    else slot p k g.
Proof.
  intros g g'. unfold g'. clear g'.
  set (P := fun (j : nat) (w' : World) =>
    obs (game w') = contact_fold p obs upd g j /\
    player (game w') = player g /\
    forall k, slot p k (game w') =
      if decide (k < j)%nat
      then (if struck p g k then deactivate (slot p k g) else slot p k g)
      else slot p k g).
  apply (for_range_ind _ P (P n)).
  - intros j w' _ (Hl & Hp & Hs).
    assert (Ej : slot p j (game w') = slot p j g).
    { rewrite (Hs j). destruct (decide (j < j)%nat); [lia|reflexivity]. }
    assert (Hnext : forall k (x : Entity),
      (if decide (k = j) then x else slot p k (game w'))
      = if decide (k < S j)%nat
        then (if decide (k = j) then x
              else if struck p g k then deactivate (slot p k g) else slot p k g)
        else slot p k g).
    { intros k x. rewrite (Hs k).
      destruct (decide (k = j)) as [->|Hne].
      - destruct (decide (j < S j)%nat); [reflexivity|lia].
      - destruct (decide (k < j)%nat), (decide (k < S j)%nat); try reflexivity; lia. }
    unfold contact_body, bind, read, get_game, ret. cbn [fst snd].
    rewrite Ej.
    assert (Est : struck p g j
                  = active (slot p j g)
                    && Rect.intersects (getRect (slot p j g)) (getRect (player g)))
      by reflexivity.
    destruct (active (slot p j g)) eqn:Hact'; cbn [negb andb] in *; cbv beta;
      rewrite ?Hp.
    2: { cbn [fst snd]. unfold P. cbn [contact_fold]. rewrite Est.
         split; [exact Hl|]. split; [exact Hp|].
         intros k. pose proof (Hnext k (slot p j (game w'))) as Hn.
         destruct (decide (k = j)) as [->|Hne].
         - rewrite Hn. destruct (decide (j < S j)%nat); [|lia].
           rewrite Est. exact Ej.
         - rewrite Hn. destruct (decide (k < S j)%nat); reflexivity. }
    destruct (Rect.intersects (getRect (slot p j g)) (getRect (player g))) eqn:Hx;
      cbn [when fst snd].
    + destruct (Hact j w') as (Al & Ap & As).
      change (snd (act j w')) with (exec (act j) w').
      unfold P. cbn [contact_fold]. rewrite Est.
      split; [rewrite Al, Hl, Ej; reflexivity|]. split; [rewrite Ap; exact Hp|].
      intros k. rewrite (As k), Ej, (Hnext k (deactivate (slot p j g))).
      destruct (decide (k < S j)%nat); [|reflexivity].
      destruct (decide (k = j)) as [->|Hne]; [rewrite Est|]; reflexivity.
    + unfold P, ret. cbn [contact_fold snd]. rewrite Est.
      split; [exact Hl|]. split; [exact Hp|].
      intros k. pose proof (Hnext k (slot p j (game w'))) as Hn.
      destruct (decide (k = j)) as [->|Hne].
      * rewrite Hn. destruct (decide (j < S j)%nat); [|lia].
        rewrite Est. exact Ej.
      * rewrite Hn. destruct (decide (k < S j)%nat); reflexivity.
  - intros w' HP. exact HP.
  - unfold P. cbn [contact_fold]. split; [reflexivity|]. split; [reflexivity|].
    intros k. destruct (decide (k < 0)%nat); [lia|reflexivity].
Qed.
End ContactFold.

Lemma takePowerup_spec i w :
  armament (game (exec (takePowerup i) w))
  = collect (slot Powerups i (game w)) (armament (game w)) /\
  player (game (exec (takePowerup i) w)) = player (game w) /\
  forall k, slot Powerups k (game (exec (takePowerup i) w)) =
            if decide (k = i) then deactivate (slot Powerups i (game w))
            else slot Powerups k (game w).
Proof.
  unfold takePowerup. rewrite exec_bind.
  change (fst (read Powerups i w)) with (slot Powerups i (game w)).
  change (exec (read Powerups i) w) with w.
  set (e := slot Powerups i (game w)).
  rewrite !exec_bind.
  assert (Hslots : forall w1, pool_of Powerups (game w1) = pool_of Powerups (game w) ->
    forall k, slot Powerups k
                (game (exec (modify_slot Powerups i deactivate)
                         (exec (sound_play SoundSystem.POWERUP) w1))) =
              if decide (k = i) then deactivate e else slot Powerups k (game w)).
  { intros w1 Hp1 k.
    assert (Eg : game (exec (sound_play SoundSystem.POWERUP) w1) = game w1)
      by (destruct w1; reflexivity).
    assert (Hsl : forall j, slot Powerups j (game w1) = slot Powerups j (game w))
      by (intros j; unfold slot; rewrite Hp1; reflexivity).
    rewrite game_modify_slot, Eg, slot_insert, !Hsl, Hp1. fold e.
    destruct (decide (k = i)) as [->|Hne].
    - destruct (decide _) as [_|Hn]; [reflexivity|].
      unfold e. rewrite slot_out_of_range; [reflexivity|].
      destruct (decide (i < length (pool_of Powerups (game w)))%nat);
        [exfalso; apply Hn; auto|lia].
    - destruct (decide _) as [[E _]|_]; [congruence|reflexivity]. }
  assert (Hobs : forall {A} (proj : Game -> A) w1,
    blind_to_pool proj Powerups ->
    proj (game (exec (modify_slot Powerups i deactivate)
                  (exec (sound_play SoundSystem.POWERUP) w1))) = proj (game w1)).
  { intros A proj w1 Hb.
    assert (Eg : game (exec (sound_play SoundSystem.POWERUP) w1) = game w1)
      by (destruct w1; reflexivity).
    rewrite game_modify_slot, Eg. apply Hb. }
  unfold collect. fold e.
  destruct (EntityType_eqb (type e) POWERUP_WEAPON);
    [|destruct (EntityType_eqb (type e) POWERUP_HEALTH)].
  all: split; [rewrite (Hobs _ armament) by blind; reflexivity|];
    split; [rewrite (Hobs _ player) by blind; reflexivity|];
    apply Hslots; reflexivity.
Qed.

Lemma collidePowerupsPlayer_contact w :
  collidePowerupsPlayer w
  = for_range 0 MAX_POWERUPS (contact_body Powerups takePowerup) w.
Proof.
  unfold collidePowerupsPlayer. apply for_range_ext. intros i w'.
  unfold contact_body, takePowerup, bind, read, get_game. cbn [fst snd].
  destruct (negb (active (slot Powerups i (game w')))); [reflexivity|].
  destruct (Rect.intersects _ _); reflexivity.
Qed.

Lemma armament_closed g n :
  1 <= playerWeaponLevel g <= 3 -> INT_MIN <= lives g <= 5 ->
  contact_fold Powerups armament collect g n
  = (Z.min 3 (playerWeaponLevel g + Z.of_nat (count_taken POWERUP_WEAPON g n)),
     Z.min 5 (lives g + Z.of_nat (count_taken POWERUP_HEALTH g n))).
Proof.
  intros Hw Hl. pose proof INT_bounds as [Emin Emax].
  induction n as [|n IH]; cbn [contact_fold count_taken].
  - unfold armament. rewrite !Z.add_0_r. f_equal; lia.
  - rewrite IH. destruct (struck Powerups g n); cbn [andb].
    2: { rewrite !Nat.add_0_r. reflexivity. }
    unfold collect. cbn [fst snd].
    destruct (type (slot Powerups n g)); cbn [EntityType_eqb];
      rewrite ?Nat.add_0_r; try reflexivity.
    + f_equal. rewrite wrap_int_id by lia. unfold min_int.
      destruct (Z.ltb_spec (Z.min 3 (playerWeaponLevel g
                   + Z.of_nat (count_taken POWERUP_WEAPON g n)) + 1) 3); lia.
    + f_equal. rewrite wrap_int_id by lia. unfold min_int.
      destruct (Z.ltb_spec (Z.min 5 (lives g
                   + Z.of_nat (count_taken POWERUP_HEALTH g n)) + 1) 5); lia.
Qed.

(** X18.  The loop of powerups against the player, from a weapon level
    between 1 and 3 and at most 5 lives: every active powerup whose box
    meets the player's is collected and deactivated; the weapon level
    goes up by the number of weapon powerups collected, but not beyond
    3, and the lives by the number of health powerups collected, but not
    beyond 5.  The other powerups, the player and the score are as
    before. *)
Theorem powerups_are_collected (w : World) :
  let g := game w in
  let g' := game (exec collidePowerupsPlayer w) in
  1 <= playerWeaponLevel g <= 3 -> INT_MIN <= lives g <= 5 ->
  playerWeaponLevel g'
  = Z.min 3 (playerWeaponLevel g
             + Z.of_nat (count_taken POWERUP_WEAPON g MAX_POWERUPS)) /\
  lives g'
  = Z.min 5 (lives g + Z.of_nat (count_taken POWERUP_HEALTH g MAX_POWERUPS)) /\
  player g' = player g /\ score g' = score g /\
  forall i, (i < MAX_POWERUPS)%nat ->
    slot Powerups i g' =
    if struck Powerups g i then deactivate (slot Powerups i g) else slot Powerups i g.
Proof.
  intros g g' Hw Hl.
  assert (Hs : score g' = score g).
  { apply (collidePowerupsPlayer_keeps score); blind. }
  unfold g' in *. unfold exec in *. rewrite collidePowerupsPlayer_contact in *.
  destruct (contact_fold_loop Powerups takePowerup armament collect takePowerup_spec
              MAX_POWERUPS w) as (Ha & Hp & Hsl).
  unfold exec in Ha, Hp, Hsl. fold g in Ha, Hp, Hsl.
  rewrite (armament_closed g MAX_POWERUPS Hw Hl) in Ha.
  unfold armament in Ha. apply pair_equal_spec in Ha. destruct Ha as [Ew El].
  split; [exact Ew|]. split; [exact El|]. split; [exact Hp|]. split; [exact Hs|].
  intros i Hi. rewrite (Hsl i). destruct (decide (i < MAX_POWERUPS)%nat); [reflexivity|lia].
Qed.

(** With two lives at weapon level 2, two weapon powerups and one health
    powerup on the player: the level stops at 3, the lives go to 3, and
    the health powerup that lies elsewhere stays. *)
Lemma powerups_are_collected_witness :
  let g' := game (exec collidePowerupsPlayer bounty_world) in
  playerWeaponLevel g' = 3 /\ lives g' = 3 /\
  active (slot Powerups 0 g') = false /\ active (slot Powerups 1 g') = true.
Proof.
  intros g'.
  destruct (powerups_are_collected bounty_world) as (Ew & El & _ & _ & Hs).
  { vm_compute. split; discriminate. }
  { vm_compute. split; discriminate. }
  fold g' in Ew, El, Hs.
  split; [rewrite Ew; vm_compute; reflexivity|].
  split; [rewrite El; vm_compute; reflexivity|].
  split.
  - rewrite (Hs 0%nat) by (unfold MAX_POWERUPS; lia). vm_compute. reflexivity.
  - rewrite (Hs 1%nat) by (unfold MAX_POWERUPS; lia). vm_compute. reflexivity.
Defined.

(* ===================================================================== *)
(** * The animation of the explosions *)
(* ===================================================================== *)

Lemma updateExplosions_body i w :
  let body := fun i : nat =>
    (e <- read Explosions i ;;
     if negb (active e) then ret Continue
     else
       now <- millis ;;
       when (wrap_ulong (now - lastAnimTime e) >? 50)
         (modify_slot Explosions i (fun e => set_animFrame (wrap_int (animFrame e + 1)) e) ;;
          t <- millis ;;
          modify_slot Explosions i (set_lastAnimTime t) ;;
          e <- read Explosions i ;;
          when (animFrame e >=? health e)
            (modify_slot Explosions i deactivate)) ;;
       ret Continue) in
  fst (body i w) = Continue /\
  millis_src (snd (body i w)) = millis_src w /\
  (millis_calls w <= millis_calls (snd (body i w)) <= millis_calls w + 2)%nat /\
  forall k, slot Explosions k (game (snd (body i w))) =
    if decide (k = i)
    then animated w (millis_calls w) (slot Explosions i (game w))
    else slot Explosions k (game w).
Proof.
  intros body. unfold body. clear body.
  rewrite bind_unfold. cbn [fst snd read].
  set (e := slot Explosions i (game w)). unfold animated. fold e.
  destruct (active e) eqn:Hact; cbn [negb].
  2: { split; [reflexivity|]. split; [reflexivity|]. split; [cbn; lia|].
       intros k. destruct (decide (k = i)) as [->|]; reflexivity. }
  pose proof (active_in_range _ _ _ Hact) as Hlt.
  rewrite bind_unfold. cbn [fst].
  change (fst (millis w)) with (reading w (millis_calls w)).
  set (w1 := snd (millis w)).
  assert (Hg1 : game w1 = game w) by reflexivity.
  assert (Hc1 : millis_calls w1 = S (millis_calls w)) by reflexivity.
  assert (Hm1 : millis_src w1 = millis_src w) by reflexivity.
  rewrite bind_unfold.
  destruct (wrap_ulong (reading w (millis_calls w) - lastAnimTime e) >? 50); cbn [when].
  2: { cbn [fst snd ret]. split; [reflexivity|]. split; [exact Hm1|].
       split; [rewrite Hc1; lia|].
       intros k. rewrite Hg1. destruct (decide (k = i)) as [->|]; reflexivity. }
  cbn [ret fst snd].
  split; [reflexivity|].
  set (f1 := fun e : Entity => set_animFrame (wrap_int (animFrame e + 1)) e).
  rewrite bind_unfold.
  change (snd (modify_slot Explosions i f1 w1)) with (exec (modify_slot Explosions i f1) w1).
  set (w2 := exec (modify_slot Explosions i f1) w1).
  assert (Hg2 : game w2 = set_pool Explosions (<[i := f1 e]> (pool_of Explosions (game w)))
                                   (game w)).
  { unfold w2. rewrite game_modify_slot, Hg1. reflexivity. }
  assert (Hc2 : millis_calls w2 = S (millis_calls w)) by reflexivity.
  assert (Hm2 : millis_src w2 = millis_src w) by reflexivity.
  rewrite bind_unfold.
  assert (Et : fst (millis w2) = reading w (S (millis_calls w))).
  { unfold millis, reading. cbn [fst]. rewrite Hm2, Hc2. reflexivity. }
  rewrite Et. set (t := reading w (S (millis_calls w))).
  set (w3 := snd (millis w2)).
  assert (Hg3 : game w3 = game w2) by reflexivity.
  assert (Hc3 : millis_calls w3 = S (S (millis_calls w))) by reflexivity.
  assert (Hm3 : millis_src w3 = millis_src w) by reflexivity.
  rewrite <- Hg3 in Hg2.
  rewrite bind_unfold.
  destruct (modify_written_slot Explosions i (set_lastAnimTime t) _ _ w3 Hlt Hg2)
    as [_ Hg4].
  change (snd (modify_slot Explosions i (set_lastAnimTime t) w3))
    with (exec (modify_slot Explosions i (set_lastAnimTime t)) w3).
  set (w4 := exec (modify_slot Explosions i (set_lastAnimTime t)) w3) in *.
  assert (Hc4 : millis_calls w4 = S (S (millis_calls w))) by reflexivity.
  assert (Hm4 : millis_src w4 = millis_src w) by reflexivity.
  rewrite bind_unfold. cbn [fst snd read].
  destruct (modify_written_slot Explosions i deactivate _ _ w4 Hlt Hg4) as [Hs4 Hg5].
  rewrite Hs4. unfold animate. cbv zeta. fold (f1 e).
  destruct (animFrame (set_lastAnimTime t (f1 e)) >=? health (set_lastAnimTime t (f1 e)));
    cbn [when].
  - change (snd (modify_slot Explosions i deactivate w4))
      with (exec (modify_slot Explosions i deactivate) w4).
    assert (Hc5 : millis_calls (exec (modify_slot Explosions i deactivate) w4)
                  = S (S (millis_calls w))) by reflexivity.
    split; [reflexivity|]. split; [rewrite Hc5; lia|].
    intros k. rewrite Hg5. apply slot_written. exact Hlt.
  - cbn [ret snd]. split; [exact Hm4|]. split; [rewrite Hc4; lia|].
    intros k. rewrite Hg4. apply slot_written. exact Hlt.
Qed.

(** X19.  One [updateExplosions] advances the animation of an active
    explosion by at most one frame, and only if, as its turn comes, the
    clock shows more than 50 ms since its last advance (each slot before
    it has read the clock at most twice); the advance is
    stamped with the next reading of the clock, and the explosion is
    deactivated as soon as its frame counter has reached its health.
    Inactive slots are not touched, nor is anything but the frame
    counter, the stamp and the active flag. *)
Theorem explosions_animate (w : World) (i : nat) :
  (i < MAX_EXPLOSIONS)%nat ->
  let e := slot Explosions i (game w) in
  let e' := slot Explosions i (game (exec updateExplosions w)) in
  exists c, (millis_calls w <= c <= millis_calls w + 2 * i)%nat /\
    if active e then
      if wrap_ulong (reading w c - lastAnimTime e) >? 50
      then e' = set_active (negb (wrap_int (animFrame e + 1) >=? health e))
                  (set_lastAnimTime (reading w (S c))
                     (set_animFrame (wrap_int (animFrame e + 1)) e))
      else e' = e
    else e' = e.
Proof.
  intros Hi e e'.
  assert (H : exists c, (millis_calls w <= c <= millis_calls w + 2 * i)%nat /\
                        e' = animated w c e).
  { unfold e', e, updateExplosions.
    apply (for_range_ind _
      (fun n w' =>
         millis_src w' = millis_src w /\
         (millis_calls w <= millis_calls w' <= millis_calls w + 2 * n)%nat /\
         forall k, if decide (k < n)%nat
                   then exists c, (millis_calls w <= c <= millis_calls w + 2 * k)%nat /\
                          slot Explosions k (game w')
                          = animated w c (slot Explosions k (game w))
                   else slot Explosions k (game w') = slot Explosions k (game w))
      (fun w' => exists c, (millis_calls w <= c <= millis_calls w + 2 * i)%nat /\
         slot Explosions i (game w') = animated w c (slot Explosions i (game w)))).
    - intros j w' _ (Hm & Hc & HP).
      pose proof (updateExplosions_body j w') as Hb. cbv zeta in Hb.
      destruct Hb as (Hflow & Hm' & Hc' & Hs). rewrite Hflow.
      split; [rewrite Hm'; exact Hm|]. split; [lia|].
      intros k. rewrite (Hs k). specialize (HP k) as HPk. specialize (HP j) as HPj.
      destruct (decide (j < j)%nat); [lia|].
      destruct (decide (k = j)) as [->|Hne].
      + destruct (decide (j < S j)%nat); [|lia].
        exists (millis_calls w'). split; [exact Hc|].
        rewrite HPj. unfold animated, reading. rewrite Hm. reflexivity.
      + destruct (decide (k < j)%nat), (decide (k < S j)%nat); try lia; exact HPk.
    - intros w' (_ & _ & HP). specialize (HP i). cbn [Nat.add] in HP.
      destruct (decide (i < MAX_EXPLOSIONS)%nat); [exact HP|lia].
    - split; [reflexivity|]. split; [lia|].
      intros k. destruct (decide (k < 0)%nat); [lia|reflexivity]. }
  destruct H as (c & Hc & E). exists c. split; [exact Hc|].
  rewrite E. unfold animated.
  destruct (active e) eqn:Hact; [|reflexivity].
  destruct (wrap_ulong (reading w c - lastAnimTime e) >? 50); [|reflexivity].
  unfold animate. cbv zeta.
  change (animFrame (set_lastAnimTime ?t (set_animFrame ?a e))) with a.
  change (health (set_lastAnimTime ?t (set_animFrame ?a e))) with (health e).
  destruct (wrap_int (animFrame e + 1) >=? health e); cbn [negb]; [reflexivity|].
  unfold set_active, set_lastAnimTime, set_animFrame. cbn. rewrite <- Hact.
  destruct e; reflexivity.
Qed.

(** An explosion at frame 4 whose last advance was at 2900: at 3000 it
    goes to frame 5, stamped 3040, and is still in play. *)
Lemma explosions_animate_witness :
  let e' := slot Explosions 0 (game (exec updateExplosions blast_world)) in
  animFrame e' = 5 /\ lastAnimTime e' = 3040 /\ active e' = true.
Proof.
  intros e'.
  destruct (explosions_animate blast_world 0) as (c & Hc & H).
  { unfold MAX_EXPLOSIONS. lia. }
  change (millis_calls blast_world) with 0%nat in Hc.
  assert (c = 0%nat) as -> by lia.
  cbv zeta in H. fold e' in H.
  assert (A : active (slot Explosions 0 (game blast_world)) = true) by reflexivity.
  assert (C : (wrap_ulong (reading blast_world 0
                           - lastAnimTime (slot Explosions 0 (game blast_world))) >? 50)
              = true) by (vm_compute; reflexivity).
  rewrite A, C in H. rewrite H.
  split; [vm_compute; reflexivity|]. split; vm_compute; reflexivity.
Defined.
